(** * Precog checkers: the game-rules engine and its alpha-beta search

    A shallow embedding of [src/game/Board.ts], [src/game/Move.ts],
    the [Evaluator] class (imported by the search from [./Evaluator], its
    text found in [src/main.ts]) and [src/ai/Minimax.ts]; then of
    [src/ai/Precog.ts], the [GameState] class (imported from
    [./game/GameState], its text found after [MoveValidator] in
    [src/game/Move.ts]) and the game logic of the [Renderer] class and of
    the page wiring in [src/main.ts].

    Modelling choices:
    - A [Board] is its [grid]: a JavaScript array of 8 row arrays.  A row
      array is read and written by property name, so one row is a finite map
      from column numbers to pieces; the whole grid is the map
      [gmap (Z * Z) Piece] keyed by (row, column).  A missing key stands for
      both [null] and [undefined] (the code only tests them for falsiness).
      [grid[r]] exists only for r in 0..7; reading or writing a property of
      the missing row throws a [TypeError].
    - Coordinates and scores are integers ([Z]); the evaluator's [3.5]
      centre is handled exactly by doubling (every score is an integer).
    - [-Infinity] / [Infinity] of the search window are the [ext] type.
    - Exceptions and unbounded recursion are made explicit by the [outcome]
      monad: [Thrown] for a JavaScript exception, [OutOfFuel] when the
      recursion bound of the model is exhausted. *)

From Stdlib Require Import ZArith List Lia Bool.
From Stdlib Require Strings.String Strings.Ascii.
From stdpp Require Import base gmap list.
Import ListNotations.
Import (notations) Stdlib.Strings.String.
Open Scope Z_scope.

(* ------------------------------------------------------------------ *)
(** ** Outcomes of a JavaScript call *)

Inductive outcome (A : Type) : Type :=
| Ret (a : A)
| Thrown
| OutOfFuel.
Arguments Ret {A} a.
Arguments Thrown {A}.
Arguments OutOfFuel {A}.

Definition obind {A B} (m : outcome A) (k : A -> outcome B) : outcome B :=
  match m with
  | Ret a => k a
  | Thrown => Thrown
  | OutOfFuel => OutOfFuel
  end.

#[global] Instance outcome_mret : MRet outcome := @Ret.
#[global] Instance outcome_mbind : MBind outcome := fun A B k m => obind m k.

(* ------------------------------------------------------------------ *)
(** ** Board.ts *)

Module Player.
Inductive t := Red | Black.
#[global] Instance eq_dec : EqDecision t.
Proof. solve_decision. Defined.
End Player.

Module PieceType.
Inductive t := Regular | King.
#[global] Instance eq_dec : EqDecision t.
Proof. solve_decision. Defined.
End PieceType.

Record Piece := mkPiece { player : Player.t; type : PieceType.t }.

#[global] Instance Piece_eq_dec : EqDecision Piece.
Proof. solve_decision. Defined.

Abbreviation Board := (gmap (Z * Z) Piece).

(** The range test of [getPieceAt], [setPiece], [removePiece] and
    [MoveValidator.isValidPosition]. *)
Definition isValidPosition (row col : Z) : bool :=
  (0 <=? row) && (row <? 8) && (0 <=? col) && (col <? 8).

(** [grid[row]] is an array exactly for the rows 0..7. *)
Definition rowExists (row : Z) : bool := (0 <=? row) && (row <? 8).

Definition empty : Board := ∅.

Definition coords : list (Z * Z) :=
  flat_map (fun r => map (fun c => (r, c)) (map Z.of_nat (seq 0 8)))
           (map Z.of_nat (seq 0 8)).

(** [createInitialBoard]: red regular pieces on the dark squares of rows
    0-2, black ones on rows 5-7. *)
Definition createInitialBoard : Board :=
  fold_left
    (fun g '(row, col) =>
       if Z.eqb ((row + col) mod 2) 1 then
         if row <? 3 then <[(row, col) := mkPiece Player.Red PieceType.Regular]> g
         else if 5 <=? row then <[(row, col) := mkPiece Player.Black PieceType.Regular]> g
         else g
       else g)
    coords empty.

Definition getPieceAt (b : Board) (row col : Z) : option Piece :=
  if isValidPosition row col then b !! (row, col) else None.

Definition setPiece (b : Board) (row col : Z) (piece : option Piece) : Board :=
  if isValidPosition row col then
    match piece with
    | Some p => <[(row, col) := p]> b
    | None => delete (row, col) b
    end
  else b.

(** Row-major scan of the 64 in-range cells. *)
Definition getPieces (b : Board) (pl : Player.t) : list (Piece * Z * Z) :=
  flat_map (fun '(row, col) =>
              match b !! (row, col) with
              | Some p => if decide (player p = pl) then [(p, row, col)] else []
              | None => []
              end) coords.

(** [movePiece] has no range check: [this.grid[fromRow]] is [undefined] for
    a row outside 0..7 and reading a property of it throws; likewise the
    write [this.grid[toRow][toCol] = piece], which happens after the source
    cell has been cleared.  The promotion mutates the piece object that has
    just been stored in the destination cell. *)
Definition movePiece (b : Board) (fromRow fromCol toRow toCol : Z) : outcome Board :=
  if negb (rowExists fromRow) then Thrown
  else
    match b !! (fromRow, fromCol) with
    | None => Ret b
    | Some piece =>
        let b1 := delete (fromRow, fromCol) b in
        if negb (rowExists toRow) then Thrown
        else
          let piece' :=
            match type piece with
            | PieceType.Regular =>
                match player piece with
                | Player.Red =>
                    if Z.eqb toRow 7 then mkPiece (player piece) PieceType.King else piece
                | Player.Black =>
                    if Z.eqb toRow 0 then mkPiece (player piece) PieceType.King else piece
                end
            | PieceType.King => piece
            end in
          Ret (<[(toRow, toCol) := piece']> b1)
    end.

Definition removePiece (b : Board) (row col : Z) : Board :=
  if isValidPosition row col then delete (row, col) b else b.

(** [clone] copies the 64 in-range cells into a fresh empty board. *)
Definition clone (b : Board) : Board :=
  filter (fun kv => isValidPosition kv.1.1 kv.1.2 = true) b.

(* ------------------------------------------------------------------ *)
(** ** Move.ts: moves and their execution *)

Module MoveType.
Inductive t := Regular | Capture.
#[global] Instance eq_dec : EqDecision t.
Proof. solve_decision. Defined.
End MoveType.

Module Move.
Record t := mk {
  toRow : Z;
  toCol : Z;
  type : MoveType.t;
  capturedRow : option Z;
  capturedCol : option Z
}.

(** [Move.execute]: remove the captured piece, then move. *)
Definition execute (b : Board) (fromRow fromCol : Z) (move : t) : outcome Board :=
  let b1 :=
    match type move, capturedRow move, capturedCol move with
    | MoveType.Capture, Some cr, Some cc => removePiece b cr cc
    | _, _, _ => b
    end in
  movePiece b1 fromRow fromCol (toRow move) (toCol move).
End Move.

Record PieceMove := mkPieceMove { fromRow : Z; fromCol : Z; move : Move.t }.

(* ------------------------------------------------------------------ *)
(** ** Move.ts: the validator *)

Module MoveValidator.

Definition DIRECTIONS : list (Z * Z) := [(-1, -1); (-1, 1); (1, -1); (1, 1)].

(** Regular pieces: Red moves down (positive row), Black moves up. *)
Definition getDirections (pl : Player.t) (ty : PieceType.t) : list (Z * Z) :=
  match ty with
  | PieceType.King => DIRECTIONS
  | PieceType.Regular =>
      match pl with
      | Player.Red => [(1, -1); (1, 1)]
      | Player.Black => [(-1, -1); (-1, 1)]
      end
  end.

Definition getRegularMoves (b : Board) (row col : Z) (pl : Player.t)
    (ty : PieceType.t) : list Move.t :=
  flat_map (fun '(dr, dc) =>
              let newRow := row + dr in
              let newCol := col + dc in
              if isValidPosition newRow newCol && bool_decide (getPieceAt b newRow newCol = None)
              then [Move.mk newRow newCol MoveType.Regular None None]
              else [])
           (getDirections pl ty).

Definition getCaptureMoves (b : Board) (row col : Z) (pl : Player.t)
    (ty : PieceType.t) : list Move.t :=
  flat_map (fun '(dr, dc) =>
              let jumpedRow := row + dr in
              let jumpedCol := col + dc in
              let landRow := row + 2 * dr in
              let landCol := col + 2 * dc in
              if negb (isValidPosition landRow landCol) then []
              else
                match getPieceAt b jumpedRow jumpedCol, getPieceAt b landRow landCol with
                | Some jumpedPiece, None =>
                    if bool_decide (player jumpedPiece <> pl)
                    then [Move.mk landRow landCol MoveType.Capture
                            (Some jumpedRow) (Some jumpedCol)]
                    else []
                | _, _ => []
                end)
           (getDirections pl ty).

Definition getValidMoves (b : Board) (row col : Z) : list Move.t :=
  match getPieceAt b row col with
  | None => []
  | Some piece =>
      match getCaptureMoves b row col (player piece) (type piece) with
      | [] => getRegularMoves b row col (player piece) (type piece)
      | captures => captures
      end
  end.

(** Two passes over [board.getPieces(player)]: the first collects every
    capture and sets [hasCapture]; the second, reached only without
    captures, collects the regular moves. *)
Definition getAllValidMoves (b : Board) (pl : Player.t) : list PieceMove :=
  let pieces := getPieces b pl in
  let '(hasCapture, allMoves) :=
    fold_left (fun '(hasCapture, allMoves) '(piece, row, col) =>
                 match getCaptureMoves b row col (player piece) (type piece) with
                 | [] => (hasCapture, allMoves)
                 | captures =>
                     (true, allMoves ++ map (fun m => mkPieceMove row col m) captures)
                 end)
              pieces (false, []) in
  if hasCapture then allMoves
  else
    fold_left (fun allMoves '(piece, row, col) =>
                 allMoves ++ map (fun m => mkPieceMove row col m)
                   (getRegularMoves b row col (player piece) (type piece)))
              pieces allMoves.

(** The [for (const capture of captures)] loop of [findCaptureChains]:
    [rec] is the recursive call.  The chains pushed onto [allChains] are
    returned in push order. *)
Fixpoint captureLoop
    (rec : Board -> Z -> Z -> PieceType.t -> list Move.t -> outcome (list (list Move.t)))
    (b : Board) (row col : Z) (ty : PieceType.t) (currentChain : list Move.t)
    (captures : list Move.t) : outcome (list (list Move.t)) :=
  match captures with
  | [] => Ret []
  | capture :: rest =>
      newBoard ← Move.execute (clone b) row col capture;
      let newType :=
        match getPieceAt newBoard (Move.toRow capture) (Move.toCol capture) with
        | Some newPiece => type newPiece
        | None => ty
        end in
      here ← rec newBoard (Move.toRow capture) (Move.toCol capture) newType
                 (currentChain ++ [capture]);
      others ← captureLoop rec b row col ty currentChain rest;
      Ret (here ++ others)
  end.

(** [findCaptureChains]: depth-first enumeration on board copies; [fuel]
    bounds the recursion depth. *)
Fixpoint findCaptureChains (fuel : nat) (b : Board) (row col : Z)
    (pl : Player.t) (ty : PieceType.t) (currentChain : list Move.t)
    : outcome (list (list Move.t)) :=
  match fuel with
  | O => OutOfFuel
  | S f =>
      match getCaptureMoves b row col pl ty with
      | [] => Ret (match currentChain with [] => [] | _ => [currentChain] end)
      | captures =>
          captureLoop (fun nb r c nty chain => findCaptureChains f nb r c pl nty chain)
                      b row col ty currentChain captures
      end
  end.

(** Recursion bound for [getCaptureChains]: every jump removes one of the
    at most 64 pieces on the board, so 65 levels are never exhausted. *)
Definition chainFuel : nat := 65.

Definition getCaptureChains (b : Board) (row col : Z) : outcome (list (list Move.t)) :=
  match getPieceAt b row col with
  | None => Ret []
  | Some piece =>
      findCaptureChains chainFuel (clone b) row col (player piece) (type piece) []
  end.

End MoveValidator.

(* ------------------------------------------------------------------ *)
(** ** Evaluator *)

Module Evaluator.
Definition WIN_SCORE : Z := 10000.
Definition PIECE_VALUE : Z := 100.
Definition KING_VALUE : Z := 180.
Definition CENTER_BONUS : Z := 5.
Definition ADVANCE_BONUS : Z := 2.

Definition opponentOf (pl : Player.t) : Player.t :=
  match pl with Player.Red => Player.Black | Player.Black => Player.Red end.

(** [centerDistance = |3.5 - col| + |3.5 - row|]; twice it is
    [|7 - 2 col| + |7 - 2 row|], an even integer for integer coordinates,
    so the halving below is exact. *)
Definition evaluatePiece (piece : Piece) (row col : Z) (pl : Player.t) : Z :=
  let value := match type piece with
               | PieceType.King => KING_VALUE
               | PieceType.Regular => PIECE_VALUE
               end in
  let centerDistance := (Z.abs (7 - 2 * col) + Z.abs (7 - 2 * row)) / 2 in
  let value := value + (7 - centerDistance) * CENTER_BONUS in
  match type piece with
  | PieceType.Regular =>
      match pl with
      | Player.Red => value + row * ADVANCE_BONUS
      | Player.Black => value + (7 - row) * ADVANCE_BONUS
      end
  | PieceType.King => value
  end.

Definition evaluate (b : Board) (pl : Player.t) : Z :=
  let opponent := opponentOf pl in
  let playerPieces := getPieces b pl in
  let opponentPieces := getPieces b opponent in
  if Nat.eqb (length opponentPieces) 0 then WIN_SCORE
  else if Nat.eqb (length playerPieces) 0 then - WIN_SCORE
  else
    let score := fold_left (fun score '(piece, row, col) =>
                              score + evaluatePiece piece row col pl) playerPieces 0 in
    fold_left (fun score '(piece, row, col) =>
                 score - evaluatePiece piece row col opponent) opponentPieces score.
End Evaluator.

Definition board_of (l : list (Z * Z * Piece)) : Board :=
  fold_left (fun b '(r, c, p) => setPiece b r c (Some p)) l empty.

Definition rR := mkPiece Player.Red PieceType.Regular.
Definition rK := mkPiece Player.Red PieceType.King.
Definition bR := mkPiece Player.Black PieceType.Regular.
Definition bK := mkPiece Player.Black PieceType.King.

Example ex_capture :
  MoveValidator.getValidMoves (board_of [(2, 1, rR); (3, 2, bR)]) 2 1
  = [Move.mk 4 3 MoveType.Capture (Some 3) (Some 2)].
Proof. vm_compute. reflexivity. Qed.
Example ex_chain :
  MoveValidator.getCaptureChains (board_of [(2, 1, rR); (3, 2, bR); (5, 4, bR)]) 2 1
  = Ret [[Move.mk 4 3 MoveType.Capture (Some 3) (Some 2);
          Move.mk 6 5 MoveType.Capture (Some 5) (Some 4)]].
Proof. vm_compute. reflexivity. Qed.
Example ex_eval : Evaluator.evaluate createInitialBoard Player.Red = 0.
Proof. vm_compute. reflexivity. Qed.
Example ex_count : length (getPieces createInitialBoard Player.Black) = 12%nat.
Proof. vm_compute. reflexivity. Qed.

(* ------------------------------------------------------------------ *)
(** ** Minimax.ts *)

(** JavaScript numbers as used by the search: integers and the two
    infinities of the initial window. *)
Inductive ext := NegInf | Fin (z : Z) | PosInf.

Definition ext_le (x y : ext) : bool :=
  match x, y with
  | NegInf, _ => true
  | _, PosInf => true
  | Fin a, Fin b => a <=? b
  | _, _ => false
  end.

Definition ext_lt (x y : ext) : bool := negb (ext_le y x).

(** [Math.max] and [Math.min]. *)
Definition emax (x y : ext) : ext := if ext_le x y then y else x.
Definition emin (x y : ext) : ext := if ext_le x y then x else y.

Record SearchResult := mkSearchResult {
  sr_fromRow : Z; sr_fromCol : Z; sr_move : Move.t; score : ext }.

Module Minimax.
Import MoveValidator Evaluator.

(** The maximizing loop of [minimax]; [rec] is the recursive call on the
    executed board copy with the current window. *)
Fixpoint maxLoop (rec : Board -> ext -> ext -> outcome ext) (b : Board)
    (moves : list PieceMove) (alpha beta maxEval : ext) : outcome ext :=
  match moves with
  | [] => Ret maxEval
  | pieceMove :: rest =>
      newBoard ← Move.execute (clone b) (fromRow pieceMove) (fromCol pieceMove) (move pieceMove);
      evalScore ← rec newBoard alpha beta;
      let maxEval := emax maxEval evalScore in
      let alpha := emax alpha evalScore in
      if ext_le beta alpha then Ret maxEval
      else maxLoop rec b rest alpha beta maxEval
  end.

Fixpoint minLoop (rec : Board -> ext -> ext -> outcome ext) (b : Board)
    (moves : list PieceMove) (alpha beta minEval : ext) : outcome ext :=
  match moves with
  | [] => Ret minEval
  | pieceMove :: rest =>
      newBoard ← Move.execute (clone b) (fromRow pieceMove) (fromCol pieceMove) (move pieceMove);
      evalScore ← rec newBoard alpha beta;
      let minEval := emin minEval evalScore in
      let beta := emin beta evalScore in
      if ext_le beta alpha then Ret minEval
      else minLoop rec b rest alpha beta minEval
  end.

(** [Minimax.minimax]; [fuel] bounds the recursion depth (the JavaScript
    call stack), the search [depth] is the source's number. *)
Fixpoint minimax (fuel : nat) (b : Board) (depth : Z) (alpha beta : ext)
    (isMaximizing : bool) (pl : Player.t) : outcome ext :=
  match fuel with
  | O => OutOfFuel
  | S f =>
      let opponent := opponentOf pl in
      let currentPlayer := if isMaximizing then pl else opponent in
      if Z.eqb depth 0 then Ret (Fin (evaluate b pl))
      else
        match getAllValidMoves b currentPlayer with
        | [] => Ret (Fin (if isMaximizing then - WIN_SCORE else WIN_SCORE))
        | moves =>
            if isMaximizing then
              maxLoop (fun nb a bt => minimax f nb (depth - 1) a bt false pl)
                      b moves alpha beta NegInf
            else
              minLoop (fun nb a bt => minimax f nb (depth - 1) a bt true pl)
                      b moves alpha beta PosInf
        end
  end.

(** The candidate loop of [findBestMove]: [beta] stays [Infinity], [alpha]
    is the best score so far, and a later candidate replaces the current
    best only with a strictly higher score. *)
Fixpoint bestLoop (fuel : nat) (b : Board) (pl : Player.t) (depth : Z)
    (moves : list PieceMove) (alpha : ext) (bestResult : option SearchResult)
    : outcome (option SearchResult) :=
  match moves with
  | [] => Ret bestResult
  | pieceMove :: rest =>
      newBoard ← Move.execute (clone b) (fromRow pieceMove) (fromCol pieceMove) (move pieceMove);
      sc ← minimax fuel newBoard (depth - 1) alpha PosInf false pl;
      let bestResult :=
        match bestResult with
        | Some br =>
            if ext_lt (score br) sc
            then Some (mkSearchResult (fromRow pieceMove) (fromCol pieceMove) (move pieceMove) sc)
            else bestResult
        | None => Some (mkSearchResult (fromRow pieceMove) (fromCol pieceMove) (move pieceMove) sc)
        end in
      bestLoop fuel b pl depth rest (emax alpha sc) bestResult
  end.

Definition findBestMove (fuel : nat) (b : Board) (pl : Player.t) (depth : Z)
    : outcome (option SearchResult) :=
  match getAllValidMoves b pl with
  | [] => Ret None
  | moves => bestLoop fuel b pl depth moves NegInf None
  end.

End Minimax.

(** ** The unpruned reference search

    The claim's "full minimax traversal": the same tree (moves from
    [getAllValidMoves], executed on board copies, leaves evaluated for the
    fixed player, a side without moves scored as a loss for it), every child
    visited, no window. *)
Module FullSearch.
Import MoveValidator Evaluator.

Fixpoint foldChildren (op : ext -> ext -> ext) (rec : Board -> outcome ext)
    (b : Board) (moves : list PieceMove) (acc : ext) : outcome ext :=
  match moves with
  | [] => Ret acc
  | pieceMove :: rest =>
      newBoard ← Move.execute (clone b) (fromRow pieceMove) (fromCol pieceMove) (move pieceMove);
      v ← rec newBoard;
      foldChildren op rec b rest (op acc v)
  end.

Fixpoint minimaxFull (b : Board) (depth : nat) (isMaximizing : bool)
    (pl : Player.t) : outcome ext :=
  match depth with
  | O => Ret (Fin (evaluate b pl))
  | S d =>
      let currentPlayer := if isMaximizing then pl else opponentOf pl in
      match getAllValidMoves b currentPlayer with
      | [] => Ret (Fin (if isMaximizing then - WIN_SCORE else WIN_SCORE))
      | moves =>
          if isMaximizing then
            foldChildren emax (fun nb => minimaxFull nb d false pl) b moves NegInf
          else
            foldChildren emin (fun nb => minimaxFull nb d true pl) b moves PosInf
      end
  end.

(** Best score over the root moves, [None] without moves. *)
Definition bestScoreFull (b : Board) (pl : Player.t) (depth : nat)
    : outcome (option ext) :=
  match getAllValidMoves b pl with
  | [] => Ret None
  | moves =>
      v ← foldChildren emax (fun nb => minimaxFull nb (Nat.pred depth) false pl) b moves NegInf;
      Ret (Some v)
  end.
End FullSearch.

Example ex_search :
  match Minimax.findBestMove 5 (board_of [(2, 1, rR); (3, 2, bR)]) Player.Red 4 with
  | Ret (Some r) => Some (Move.toRow (sr_move r), Move.toCol (sr_move r), score r)
  | _ => None
  end = Some (4, 3, Fin Evaluator.WIN_SCORE).
Proof. vm_compute. reflexivity. Qed.

(* ------------------------------------------------------------------ *)
(** ** Vocabulary of the properties *)

Module Spec.
Import MoveValidator.

(** The two passes of [getAllValidMoves] in closed form. *)
Definition allCaptures (b : Board) (pl : Player.t) : list PieceMove :=
  flat_map (fun '(pc, r, c) =>
              map (mkPieceMove r c) (getCaptureMoves b r c (player pc) (type pc)))
           (getPieces b pl).

Definition allRegular (b : Board) (pl : Player.t) : list PieceMove :=
  flat_map (fun '(pc, r, c) =>
              map (mkPieceMove r c) (getRegularMoves b r c (player pc) (type pc)))
           (getPieces b pl).

Definition anyCapture (b : Board) (pl : Player.t) : bool :=
  existsb (fun '(pc, r, c) =>
             negb (Nat.eqb (length (getCaptureMoves b r c (player pc) (type pc))) 0))
          (getPieces b pl).

(** What a move generated at (r, c) for [pl] carries: a capture records
    the jumped square, the midpoint of source and destination, which holds
    an opponent piece, and lands on an empty in-range square; a quiet
    step records no jumped square. *)
Definition move_wellformed (b : Board) (r c : Z) (pl : Player.t) (m : Move.t) : Prop :=
  match Move.type m with
  | MoveType.Capture =>
      exists cr cc,
        Move.capturedRow m = Some cr /\ Move.capturedCol m = Some cc /\
        2 * cr = r + Move.toRow m /\ 2 * cc = c + Move.toCol m /\
        (exists q, getPieceAt b cr cc = Some q /\ player q <> pl) /\
        isValidPosition (Move.toRow m) (Move.toCol m) = true /\
        getPieceAt b (Move.toRow m) (Move.toCol m) = None
  | MoveType.Regular => Move.capturedRow m = None /\ Move.capturedCol m = None
  end.

(** Replaying a chain of captures of the piece of [pl] standing on
    (r, c) with rank [ty]: every move is a capture the validator offers
    there, it is executed on a copy of the board, and the rank for the
    next jump is the one of the piece on its landing square (a promotion
    mid-chain changes it). *)
Inductive replays : Board -> Z -> Z -> Player.t -> PieceType.t -> list Move.t ->
                    Board -> Z -> Z -> PieceType.t -> Prop :=
| replays_nil b r c pl ty : replays b r c pl ty [] b r c ty
| replays_cons b r c pl ty m rest nb pc b' r' c' ty' :
    In m (getCaptureMoves b r c pl ty) ->
    Move.execute (clone b) r c m = Ret nb ->
    getPieceAt nb (Move.toRow m) (Move.toCol m) = Some pc ->
    replays nb (Move.toRow m) (Move.toCol m) pl (type pc) rest b' r' c' ty' ->
    replays b r c pl ty (m :: rest) b' r' c' ty'.

(** A chain whose every move is a well-formed capture on the board it is
    played on. *)
Inductive chain_wf : Board -> Z -> Z -> Player.t -> list Move.t -> Prop :=
| chain_wf_nil b r c pl : chain_wf b r c pl []
| chain_wf_cons b r c pl m rest nb :
    Move.type m = MoveType.Capture ->
    move_wellformed b r c pl m ->
    Move.execute (clone b) r c m = Ret nb ->
    chain_wf nb (Move.toRow m) (Move.toCol m) pl rest ->
    chain_wf b r c pl (m :: rest).

(** The number of opponent pieces, the measure that bounds the length
    of a capture chain. *)
Definition oppCount (b : Board) (pl : Player.t) : nat :=
  length (getPieces b (Evaluator.opponentOf pl)).
(** The search window as it acts on a score: [clamp a b x] is [x] pulled
    into the interval [a, b].  Fail-soft alpha-beta returns, for a window
    [a, b], a score with the same clamp as the exact minimax value. *)
Definition clamp (a b x : ext) : ext := emax a (emin x b).

(** The board reached by the first move the search tries on [b] (the side
    to move being [pl] when [isMaximizing], its opponent otherwise). *)
Definition firstChild (pl : Player.t) (b : Board) (isMaximizing : bool) : option Board :=
  match getAllValidMoves b (if isMaximizing then pl else Evaluator.opponentOf pl) with
  | pm :: _ =>
      match Move.execute (clone b) (fromRow pm) (fromCol pm) (move pm) with
      | Ret nb => Some nb
      | _ => None
      end
  | [] => None
  end.

(** The first [n + 1] positions of the leftmost branch of the search tree,
    the one the depth-first search enters first. *)
Fixpoint leftmostPath (pl : Player.t) (b : Board) (isMaximizing : bool) (n : nat)
    : list (Board * bool) :=
  (b, isMaximizing) ::
  match n with
  | O => []
  | S k =>
      match firstChild pl b isMaximizing with
      | Some nb => leftmostPath pl nb (negb isMaximizing) k
      | None => []
      end
  end.

(** Every position of [S] has a first move, and it leads back into [S]. *)
Definition closedUnder (pl : Player.t) (S : list (Board * bool)) : bool :=
  forallb (fun '(b, m) =>
             match firstChild pl b m with
             | Some nb => existsb (fun '(b', m') => bool_decide (nb = b') && Bool.eqb m' (negb m)) S
             | None => false
             end) S.

(** A red king on (6, 1) against a black king on (3, 2), Red to move. *)
Definition cycleBoard : Board := board_of [(6, 1, rK); (3, 2, bK)].

Definition cycleStates : list (Board * bool) := leftmostPath Player.Red cycleBoard true 13.
End Spec.

(* ------------------------------------------------------------------ *)
(** ** JavaScript strings *)

(** A JavaScript string is its sequence of UTF-16 code units; the literals
    of the code are ASCII. *)
Abbreviation jsstring := (list Z).

Definition lit (s : String.string) : jsstring :=
  map (fun a => Z.of_nat (Ascii.nat_of_ascii a)) (String.list_ascii_of_string s).

Fixpoint uintCodes (u : Decimal.uint) : jsstring :=
  match u with
  | Decimal.Nil => []
  | Decimal.D0 u => 48 :: uintCodes u
  | Decimal.D1 u => 49 :: uintCodes u
  | Decimal.D2 u => 50 :: uintCodes u
  | Decimal.D3 u => 51 :: uintCodes u
  | Decimal.D4 u => 52 :: uintCodes u
  | Decimal.D5 u => 53 :: uintCodes u
  | Decimal.D6 u => 54 :: uintCodes u
  | Decimal.D7 u => 55 :: uintCodes u
  | Decimal.D8 u => 56 :: uintCodes u
  | Decimal.D9 u => 57 :: uintCodes u
  end.

(** [String(n)] (and [`${n}`]) for an integer [n]: its decimal digits,
    preceded by [-] when negative. *)
Definition numToString (n : Z) : jsstring :=
  match Z.to_int n with
  | Decimal.Pos u => uintCodes u
  | Decimal.Neg u => 45 :: uintCodes u
  end.

(** [String.fromCharCode(n)] for an integer [n]: the code unit [ToUint16(n)]. *)
Definition fromCharCode (n : Z) : jsstring := [n mod 65536].

(** [Array.prototype.slice(start)] and [slice(0, end)]: a negative bound
    counts from the end, and bounds are clamped to the length. *)
Definition relIndex (len n : Z) : Z :=
  if n <? 0 then Z.max (len + n) 0 else Z.min n len.

Definition sliceFrom {A} (l : list A) (start : Z) : list A :=
  skipn (Z.to_nat (relIndex (Z.of_nat (length l)) start)) l.

Definition sliceTo {A} (l : list A) (end_ : Z) : list A :=
  firstn (Z.to_nat (relIndex (Z.of_nat (length l)) end_)) l.

(* ------------------------------------------------------------------ *)
(** ** Precog.ts *)

Module Precog.
Import MoveValidator Evaluator.

Record FutureVision := mkFutureVision {
  moves : list PieceMove;
  finalBoard : Board;
  evaluation : ext;
  description : jsstring
}.

(** [describeVision]; the player argument is unused by the code. *)
Definition describeVision (score : ext) (pl : Player.t) : jsstring :=
  if ext_le (Fin WIN_SCORE) score then lit "Victory is certain"
  else if ext_le score (Fin (- WIN_SCORE)) then lit "Defeat looms"
  else if ext_lt (Fin 200) score then lit "A promising future"
  else if ext_lt (Fin 50) score then lit "Slight advantage ahead"
  else if ext_lt score (Fin (-200)) then lit "Danger approaches"
  else if ext_lt score (Fin (-50)) then lit "Caution advised"
  else lit "The future is unclear".

(** The [for] loop of [simulateFuture]: it runs while [i < depth] and
    fewer than 6 moves are recorded, and stops at the first side without
    a move.  [Move.execute] mutates [currentBoard] in place.  [n] bounds
    the iterations; the length test makes 6 enough. *)
Fixpoint simLoop (fuel n : nat) (depth i : Z) (currentBoard : Board)
    (currentPlayer : Player.t) (moves : list PieceMove)
    : outcome (Board * list PieceMove) :=
  match n with
  | O => OutOfFuel
  | S n' =>
      if (i <? depth) && (Z.of_nat (length moves) <? 6) then
        bestMove ← Minimax.findBestMove fuel currentBoard currentPlayer 2;
        match bestMove with
        | None => Ret (currentBoard, moves)
        | Some bm =>
            let moves := moves ++ [mkPieceMove (sr_fromRow bm) (sr_fromCol bm) (sr_move bm)] in
            nb ← Move.execute currentBoard (sr_fromRow bm) (sr_fromCol bm) (sr_move bm);
            simLoop fuel n' depth (i + 1) nb (opponentOf currentPlayer) moves
        end
      else Ret (currentBoard, moves)
  end.

Definition simBound : nat := 6.

Definition simulateFuture (fuel : nat) (board : Board) (pl : Player.t)
    (initialMove : PieceMove) (depth : Z) : outcome FutureVision :=
  let opponent := opponentOf pl in
  let currentBoard := clone board in
  cb ← Move.execute currentBoard (fromRow initialMove) (fromCol initialMove) (move initialMove);
  res ← simLoop fuel simBound depth 0 cb opponent [initialMove];
  let '(finalB, ms) := res in
  let ev := evaluate finalB pl in
  Ret (mkFutureVision ms finalB (Fin ev) (describeVision (Fin ev) pl)).

(** [visions.sort((a, b) => b.evaluation - a.evaluation)].  Every
    evaluation sorted here is a finite number, so the comparator is a
    consistent total preorder and the stable sort of the language
    (insertion after every element that is not smaller) gives the unique
    stable result. *)
Fixpoint insertDesc (v : FutureVision) (l : list FutureVision) : list FutureVision :=
  match l with
  | [] => [v]
  | y :: l' =>
      if ext_lt (evaluation y) (evaluation v) then v :: y :: l'
      else y :: insertDesc v l'
  end.

Definition sortDesc (l : list FutureVision) : list FutureVision :=
  fold_left (fun acc v => insertDesc v acc) l [].

(** The [for ... of] loop that pushes one vision per move. *)
Fixpoint mapOutcome {A B} (f : A -> outcome B) (l : list A) : outcome (list B) :=
  match l with
  | [] => Ret []
  | x :: l' => y ← f x; ys ← mapOutcome f l'; Ret (y :: ys)
  end.

Definition getFutures (fuel : nat) (board : Board) (pl : Player.t)
    (numVisions depth : Z) : outcome (list FutureVision) :=
  match getAllValidMoves board pl with
  | [] => Ret []
  | moves =>
      visions ← mapOutcome (fun pm => simulateFuture fuel board pl pm depth) moves;
      Ret (sliceTo (sortDesc visions) numVisions)
  end.

Definition getPredictedResponse (fuel : nat) (board : Board) (playerMove : PieceMove)
    (aiPlayer : Player.t) (depth : Z) : outcome (option FutureVision) :=
  let newBoard := clone board in
  nb ← Move.execute newBoard (fromRow playerMove) (fromCol playerMove) (move playerMove);
  aiResponse ← Minimax.findBestMove fuel nb aiPlayer depth;
  match aiResponse with
  | None => Ret None
  | Some r =>
      let afterAiMove := clone nb in
      ab ← Move.execute afterAiMove (sr_fromRow r) (sr_fromCol r) (sr_move r);
      Ret (Some (mkFutureVision
                   [playerMove; mkPieceMove (sr_fromRow r) (sr_fromCol r) (sr_move r)]
                   ab (score r) (describeVision (score r) aiPlayer)))
  end.
End Precog.

(* ------------------------------------------------------------------ *)
(** ** GameState.ts *)

Module Game.
Import MoveValidator Evaluator Precog.

Inductive GameStatus := Active | RedWins | BlackWins | Draw.
#[global] Instance GameStatus_eq_dec : EqDecision GameStatus.
Proof. solve_decision. Defined.

(** [MoveRecord]; [captured] is the optional [{row, col}] object, whose
    fields are copied from the move and may be [undefined]. *)
Record MoveRecord := mkMoveRecord {
  mr_player : Player.t;
  from : Z * Z;
  to : Z * Z;
  captured : option (option Z * option Z);
  wasPromotion : bool
}.

(** The fields of a [GameState] object.  [aiPending] counts the
    [makeAIMove] calls suspended on their 300 ms timer; each resumes as
    [makeAIMoveResume] on the state of the object at that time.  The two
    callbacks only redraw the page and are left out. *)
Record GameState := mkGameState {
  board : Board;
  currentPlayer : Player.t;
  status : GameStatus;
  selectedPiece : option (Z * Z);
  validMoves : list Move.t;
  moveHistory : list MoveRecord;
  humanPlayer : Player.t;
  aiPlayer : Player.t;
  aiDepth : Z;
  visionsEnabled : bool;
  currentVisions : list FutureVision;
  lastAIMove : option (Z * Z);
  aiPending : nat
}.

(** Field assignments. *)
Definition set_board (st : GameState) x :=
  mkGameState x (currentPlayer st) (status st) (selectedPiece st) (validMoves st)
    (moveHistory st) (humanPlayer st) (aiPlayer st) (aiDepth st) (visionsEnabled st)
    (currentVisions st) (lastAIMove st) (aiPending st).
Definition set_currentPlayer (st : GameState) x :=
  mkGameState (board st) x (status st) (selectedPiece st) (validMoves st)
    (moveHistory st) (humanPlayer st) (aiPlayer st) (aiDepth st) (visionsEnabled st)
    (currentVisions st) (lastAIMove st) (aiPending st).
Definition set_status (st : GameState) x :=
  mkGameState (board st) (currentPlayer st) x (selectedPiece st) (validMoves st)
    (moveHistory st) (humanPlayer st) (aiPlayer st) (aiDepth st) (visionsEnabled st)
    (currentVisions st) (lastAIMove st) (aiPending st).
Definition set_selectedPiece (st : GameState) x :=
  mkGameState (board st) (currentPlayer st) (status st) x (validMoves st)
    (moveHistory st) (humanPlayer st) (aiPlayer st) (aiDepth st) (visionsEnabled st)
    (currentVisions st) (lastAIMove st) (aiPending st).
Definition set_validMoves (st : GameState) x :=
  mkGameState (board st) (currentPlayer st) (status st) (selectedPiece st) x
    (moveHistory st) (humanPlayer st) (aiPlayer st) (aiDepth st) (visionsEnabled st)
    (currentVisions st) (lastAIMove st) (aiPending st).
Definition set_moveHistory (st : GameState) x :=
  mkGameState (board st) (currentPlayer st) (status st) (selectedPiece st) (validMoves st)
    x (humanPlayer st) (aiPlayer st) (aiDepth st) (visionsEnabled st)
    (currentVisions st) (lastAIMove st) (aiPending st).
Definition set_players (st : GameState) human ai :=
  mkGameState (board st) (currentPlayer st) (status st) (selectedPiece st) (validMoves st)
    (moveHistory st) human ai (aiDepth st) (visionsEnabled st)
    (currentVisions st) (lastAIMove st) (aiPending st).
Definition set_visionsEnabled (st : GameState) x :=
  mkGameState (board st) (currentPlayer st) (status st) (selectedPiece st) (validMoves st)
    (moveHistory st) (humanPlayer st) (aiPlayer st) (aiDepth st) x
    (currentVisions st) (lastAIMove st) (aiPending st).
Definition set_currentVisions (st : GameState) x :=
  mkGameState (board st) (currentPlayer st) (status st) (selectedPiece st) (validMoves st)
    (moveHistory st) (humanPlayer st) (aiPlayer st) (aiDepth st) (visionsEnabled st)
    x (lastAIMove st) (aiPending st).
Definition set_lastAIMove (st : GameState) x :=
  mkGameState (board st) (currentPlayer st) (status st) (selectedPiece st) (validMoves st)
    (moveHistory st) (humanPlayer st) (aiPlayer st) (aiDepth st) (visionsEnabled st)
    (currentVisions st) x (aiPending st).
Definition set_aiPending (st : GameState) x :=
  mkGameState (board st) (currentPlayer st) (status st) (selectedPiece st) (validMoves st)
    (moveHistory st) (humanPlayer st) (aiPlayer st) (aiDepth st) (visionsEnabled st)
    (currentVisions st) (lastAIMove st) x.

(** [new GameState(humanPlayer, aiDepth)]; [new Board()] is the initial
    position. *)
Definition init (humanPlayer : Player.t) (aiDepth : Z) : GameState :=
  mkGameState createInitialBoard Player.Red Active None [] [] humanPlayer
    (match humanPlayer with Player.Red => Player.Black | Player.Black => Player.Red end)
    aiDepth true [] None 0.

Definition isCapture (m : Move.t) : bool := bool_decide (Move.type m = MoveType.Capture).

Definition checkGameOver (st : GameState) : GameState :=
  let redPieces := getPieces (board st) Player.Red in
  let blackPieces := getPieces (board st) Player.Black in
  match redPieces with
  | [] => set_status st BlackWins
  | _ =>
      match blackPieces with
      | [] => set_status st RedWins
      | _ =>
          match getAllValidMoves (board st) (currentPlayer st) with
          | [] => set_status st (match currentPlayer st with
                                 | Player.Red => BlackWins
                                 | Player.Black => RedWins
                                 end)
          | _ => st
          end
      end
  end.

(** [switchTurn]; the call of [makeAIMove] runs up to its [await] and
    leaves one suspended continuation. *)
Definition switchTurn (st : GameState) : GameState :=
  let st1 := set_currentPlayer st (match currentPlayer st with
                                   | Player.Red => Player.Black
                                   | Player.Black => Player.Red
                                   end) in
  let st2 := checkGameOver st1 in
  if bool_decide (status st2 = Active) && bool_decide (currentPlayer st2 = aiPlayer st2)
  then set_aiPending st2 (S (aiPending st2))
  else st2.

(** [updateVisions]; the unused [pieceMove] object reads [validMoves[0]],
    which never throws. *)
Definition updateVisions (fuel : nat) (st : GameState) : outcome GameState :=
  match selectedPiece st with
  | Some _ =>
      if visionsEnabled st then
        vs ← getFutures fuel (board st) (humanPlayer st) 3 3;
        Ret (set_currentVisions st vs)
      else Ret (set_currentVisions st [])
  | None => Ret (set_currentVisions st [])
  end.

Definition clearSelection (st : GameState) : GameState :=
  set_validMoves (set_selectedPiece st None) [].

(** [selectPiece]: the returned boolean and the new state. *)
Definition selectPiece (fuel : nat) (st : GameState) (row col : Z)
    : outcome (bool * GameState) :=
  if negb (bool_decide (status st = Active)) then Ret (false, st)
  else if negb (bool_decide (currentPlayer st = humanPlayer st)) then Ret (false, st)
  else
    match getPieceAt (board st) row col with
    | Some piece =>
        if bool_decide (player piece = currentPlayer st) then
          let allMoves := getAllValidMoves (board st) (currentPlayer st) in
          let pieceMoves :=
            List.filter (fun m => Z.eqb (fromRow m) row && Z.eqb (fromCol m) col) allMoves in
          match pieceMoves with
          | [] => Ret (false, clearSelection st)
          | _ =>
              let st1 := set_validMoves (set_selectedPiece st (Some (row, col)))
                                        (map move pieceMoves) in
              st2 ← (if visionsEnabled st1 then updateVisions fuel st1 else Ret st1);
              Ret (true, st2)
          end
        else Ret (false, clearSelection st)
    | None => Ret (false, clearSelection st)
    end.

(** The optional [captured] field of a record for [move]. *)
Definition capturedOf (move : Move.t) : option (option Z * option Z) :=
  match Move.type move, Move.capturedRow move with
  | MoveType.Capture, Some _ => Some (Move.capturedRow move, Move.capturedCol move)
  | _, _ => None
  end.

(** [movedPiece && !wasKing && movedPiece.type === PieceType.King] *)
Definition promoted (wasKing : bool) (movedPiece : option Piece) : bool :=
  match movedPiece with
  | Some mp => negb wasKing && bool_decide (type mp = PieceType.King)
  | None => false
  end.

(** The end of [executeMove] when the turn passes. *)
Definition endTurn (st : GameState) : GameState :=
  switchTurn (set_currentVisions (clearSelection st) []).

Definition executeMove (fuel : nat) (st : GameState) (fromRow fromCol : Z) (move : Move.t)
    : outcome GameState :=
  match getPieceAt (board st) fromRow fromCol with
  | None => Ret st
  | Some piece =>
      let wasKing := bool_decide (type piece = PieceType.King) in
      nb ← Move.execute (board st) fromRow fromCol move;
      let record :=
        mkMoveRecord (currentPlayer st) (fromRow, fromCol) (Move.toRow move, Move.toCol move)
          (capturedOf move) (promoted wasKing (getPieceAt nb (Move.toRow move) (Move.toCol move))) in
      let st1 := set_moveHistory (set_board st nb) (moveHistory st ++ [record]) in
      if isCapture move then
        chains ← getCaptureChains nb (Move.toRow move) (Move.toCol move);
        if existsb (fun c => negb (Nat.eqb (length c) 0)) chains then
          Ret (set_validMoves
                 (set_selectedPiece st1 (Some (Move.toRow move, Move.toCol move)))
                 (List.filter isCapture (getValidMoves nb (Move.toRow move) (Move.toCol move))))
        else Ret (endTurn st1)
      else Ret (endTurn st1)
  end.

(** [makeMove]: the returned boolean and the new state. *)
Definition makeMove (fuel : nat) (st : GameState) (toRow toCol : Z)
    : outcome (bool * GameState) :=
  match selectedPiece st with
  | None => Ret (false, st)
  | Some (sr, sc) =>
      if negb (bool_decide (status st = Active)) then Ret (false, st)
      else if negb (bool_decide (currentPlayer st = humanPlayer st)) then Ret (false, st)
      else
        match List.find (fun m => Z.eqb (Move.toRow m) toRow && Z.eqb (Move.toCol m) toCol)
                        (validMoves st) with
        | None => Ret (false, st)
        | Some m =>
            st' ← executeMove fuel (set_lastAIMove st None) sr sc m;
            Ret (true, st')
        end
  end.

(** The [while (moreCapturesLoop)] loop of [makeAIMove]: the first capture
    of the piece at [currentPos] is played on the game board itself and
    recorded, until the piece has none.  [n] bounds the iterations. *)
Fixpoint aiJumpLoop (n : nat) (ai : Player.t) (b : Board) (currentPos : Z * Z)
    (hist : list MoveRecord) : outcome (Board * list MoveRecord * (Z * Z)) :=
  match n with
  | O => OutOfFuel
  | S n' =>
      match List.filter isCapture (getValidMoves b currentPos.1 currentPos.2) with
      | [] => Ret (b, hist, currentPos)
      | nextCapture :: _ =>
          nb ← Move.execute b currentPos.1 currentPos.2 nextCapture;
          let to' := (Move.toRow nextCapture, Move.toCol nextCapture) in
          aiJumpLoop n' ai nb to'
            (hist ++ [mkMoveRecord ai currentPos to'
                        (Some (Move.capturedRow nextCapture, Move.capturedCol nextCapture))
                        false])
      end
  end.

(** Every jump removes a piece of the board, so 65 iterations are never
    exhausted. *)
Definition jumpFuel : nat := 65.

(** The part of [makeAIMove] after the [await]. *)
Definition makeAIMoveResume (fuel : nat) (st : GameState) : outcome GameState :=
  result ← Minimax.findBestMove fuel (board st) (aiPlayer st) (aiDepth st);
  match result with
  | Some r =>
      let m := sr_move r in
      let wasKing :=
        match getPieceAt (board st) (sr_fromRow r) (sr_fromCol r) with
        | Some piece => bool_decide (type piece = PieceType.King)
        | None => false
        end in
      nb ← Move.execute (board st) (sr_fromRow r) (sr_fromCol r) m;
      let record :=
        mkMoveRecord (aiPlayer st) (sr_fromRow r, sr_fromCol r) (Move.toRow m, Move.toCol m)
          (capturedOf m) (promoted wasKing (getPieceAt nb (Move.toRow m) (Move.toCol m))) in
      let hist := moveHistory st ++ [record] in
      res ← (if isCapture m
             then aiJumpLoop jumpFuel (aiPlayer st) nb (Move.toRow m, Move.toCol m) hist
             else Ret (nb, hist, (Move.toRow m, Move.toCol m)));
      let '(b2, hist2, finalPos) := res in
      Ret (switchTurn (set_lastAIMove (set_moveHistory (set_board st b2) hist2) (Some finalPos)))
  | None => Ret (checkGameOver st)
  end.

Definition toggleVisions (fuel : nat) (st : GameState) : outcome GameState :=
  let st1 := set_visionsEnabled st (negb (visionsEnabled st)) in
  if negb (visionsEnabled st1) then Ret (set_currentVisions st1 [])
  else
    match selectedPiece st1 with
    | Some _ => updateVisions fuel st1
    | None => Ret st1
    end.

Definition newGame (st : GameState) : GameState :=
  mkGameState createInitialBoard Player.Red Active None [] [] (humanPlayer st)
    (aiPlayer st) (aiDepth st) (visionsEnabled st) [] None (aiPending st).

Definition startWithPlayer (st : GameState) (humanGoesFirst : bool) : GameState :=
  let st1 := set_players st (if humanGoesFirst then Player.Red else Player.Black)
                            (if humanGoesFirst then Player.Black else Player.Red) in
  let st2 := newGame st1 in
  if bool_decide (currentPlayer st2 = aiPlayer st2)
  then set_aiPending st2 (S (aiPending st2))
  else st2.

Definition start (st : GameState) : GameState :=
  if bool_decide (currentPlayer st = aiPlayer st) && bool_decide (status st = Active)
  then set_aiPending st (S (aiPending st))
  else st.
End Game.

(* ------------------------------------------------------------------ *)
(** ** The renderer's game logic ([Renderer] in [src/main.ts]) *)

Module Renderer.
Import MoveValidator Precog Game.

(** [Renderer.getCaptureMoves]: the four diagonal jumps, for any rank. *)
Definition getCaptureMoves (b : Board) (row col : Z) (pl : Player.t) : list Move.t :=
  match getPieceAt b row col with
  | Some piece =>
      if bool_decide (player piece = pl) then
        flat_map (fun '(dr, dc) =>
                    let jumpedRow := row + dr in
                    let jumpedCol := col + dc in
                    let landRow := row + 2 * dr in
                    let landCol := col + 2 * dc in
                    if (landRow <? 0) || (8 <=? landRow) || (landCol <? 0) || (8 <=? landCol)
                    then []
                    else
                      match getPieceAt b jumpedRow jumpedCol, getPieceAt b landRow landCol with
                      | Some jumpedPiece, None =>
                          if bool_decide (player jumpedPiece <> pl)
                          then [Move.mk landRow landCol MoveType.Capture
                                  (Some jumpedRow) (Some jumpedCol)]
                          else []
                      | _, _ => []
                      end)
                 [(-1, -1); (-1, 1); (1, -1); (1, 1)]
      else []
  | None => []
  end.

Definition getAllCaptureMoves (b : Board) (pl : Player.t) : list Move.t :=
  flat_map (fun '(_, row, col) => getCaptureMoves b row col pl) (getPieces b pl).

(** The [threatenedPieces] of [renderThreats]. *)
Definition threatenedPieces (st : GameState) : list (Piece * Z * Z) :=
  let opponentMoves := getAllCaptureMoves (board st) (aiPlayer st) in
  List.filter (fun '(_, row, col) =>
                 existsb (fun m => bool_decide (Move.capturedRow m = Some row) &&
                                   bool_decide (Move.capturedCol m = Some col))
                         opponentMoves)
              (getPieces (board st) (humanPlayer st)).

(** The [threats] list of [renderThreats]: (level, message) pairs. *)
Definition threats (st : GameState) : list (jsstring * jsstring) :=
  if negb (bool_decide (status st = Active)) then [(lit "safe", lit "Game Over")]
  else if bool_decide (currentPlayer st = aiPlayer st) then
    [(lit "warning", lit "AI is thinking...")]
  else
    let tp := threatenedPieces st in
    let t1 := if (0 <? Z.of_nat (length tp))
              then [(lit "danger", numToString (Z.of_nat (length tp)) ++ lit " piece(s) in danger!")]
              else [] in
    let playerCount := Z.of_nat (length (getPieces (board st) (humanPlayer st))) in
    let opponentCount := Z.of_nat (length (getPieces (board st) (aiPlayer st))) in
    let t2 := if opponentCount <? playerCount
              then [(lit "safe", lit "Advantage: +" ++ numToString (playerCount - opponentCount)
                                   ++ lit " pieces")]
              else if playerCount <? opponentCount
              then [(lit "warning", lit "Disadvantage: " ++ numToString (playerCount - opponentCount)
                                      ++ lit " pieces")]
              else [] in
    match t1 ++ t2 with
    | [] => [(lit "safe", lit "No immediate threats detected")]
    | ts => ts
    end.

Definition getSquareName (row col : Z) : jsstring :=
  fromCharCode (97 + col) ++ numToString (8 - row).

Definition getMoveNotation (m : MoveRecord) : jsstring :=
  let fromSquare := getSquareName (from m).1 (from m).2 in
  let toSquare := getSquareName (to m).1 (to m).2 in
  let notation :=
    match captured m with
    | Some _ => fromSquare ++ lit "x" ++ toSquare
    | None => fromSquare ++ lit "-" ++ toSquare
    end in
  if wasPromotion m then notation ++ lit " (K)" else notation.

(** The items of [renderHistory]: move number, player name and notation;
    [None] for the placeholder of an empty history. *)
Definition historyItems (moveHistory : list MoveRecord) : option (list (Z * jsstring * jsstring)) :=
  match moveHistory with
  | [] => None
  | _ =>
      let recentMoves := rev (sliceFrom moveHistory (-10)) in
      Some (imap (fun index m =>
                    (Z.of_nat (length moveHistory) - Z.of_nat index,
                     match mr_player m with Player.Red => lit "Red" | Player.Black => lit "Black" end,
                     getMoveNotation m))
                 recentMoves)
  end.

(** The user's actions, as wired by the renderer and [main.ts], and the
    timer of a suspended [makeAIMove]. *)
Inductive event :=
| SquareClick (row col : Z)
| StartGame (humanGoesFirst : bool)
| PlayAgain
| ToggleVisions
| AITimer.

Definition handleSquareClick (fuel : nat) (st : GameState) (row col : Z) : outcome GameState :=
  if existsb (fun m => Z.eqb (Move.toRow m) row && Z.eqb (Move.toCol m) col) (validMoves st)
  then r ← makeMove fuel st row col; Ret r.2
  else r ← selectPiece fuel st row col; Ret r.2.

Definition step (fuel : nat) (st : GameState) (ev : event) : outcome GameState :=
  match ev with
  | SquareClick row col => handleSquareClick fuel st row col
  | StartGame h => Ret (startWithPlayer st h)
  | PlayAgain => Ret (newGame st)
  | ToggleVisions => toggleVisions fuel st
  | AITimer =>
      match aiPending st with
      | O => Ret st
      | S k => makeAIMoveResume fuel (set_aiPending st k)
      end
  end.

Fixpoint run (fuel : nat) (st : GameState) (evs : list event) : outcome GameState :=
  match evs with
  | [] => Ret st
  | ev :: rest => st' ← step fuel st ev; run fuel st' rest
  end.
End Renderer.

(* ------------------------------------------------------------------ *)
(** ** Vocabulary of the further properties *)

Module Spec2.
Import MoveValidator Evaluator Precog Game.

(** The full-minimax value of the root move [pm]. *)
Definition childScore (b : Board) (pl : Player.t) (n : nat) (pm : PieceMove) : outcome ext :=
  nb ← Move.execute (clone b) (fromRow pm) (fromCol pm) (move pm);
  FullSearch.minimaxFull nb n false pl.

(** A sequence of legal moves played on one board in place, the sides
    alternating; the last index is the side to move at the end. *)
Inductive playout : Board -> Player.t -> list PieceMove -> Board -> Player.t -> Prop :=
| playout_nil b p : playout b p [] b p
| playout_cons b p pm rest nb b' p' :
    In pm (getAllValidMoves b p) ->
    Move.execute b (fromRow pm) (fromCol pm) (move pm) = Ret nb ->
    playout nb (opponentOf p) rest b' p' ->
    playout b p (pm :: rest) b' p'.

(** The outlooks of [describeVision], from worst to best. *)
Definition outlookScale : list jsstring :=
  [lit "Defeat looms"; lit "Danger approaches"; lit "Caution advised";
   lit "The future is unclear"; lit "Slight advantage ahead";
   lit "A promising future"; lit "Victory is certain"].

Fixpoint indexOf (d : jsstring) (l : list jsstring) : nat :=
  match l with
  | [] => O
  | s :: l' => if bool_decide (s = d) then O else S (indexOf d l')
  end.

Fixpoint sortedDesc (l : list FutureVision) : bool :=
  match l with
  | x :: ((y :: _) as t) => ext_le (evaluation y) (evaluation x) && sortedDesc t
  | _ => true
  end.
End Spec2.

(* ------------------------------------------------------------------ *)
(** ** Concrete positions and games used as examples *)

Module Demo.
Import MoveValidator Game Renderer.

(** Red to jump twice: (2,1) over (3,2) to (4,3), then over (5,4). *)
Definition demoBoard : Board := board_of [(2, 1, rR); (3, 2, bR); (5, 4, bR)].
Definition demoJump : Move.t := Move.mk 4 3 MoveType.Capture (Some 3) (Some 2).
Definition demoMove : PieceMove := mkPieceMove 2 1 demoJump.
Definition demoResult : SearchResult := mkSearchResult 2 1 demoJump (Fin 9).

(** A game with the human playing Red, the AI searching one ply, on
    [demoBoard]. *)
Definition demoGame : GameState := set_board (init Player.Red 1) demoBoard.

(** The state [selectPiece] leaves after a click on (2, 1) of [demoGame]. *)
Definition demoSelected : GameState :=
  match selectPiece 3 demoGame 2 1 with Ret (_, s) => s | _ => demoGame end.

(** The human chooses Black, so the AI (Red) opens: one call suspended. *)
Definition aiToOpen : GameState := startWithPlayer (init Player.Black 1) false.

(** The human starts a game, moves, and restarts before the AI has
    answered; two timer ticks follow. *)
Definition raceEvents : list event :=
  [StartGame true; SquareClick 2 1; SquareClick 3 2; StartGame true; AITimer; AITimer].
Definition raceResult : GameState :=
  match run 2 (init Player.Black 1) raceEvents with Ret s => s | _ => init Player.Black 1 end.
End Demo.

(* ================================================================== *)
(** * Lemmas about the board and the validator *)

Module BoardFacts.

Lemma isValidPosition_true r c :
  isValidPosition r c = true <-> 0 <= r < 8 /\ 0 <= c < 8.
Proof.
  unfold isValidPosition. rewrite !andb_true_iff, !Z.leb_le, !Z.ltb_lt. tauto.
Qed.

Lemma rowExists_true r : rowExists r = true <-> 0 <= r < 8.
Proof. unfold rowExists. rewrite andb_true_iff, Z.leb_le, Z.ltb_lt. tauto. Qed.

Lemma getPieceAt_Some b r c p :
  getPieceAt b r c = Some p -> (0 <= r < 8 /\ 0 <= c < 8) /\ b !! (r, c) = Some p.
Proof.
  unfold getPieceAt. destruct (isValidPosition r c) eqn:E; [|discriminate].
  apply isValidPosition_true in E. auto.
Qed.

Lemma in_coords r c : In (r, c) coords <-> 0 <= r < 8 /\ 0 <= c < 8.
Proof.
  unfold coords. rewrite in_flat_map. split.
  - intros [r' [Hr Hc]]. apply in_map_iff in Hr as [nr [<- Hnr]].
    apply in_map_iff in Hc as [c' [Heq Hc]]. injection Heq as <- <-.
    apply in_map_iff in Hc as [nc [<- Hnc]].
    apply in_seq in Hnr, Hnc. lia.
  - intros [Hr Hc]. exists r. split.
    + apply in_map_iff. exists (Z.to_nat r). split; [lia|]. apply in_seq. lia.
    + apply in_map_iff. exists c. split; [reflexivity|].
      apply in_map_iff. exists (Z.to_nat c). split; [lia|]. apply in_seq. lia.
Qed.

Lemma in_getPieces b pl p r c :
  In (p, r, c) (getPieces b pl) <->
  (0 <= r < 8 /\ 0 <= c < 8) /\ b !! (r, c) = Some p /\ player p = pl.
Proof.
  unfold getPieces. rewrite in_flat_map. split.
  - intros [[r' c'] [Hin Hx]].
    destruct (b !! (r', c')) as [q|] eqn:E; [|destruct Hx].
    case_decide; [|destruct Hx]. destruct Hx as [Heq|[]].
    injection Heq as <- <- <-. apply in_coords in Hin. auto.
  - intros [Hrc [Hb Hp]]. exists (r, c). split; [apply in_coords; exact Hrc|].
    rewrite Hb. rewrite decide_True by exact Hp. left. reflexivity.
Qed.

Lemma getPieces_getPieceAt b pl p r c :
  In (p, r, c) (getPieces b pl) -> getPieceAt b r c = Some p /\ player p = pl.
Proof.
  intros H. apply in_getPieces in H as [Hrc [Hb Hp]]. split; [|exact Hp].
  unfold getPieceAt. replace (isValidPosition r c) with true; [exact Hb|].
  symmetry. apply isValidPosition_true. exact Hrc.
Qed.

End BoardFacts.

Module ValidatorFacts.
Import BoardFacts MoveValidator Spec.

Lemma getDirections_unit pl ty dr dc :
  In (dr, dc) (getDirections pl ty) ->
  (dr = 1 \/ dr = -1) /\ (dc = 1 \/ dc = -1).
Proof.
  destruct ty, pl; simpl; intros H;
    repeat (destruct H as [H|H]; [injection H as <- <-; lia|]); destruct H.
Qed.

Lemma getDirections_forward pl dr dc :
  In (dr, dc) (getDirections pl PieceType.Regular) ->
  (pl = Player.Red -> dr = 1) /\ (pl = Player.Black -> dr = -1).
Proof.
  destruct pl; simpl; intros H;
    repeat (destruct H as [H|H]; [injection H as <- <-; split; intros; congruence|]);
    destruct H.
Qed.

Lemma getDirections_king pl dr dc :
  (dr = 1 \/ dr = -1) -> (dc = 1 \/ dc = -1) ->
  In (dr, dc) (getDirections pl PieceType.King).
Proof. intros [-> | ->] [-> | ->]; simpl; tauto. Qed.

Lemma in_getCaptureMoves b r c pl ty m :
  In m (getCaptureMoves b r c pl ty) <->
  exists dr dc,
    In (dr, dc) (getDirections pl ty) /\
    m = Move.mk (r + 2 * dr) (c + 2 * dc) MoveType.Capture (Some (r + dr)) (Some (c + dc)) /\
    isValidPosition (r + 2 * dr) (c + 2 * dc) = true /\
    getPieceAt b (r + 2 * dr) (c + 2 * dc) = None /\
    exists q, getPieceAt b (r + dr) (c + dc) = Some q /\ player q <> pl.
Proof.
  unfold getCaptureMoves. rewrite in_flat_map. split.
  - intros [[dr dc] [Hd Hm]]. exists dr, dc. split; [exact Hd|].
    destruct (isValidPosition (r + 2 * dr) (c + 2 * dc)) eqn:Hv; [|destruct Hm].
    destruct (getPieceAt b (r + dr) (c + dc)) as [q|] eqn:Hq; [|destruct Hm].
    destruct (getPieceAt b (r + 2 * dr) (c + 2 * dc)) eqn:Hl; [destruct Hm|].
    case_bool_decide; [|destruct Hm]. destruct Hm as [<-|[]].
    repeat split; eauto.
  - intros [dr [dc [Hd [-> [Hv [Hl [q [Hq Hp]]]]]]]]. exists (dr, dc).
    split; [exact Hd|]. rewrite Hv, Hq, Hl. simpl.
    rewrite bool_decide_true by exact Hp. left. reflexivity.
Qed.

Lemma in_getRegularMoves b r c pl ty m :
  In m (getRegularMoves b r c pl ty) <->
  exists dr dc,
    In (dr, dc) (getDirections pl ty) /\
    m = Move.mk (r + dr) (c + dc) MoveType.Regular None None /\
    isValidPosition (r + dr) (c + dc) = true /\
    getPieceAt b (r + dr) (c + dc) = None.
Proof.
  unfold getRegularMoves. rewrite in_flat_map. split.
  - intros [[dr dc] [Hd Hm]]. exists dr, dc. split; [exact Hd|].
    destruct (isValidPosition (r + dr) (c + dc)) eqn:Hv; [|destruct Hm].
    case_bool_decide; [|destruct Hm]. destruct Hm as [<-|[]]. auto.
  - intros [dr [dc [Hd [-> [Hv Hl]]]]]. exists (dr, dc).
    split; [exact Hd|]. rewrite Hv. simpl.
    rewrite bool_decide_true by exact Hl. left. reflexivity.
Qed.

Lemma in_getValidMoves b r c m :
  In m (getValidMoves b r c) ->
  exists pc, getPieceAt b r c = Some pc /\
    (In m (getCaptureMoves b r c (player pc) (type pc)) \/
     (getCaptureMoves b r c (player pc) (type pc) = [] /\
      In m (getRegularMoves b r c (player pc) (type pc)))).
Proof.
  unfold getValidMoves. destruct (getPieceAt b r c) as [pc|]; [|intros []].
  intros H. exists pc. split; [reflexivity|].
  destruct (getCaptureMoves b r c (player pc) (type pc)) eqn:E.
  - right. auto.
  - left. exact H.
Qed.

Lemma first_pass b (l : list (Piece * Z * Z)) h acc :
  fold_left (fun '(hasCapture, allMoves) '(piece, row, col) =>
               match getCaptureMoves b row col (player piece) (type piece) with
               | [] => (hasCapture, allMoves)
               | captures =>
                   (true, allMoves ++ map (fun m => mkPieceMove row col m) captures)
               end) l (h, acc)
  = (h || existsb (fun '(pc, r, c) =>
             negb (Nat.eqb (length (getCaptureMoves b r c (player pc) (type pc))) 0)) l,
     acc ++ flat_map (fun '(pc, r, c) =>
              map (mkPieceMove r c) (getCaptureMoves b r c (player pc) (type pc))) l).
Proof.
  revert h acc. induction l as [|[[pc r] c] l IH]; intros h acc; simpl.
  - rewrite orb_false_r, app_nil_r. reflexivity.
  - destruct (getCaptureMoves b r c (player pc) (type pc)) as [|m ms] eqn:E; simpl.
    + rewrite IH. reflexivity.
    + rewrite IH, orb_true_r. simpl. rewrite <- app_assoc. reflexivity.
Qed.

Lemma second_pass b (l : list (Piece * Z * Z)) acc :
  fold_left (fun allMoves '(piece, row, col) =>
               allMoves ++ map (fun m => mkPieceMove row col m)
                 (getRegularMoves b row col (player piece) (type piece))) l acc
  = acc ++ flat_map (fun '(pc, r, c) =>
              map (mkPieceMove r c) (getRegularMoves b r c (player pc) (type pc))) l.
Proof.
  revert acc. induction l as [|[[pc r] c] l IH]; intros acc; simpl.
  - rewrite app_nil_r. reflexivity.
  - rewrite IH, <- app_assoc. reflexivity.
Qed.

Lemma getAllValidMoves_eq b pl :
  getAllValidMoves b pl =
  if anyCapture b pl then allCaptures b pl else allRegular b pl.
Proof.
  unfold getAllValidMoves, anyCapture, allCaptures, allRegular.
  rewrite first_pass. simpl.
  destruct (existsb _ (getPieces b pl)) eqn:E; [reflexivity|].
  rewrite second_pass.
  enough (flat_map (fun '(pc, r, c) =>
            map (mkPieceMove r c) (getCaptureMoves b r c (player pc) (type pc)))
            (getPieces b pl) = []) as -> by reflexivity.
  induction (getPieces b pl) as [|[[pc r] c] l IH]; [reflexivity|].
  simpl in E |- *. apply orb_false_iff in E as [E1 E2].
  destruct (getCaptureMoves b r c (player pc) (type pc)); [|discriminate].
  exact (IH E2).
Qed.

Lemma getCaptureMoves_type b r c pl ty m :
  In m (getCaptureMoves b r c pl ty) -> Move.type m = MoveType.Capture.
Proof. intros H. apply in_getCaptureMoves in H as (dr & dc & _ & -> & _). reflexivity. Qed.

Lemma getRegularMoves_type b r c pl ty m :
  In m (getRegularMoves b r c pl ty) -> Move.type m = MoveType.Regular.
Proof. intros H. apply in_getRegularMoves in H as (dr & dc & _ & -> & _). reflexivity. Qed.

Lemma getCaptureMoves_wf b r c pl ty m :
  In m (getCaptureMoves b r c pl ty) -> move_wellformed b r c pl m.
Proof.
  intros H. apply in_getCaptureMoves in H as (dr & dc & _ & -> & Hv & Hl & Hq).
  unfold move_wellformed; simpl. exists (r + dr), (c + dc).
  repeat split; auto; lia.
Qed.

Lemma getRegularMoves_wf b r c pl ty m :
  In m (getRegularMoves b r c pl ty) -> move_wellformed b r c pl m.
Proof.
  intros H. apply in_getRegularMoves in H as (dr & dc & _ & -> & _).
  unfold move_wellformed; simpl. auto.
Qed.

Lemma in_allCaptures b pl pm :
  In pm (allCaptures b pl) <->
  exists pc, In (pc, fromRow pm, fromCol pm) (getPieces b pl) /\
    In (move pm) (getCaptureMoves b (fromRow pm) (fromCol pm) (player pc) (type pc)).
Proof.
  unfold allCaptures. rewrite in_flat_map. split.
  - intros [[[pc r] c] [Hin Hm]]. apply in_map_iff in Hm as [m [<- Hm]].
    exists pc. simpl. auto.
  - intros [pc [Hin Hm]]. exists (pc, fromRow pm, fromCol pm). split; [exact Hin|].
    apply in_map_iff. exists (move pm). split; [destruct pm; reflexivity|exact Hm].
Qed.

Lemma in_allRegular b pl pm :
  In pm (allRegular b pl) <->
  exists pc, In (pc, fromRow pm, fromCol pm) (getPieces b pl) /\
    In (move pm) (getRegularMoves b (fromRow pm) (fromCol pm) (player pc) (type pc)).
Proof.
  unfold allRegular. rewrite in_flat_map. split.
  - intros [[[pc r] c] [Hin Hm]]. apply in_map_iff in Hm as [m [<- Hm]].
    exists pc. simpl. auto.
  - intros [pc [Hin Hm]]. exists (pc, fromRow pm, fromCol pm). split; [exact Hin|].
    apply in_map_iff. exists (move pm). split; [destruct pm; reflexivity|exact Hm].
Qed.

Lemma in_getAllValidMoves b pl pm :
  In pm (getAllValidMoves b pl) ->
  exists pc, In (pc, fromRow pm, fromCol pm) (getPieces b pl) /\ player pc = pl /\
    (In (move pm) (getCaptureMoves b (fromRow pm) (fromCol pm) pl (type pc)) \/
     In (move pm) (getRegularMoves b (fromRow pm) (fromCol pm) pl (type pc))).
Proof.
  rewrite getAllValidMoves_eq. destruct (anyCapture b pl); intros H.
  - apply in_allCaptures in H as [pc [Hin Hm]].
    pose proof (proj2 (proj2 (proj1 (in_getPieces _ _ _ _ _) Hin))) as Hp.
    exists pc. rewrite Hp in Hm. auto.
  - apply in_allRegular in H as [pc [Hin Hm]].
    pose proof (proj2 (proj2 (proj1 (in_getPieces _ _ _ _ _) Hin))) as Hp.
    exists pc. rewrite Hp in Hm. auto.
Qed.

Lemma anyCapture_true b pl :
  anyCapture b pl = true <->
  exists pc r c, In (pc, r, c) (getPieces b pl) /\
    getCaptureMoves b r c (player pc) (type pc) <> [].
Proof.
  unfold anyCapture. rewrite existsb_exists. split.
  - intros [[[pc r] c] [Hin H]]. exists pc, r, c. split; [exact Hin|].
    intros E. rewrite E in H. discriminate.
  - intros (pc & r & c & Hin & H). exists (pc, r, c). split; [exact Hin|].
    destruct (getCaptureMoves b r c (player pc) (type pc)); [congruence|reflexivity].
Qed.

End ValidatorFacts.

Module ChainFacts.
Import BoardFacts ValidatorFacts MoveValidator Spec.

Lemma clone_lookup b k :
  clone b !! k = if isValidPosition k.1 k.2 then b !! k else None.
Proof.
  unfold clone. destruct (isValidPosition k.1 k.2) eqn:E.
  - destruct (b !! k) as [x|] eqn:Hb.
    + apply map_lookup_filter_Some_2; [exact Hb|exact E].
    + apply map_lookup_filter_None. left. exact Hb.
  - apply map_lookup_filter_None. right. intros x _. simpl. congruence.
Qed.

Lemma getPieceAt_clone b r c : getPieceAt (clone b) r c = getPieceAt b r c.
Proof.
  unfold getPieceAt. destruct (isValidPosition r c) eqn:E; [|reflexivity].
  rewrite clone_lookup. simpl. rewrite E. reflexivity.
Qed.

Lemma getCaptureMoves_clone b r c pl ty :
  getCaptureMoves (clone b) r c pl ty = getCaptureMoves b r c pl ty.
Proof.
  unfold getCaptureMoves. apply flat_map_ext. intros [dr dc].
  rewrite !getPieceAt_clone. reflexivity.
Qed.

Lemma other_player p q : p <> q -> p = Evaluator.opponentOf q.
Proof. destruct p, q; simpl; congruence. Qed.

(** Executing a capture offered by the validator on a copy of the board:
    the in-range cells change only at the source, the jumped square and
    the landing square, where the (possibly promoted) piece now stands. *)
Lemma execute_capture b r c pc m :
  getPieceAt b r c = Some pc ->
  In m (getCaptureMoves b r c (player pc) (type pc)) ->
  exists nb pc',
    Move.execute (clone b) r c m = Ret nb /\
    getPieceAt nb (Move.toRow m) (Move.toCol m) = Some pc' /\
    player pc' = player pc /\
    exists jr jc q,
      b !! (jr, jc) = Some q /\ player q <> player pc /\ 0 <= jr < 8 /\ 0 <= jc < 8 /\
      forall k, isValidPosition k.1 k.2 = true ->
        nb !! k = if decide (k = (Move.toRow m, Move.toCol m)) then Some pc'
                  else if decide (k = (r, c)) then None
                  else if decide (k = (jr, jc)) then None
                  else b !! k.
Proof.
  intros Hpc Hm. apply getPieceAt_Some in Hpc as [Hrc Hb].
  apply in_getCaptureMoves in Hm as (dr & dc & Hd & -> & Hv & Hl & q & Hq & Hqp).
  apply getDirections_unit in Hd as [Hdr Hdc].
  apply getPieceAt_Some in Hq as [Hjrc Hbq].
  pose proof Hv as Hv'. apply isValidPosition_true in Hv'.
  unfold Move.execute, removePiece, movePiece; simpl.
  replace (isValidPosition (r + dr) (c + dc)) with true
    by (symmetry; apply isValidPosition_true; exact Hjrc).
  replace (rowExists r) with true by (symmetry; apply rowExists_true; lia).
  replace (rowExists (r + 2 * dr)) with true by (symmetry; apply rowExists_true; lia).
  simpl.
  rewrite lookup_delete_ne by (intros Heq; injection Heq; lia).
  rewrite clone_lookup. simpl.
  replace (isValidPosition r c) with true by (symmetry; apply isValidPosition_true; exact Hrc).
  rewrite Hb. simpl.
  eexists _, _. split; [reflexivity|]. split.
  - unfold getPieceAt. rewrite Hv. rewrite lookup_insert_eq. reflexivity.
  - split.
    + clear. destruct pc as [pp pt]. destruct pt, pp; simpl;
        repeat match goal with |- context [if ?x then _ else _] => destruct x end;
        reflexivity.
    + exists (r + dr), (c + dc), q. repeat split; try tauto; try lia.
      intros k Hk. destruct (decide (k = (r + 2 * dr, c + 2 * dc))) as [->|Hne1].
      { rewrite lookup_insert_eq. reflexivity. }
      rewrite lookup_insert_ne by congruence.
      destruct (decide (k = (r, c))) as [->|Hne2].
      { rewrite lookup_delete_eq. reflexivity. }
      rewrite lookup_delete_ne by congruence.
      destruct (decide (k = (r + dr, c + dc))) as [->|Hne3].
      { rewrite lookup_delete_eq. reflexivity. }
      rewrite lookup_delete_ne by congruence.
      rewrite clone_lookup. rewrite Hk. reflexivity.
Qed.

Lemma length_flat_map_lt {X Y} (f g : X -> list Y) (l : list X) k :
  (forall x, In x l -> (length (g x) <= length (f x))%nat) ->
  In k l -> (length (g k) < length (f k))%nat ->
  (length (flat_map g l) < length (flat_map f l))%nat.
Proof.
  intros Hle Hk Hlt. induction l as [|x l IH]; [destruct Hk|].
  simpl. rewrite !length_app.
  destruct Hk as [->|Hk].
  - assert (length (flat_map g l) <= length (flat_map f l))%nat.
    { clear IH Hlt. induction l as [|y l IH']; [simpl; lia|].
      simpl. rewrite !length_app.
      pose proof (Hle y (or_intror (or_introl eq_refl))).
      assert (length (flat_map g l) <= length (flat_map f l))%nat.
      { apply IH'. intros z Hz. apply Hle. destruct Hz as [->|Hz]; [left; reflexivity|].
        right; right; exact Hz. }
      lia. }
    lia.
  - pose proof (Hle x (or_introl eq_refl)).
    assert (length (flat_map g l) < length (flat_map f l))%nat.
    { apply IH; [|exact Hk]. intros z Hz. apply Hle. right. exact Hz. }
    lia.
Qed.

Lemma oppCount_capture b r c pc m :
  getPieceAt b r c = Some pc ->
  In m (getCaptureMoves b r c (player pc) (type pc)) ->
  exists nb pc',
    Move.execute (clone b) r c m = Ret nb /\
    getPieceAt nb (Move.toRow m) (Move.toCol m) = Some pc' /\
    player pc' = player pc /\
    (oppCount nb (player pc) < oppCount b (player pc))%nat.
Proof.
  intros Hpc Hm.
  destruct (execute_capture b r c pc m Hpc Hm)
    as (nb & pc' & Hex & Hl & Hp & jr & jc & q & Hbq & Hqp & Hjr & Hjc & Hk).
  exists nb, pc'. repeat split; try assumption.
  unfold oppCount, getPieces.
  apply (length_flat_map_lt _ _ coords (jr, jc)).
  - intros [kr kc] Hin. apply in_coords in Hin.
    assert (Hv : isValidPosition (kr, kc).1 (kr, kc).2 = true)
      by (apply isValidPosition_true; exact Hin).
    rewrite (Hk _ Hv).
    destruct (decide ((kr, kc) = (Move.toRow m, Move.toCol m))).
    { case_decide as Hc; simpl; [|lia]. exfalso. rewrite Hp in Hc.
      destruct (player pc); discriminate. }
    destruct (decide ((kr, kc) = (r, c))); [simpl; lia|].
    destruct (decide ((kr, kc) = (jr, jc))); [simpl; lia|].
    lia.
  - apply in_coords. lia.
  - rewrite (Hk (jr, jc)) by (apply isValidPosition_true; simpl; lia).
    destruct (decide ((jr, jc) = (Move.toRow m, Move.toCol m))) as [Heq|_].
    { exfalso. apply getPieceAt_Some in Hpc as [Hrc Hb].
      apply in_getCaptureMoves in Hm as (dr & dc & _ & -> & Hv & Hl0 & _).
      simpl in Heq. injection Heq as -> ->.
      unfold getPieceAt in Hl0. rewrite Hv, Hbq in Hl0. discriminate. }
    destruct (decide ((jr, jc) = (r, c))) as [Heq|_].
    { exfalso. injection Heq as -> ->. apply getPieceAt_Some in Hpc as [_ Hb].
      rewrite Hb in Hbq. injection Hbq as <-. exact (Hqp eq_refl). }
    rewrite decide_True by reflexivity. rewrite Hbq. simpl.
    rewrite decide_True by (apply other_player; exact Hqp). simpl. lia.
Qed.

Lemma oppCount_le b pl : (oppCount b pl <= 64)%nat.
Proof.
  unfold oppCount, getPieces.
  change 64%nat with (length coords).
  induction coords as [|[kr kc] l IH]; [simpl; lia|].
  simpl. rewrite length_app.
  destruct (b !! (kr, kc)); simpl; [case_decide|]; simpl; lia.
Qed.

Lemma findCaptureChains_total fuel b r c pc cur :
  getPieceAt b r c = Some pc ->
  (oppCount b (player pc) < fuel)%nat ->
  exists res,
    findCaptureChains fuel b r c (player pc) (type pc) cur = Ret res /\
    (cur <> [] \/ getCaptureMoves b r c (player pc) (type pc) <> [] -> res <> []).
Proof.
  revert b r c pc cur. induction fuel as [|f IH]; intros b r c pc cur Hpc Hfuel; [lia|].
  cbn [findCaptureChains]. destruct (getCaptureMoves b r c (player pc) (type pc)) as [|m0 ms] eqn:E.
  - eexists. split; [reflexivity|]. intros [Hcur|Hne]; [|congruence].
    destruct cur; [congruence|discriminate].
  - rewrite <- E.
    assert (Hloop : forall cs, (forall x, In x cs -> In x (getCaptureMoves b r c (player pc) (type pc))) ->
      exists res, captureLoop (fun nb r c nty chain => findCaptureChains f nb r c (player pc) nty chain)
                    b r c (type pc) cur cs = Ret res /\ (cs <> [] -> res <> [])).
    { induction cs as [|x cs IHcs]; intros Hsub.
      - exists []. split; [reflexivity|]. congruence.
      - destruct (oppCount_capture b r c pc x Hpc (Hsub x (or_introl eq_refl)))
          as (nb & pc' & Hex & Hl & Hp & Hlt).
        destruct (IH nb (Move.toRow x) (Move.toCol x) pc' (cur ++ [x]) Hl)
          as (here & Hhere & Hne); [rewrite Hp; lia|].
        destruct IHcs as (others & Hothers & _).
        { intros y Hy. apply Hsub. right. exact Hy. }
        exists (here ++ others). cbn [captureLoop]. unfold mbind, outcome_mbind.
        rewrite Hex. cbn [obind]. rewrite Hl.
        rewrite Hp in Hhere. rewrite Hhere. cbn [obind]. rewrite Hothers. cbn [obind]. split; [reflexivity|].
        intros _. assert (here <> []) by (apply Hne; left; destruct cur; discriminate).
        destruct here; [congruence|discriminate]. }
    destruct (Hloop (getCaptureMoves b r c (player pc) (type pc))) as (res & Hres & Hne);
      [auto|].
    exists res. split; [exact Hres|]. intros _. apply Hne. rewrite E. discriminate.
Qed.

Lemma findCaptureChains_sound fuel b r c pc cur res :
  getPieceAt b r c = Some pc ->
  findCaptureChains fuel b r c (player pc) (type pc) cur = Ret res ->
  forall ch, In ch res ->
  exists suffix b' r' c' pc',
    ch = cur ++ suffix /\ ch <> [] /\
    replays b r c (player pc) (type pc) suffix b' r' c' (type pc') /\
    getPieceAt b' r' c' = Some pc' /\ player pc' = player pc /\
    getCaptureMoves b' r' c' (player pc) (type pc') = [].
Proof.
  revert b r c pc cur res. induction fuel as [|f IH]; intros b r c pc cur res Hpc Hres;
    [discriminate|].
  cbn [findCaptureChains] in Hres.
  destruct (getCaptureMoves b r c (player pc) (type pc)) as [|m0 ms] eqn:E.
  - intros ch Hch. destruct cur as [|x xs]; injection Hres as <-; [destruct Hch|].
    destruct Hch as [<-|[]].
    exists [], b, r, c, pc. rewrite app_nil_r.
    split; [reflexivity|]. split; [discriminate|]. split; [apply replays_nil|].
    split; [exact Hpc|]. split; [reflexivity|]. exact E.
  - rewrite <- E in Hres.
    assert (Hloop : forall cs res, (forall x, In x cs -> In x (getCaptureMoves b r c (player pc) (type pc))) ->
      captureLoop (fun nb r c nty chain => findCaptureChains f nb r c (player pc) nty chain)
        b r c (type pc) cur cs = Ret res ->
      forall ch, In ch res ->
      exists suffix b' r' c' pc',
        ch = cur ++ suffix /\ ch <> [] /\
        replays b r c (player pc) (type pc) suffix b' r' c' (type pc') /\
        getPieceAt b' r' c' = Some pc' /\ player pc' = player pc /\
        getCaptureMoves b' r' c' (player pc) (type pc') = []).
    { induction cs as [|x cs IHcs]; intros res0 Hsub Hres0 ch Hch.
      - injection Hres0 as <-. destruct Hch.
      - pose proof (Hsub x (or_introl eq_refl)) as Hx.
        destruct (oppCount_capture b r c pc x Hpc Hx) as (nb & pc' & Hex & Hl & Hp & _).
        cbn [captureLoop] in Hres0. unfold mbind, outcome_mbind in Hres0.
        rewrite Hex in Hres0. cbn [obind] in Hres0. rewrite Hl in Hres0.
        rewrite <- Hp in Hres0 at 1.
        destruct (findCaptureChains f nb (Move.toRow x) (Move.toCol x) (player pc') (type pc')
                    (cur ++ [x])) as [here| |] eqn:Hhere; try discriminate.
        cbn [obind] in Hres0.
        destruct (captureLoop _ b r c (type pc) cur cs) as [others| |] eqn:Hothers;
          try discriminate.
        cbn [obind] in Hres0. injection Hres0 as <-.
        apply in_app_or in Hch as [Hch|Hch].
        + destruct (IH _ _ _ _ _ _ Hl Hhere ch Hch)
            as (suffix & b' & r' & c' & pc'' & -> & Hne & Hrep & Hl' & Hp' & Hcap).
          exists (x :: suffix), b', r', c', pc''.
          split; [rewrite <- app_assoc; reflexivity|].
          split; [exact Hne|].
          split; [eapply replays_cons; [exact Hx|exact Hex|exact Hl|]; rewrite <- Hp; exact Hrep|].
          split; [exact Hl'|]. split; [congruence|].
          rewrite <- Hp. exact Hcap.
        + eapply IHcs; [|reflexivity|exact Hch].
          intros y Hy. apply Hsub. right. exact Hy. }
    intros ch Hch. eapply Hloop; [intros y Hy; exact Hy|exact Hres|exact Hch].
Qed.

Lemma replays_chain_wf b r c pl ty ch b' r' c' ty' :
  replays b r c pl ty ch b' r' c' ty' -> chain_wf b r c pl ch.
Proof.
  induction 1 as [|b r c pl ty m rest nb pc b' r' c' ty' Hin Hex Hl Hrep IH].
  - apply chain_wf_nil.
  - eapply chain_wf_cons; [| |exact Hex|exact IH].
    + eapply getCaptureMoves_type; exact Hin.
    + eapply getCaptureMoves_wf; exact Hin.
Qed.

End ChainFacts.

Module SearchFacts.
Import BoardFacts ValidatorFacts MoveValidator Evaluator Spec Minimax FullSearch.

(** Case analysis on extended integers, down to integer comparisons. *)
Ltac ext_crush :=
  intros; repeat match goal with x : ext |- _ => destruct x end;
  unfold clamp, emax, emin, ext_lt in *; cbn [ext_le negb] in *;
  repeat (match goal with
          | |- context [Z.leb ?a ?b] => destruct (Z.leb_spec a b)
          | H : context [Z.leb ?a ?b] |- _ => destruct (Z.leb_spec a b)
          end; cbn [ext_le negb] in *);
  try discriminate; try reflexivity; try (f_equal; lia); try lia.

Lemma emax_assoc x y z : emax (emax x y) z = emax x (emax y z).
Proof. ext_crush. Qed.

Lemma emin_assoc x y z : emin (emin x y) z = emin x (emin y z).
Proof. ext_crush. Qed.

Lemma emax_NegInf_l x : emax NegInf x = x.
Proof. ext_crush. Qed.

Lemma emax_NegInf_r x : emax x NegInf = x.
Proof. ext_crush. Qed.

Lemma emin_PosInf_r x : emin x PosInf = x.
Proof. ext_crush. Qed.

Lemma emax_lt_true x y : ext_lt x y = true -> emax x y = y.
Proof. ext_crush. Qed.

Lemma emax_lt_false x y : ext_lt x y = false -> emax x y = x.
Proof. ext_crush. Qed.

Lemma clamp_NegInf_PosInf x : clamp NegInf PosInf x = x.
Proof. ext_crush. Qed.

Lemma clamp_PosInf a x : clamp a PosInf x = emax a x.
Proof. ext_crush. Qed.

Lemma clamp_emax a b x y : clamp a b (emax x y) = emax (clamp a b x) (clamp a b y).
Proof. ext_crush. Qed.

Lemma clamp_emin a b x y : clamp a b (emin x y) = emin (clamp a b x) (clamp a b y).
Proof. ext_crush. Qed.

(** An empty window forgets the score. *)
Lemma clamp_const a b x : ext_le b a = true -> clamp a b x = a.
Proof. ext_crush. Qed.

(** Raising alpha to the best score so far loses nothing once that score
    is folded back in. *)
Lemma clamp_max_step a b acc x :
  ext_le b (emax a acc) = false ->
  emax (clamp a b acc) (clamp a b x) = emax (clamp a b acc) (clamp (emax a acc) b x).
Proof. ext_crush. Qed.

Lemma clamp_min_step a b acc x :
  ext_le (emin b acc) a = false ->
  emin (clamp a b acc) (clamp a b x) = emin (clamp a b acc) (clamp a (emin b acc) x).
Proof. ext_crush. Qed.

(** After a cutoff the remaining children cannot change the clamped value. *)
Lemma clamp_max_cut a b y z :
  ext_le b (emax a y) = true -> emax (clamp a b y) (clamp a b z) = clamp a b y.
Proof. ext_crush. Qed.

Lemma clamp_min_cut a b y z :
  ext_le (emin b y) a = true -> emin (clamp a b y) (clamp a b z) = clamp a b y.
Proof. ext_crush. Qed.

(** [Move.execute] does not throw when the source row and the destination
    row are in range. *)
Lemma execute_in_range b fr fc m :
  0 <= fr < 8 -> 0 <= Move.toRow m < 8 -> exists nb, Move.execute b fr fc m = Ret nb.
Proof.
  intros Hf Ht. unfold Move.execute, movePiece.
  rewrite (proj2 (rowExists_true fr)) by exact Hf. cbn [negb].
  match goal with |- context [?bb !! (fr, fc)] => destruct (bb !! (fr, fc)) end;
    [|eexists; reflexivity].
  rewrite (proj2 (rowExists_true _)) by exact Ht. eexists. reflexivity.
Qed.

Lemma execute_generated b pl pm :
  In pm (getAllValidMoves b pl) ->
  exists nb, Move.execute (clone b) (fromRow pm) (fromCol pm) (move pm) = Ret nb.
Proof.
  intros H. apply in_getAllValidMoves in H as (pc & Hin & _ & Hm).
  apply in_getPieces in Hin as [Hrc _]. apply execute_in_range; [lia|].
  destruct Hm as [Hm|Hm];
    [apply in_getCaptureMoves in Hm as (dr & dc & _ & -> & Hv & _)
    |apply in_getRegularMoves in Hm as (dr & dc & _ & -> & Hv & _)];
    apply isValidPosition_true in Hv; simpl; lia.
Qed.

Lemma foldChildren_total op rec b moves :
  (forall pm, In pm moves -> exists nb t,
     Move.execute (clone b) (fromRow pm) (fromCol pm) (move pm) = Ret nb /\ rec nb = Ret t) ->
  forall acc, exists T, foldChildren op rec b moves acc = Ret T.
Proof.
  induction moves as [|pm ms IH]; intros Hch acc; [exists acc; reflexivity|].
  destruct (Hch pm (or_introl eq_refl)) as (nb & t & Hex & Ht).
  cbn [foldChildren]. unfold mbind, outcome_mbind. rewrite Hex. cbn [obind].
  rewrite Ht. cbn [obind]. apply IH. intros pm' Hin. apply Hch. right. exact Hin.
Qed.

Lemma foldChildren_max_form rec b moves acc T :
  foldChildren emax rec b moves acc = Ret T -> exists R, T = emax acc R.
Proof.
  revert acc. induction moves as [|pm ms IH]; intros acc H; cbn [foldChildren] in H.
  - injection H as <-. exists NegInf. symmetry. apply emax_NegInf_r.
  - unfold mbind, outcome_mbind in H.
    destruct (Move.execute (clone b) (fromRow pm) (fromCol pm) (move pm)) as [nb| |];
      cbn [obind] in H; try discriminate.
    destruct (rec nb) as [v| |]; cbn [obind] in H; try discriminate.
    apply IH in H as [R ->]. exists (emax v R). apply emax_assoc.
Qed.

Lemma foldChildren_min_form rec b moves acc T :
  foldChildren emin rec b moves acc = Ret T -> exists R, T = emin acc R.
Proof.
  revert acc. induction moves as [|pm ms IH]; intros acc H; cbn [foldChildren] in H.
  - injection H as <-. exists PosInf. symmetry. apply emin_PosInf_r.
  - unfold mbind, outcome_mbind in H.
    destruct (Move.execute (clone b) (fromRow pm) (fromCol pm) (move pm)) as [nb| |];
      cbn [obind] in H; try discriminate.
    destruct (rec nb) as [v| |]; cbn [obind] in H; try discriminate.
    apply IH in H as [R ->]. exists (emin v R). apply emin_assoc.
Qed.

(** The maximizing loop: with [alpha] the original bound [a0] raised by
    the best score so far, the pruned loop and the full fold agree on
    the original window [a0, b0]. *)
Lemma maxLoop_clamp rec recF b a0 b0 moves :
  (forall pm, In pm moves -> exists nb t,
     Move.execute (clone b) (fromRow pm) (fromCol pm) (move pm) = Ret nb /\
     recF nb = Ret t /\
     forall a' b', exists v, rec nb a' b' = Ret v /\ clamp a' b' v = clamp a' b' t) ->
  forall alpha acc accF,
  alpha = emax a0 acc ->
  ext_le b0 a0 = true \/ ext_le b0 alpha = false ->
  clamp a0 b0 acc = clamp a0 b0 accF ->
  exists v T, maxLoop rec b moves alpha b0 acc = Ret v /\
    foldChildren emax recF b moves accF = Ret T /\ clamp a0 b0 v = clamp a0 b0 T.
Proof.
  induction moves as [|pm ms IH]; intros Hch alpha acc accF Ha Hd Hc.
  - exists acc, accF. auto.
  - assert (Hrest : forall pm', In pm' ms -> exists nb t,
              Move.execute (clone b) (fromRow pm') (fromCol pm') (move pm') = Ret nb /\
              recF nb = Ret t /\
              forall a' b', exists v, rec nb a' b' = Ret v /\ clamp a' b' v = clamp a' b' t)
      by (intros pm' Hin; apply Hch; right; exact Hin).
    destruct (Hch pm (or_introl eq_refl)) as (nb & t & Hex & Ht & Hv).
    destruct (Hv alpha b0) as (s & Hs & Hcs).
    cbn [maxLoop foldChildren]. unfold mbind, outcome_mbind.
    rewrite Hex. cbn [obind]. rewrite Hs, Ht. cbn [obind].
    assert (E : clamp a0 b0 (emax acc s) = clamp a0 b0 (emax accF t)).
    { destruct Hd as [Hd|Hd].
      - rewrite !(clamp_const a0 b0) by exact Hd. reflexivity.
      - subst alpha. rewrite !clamp_emax, <- Hc.
        rewrite (clamp_max_step a0 b0 acc s) by exact Hd.
        rewrite (clamp_max_step a0 b0 acc t) by exact Hd.
        rewrite Hcs. reflexivity. }
    destruct (ext_le b0 (emax alpha s)) eqn:Hbr.
    + destruct (foldChildren_total emax recF b ms) with (acc := emax accF t) as [T HT].
      { intros pm' Hin. destruct (Hrest pm' Hin) as (nb' & t' & H1 & H2 & _). eauto. }
      exists (emax acc s), T. split; [reflexivity|]. split; [exact HT|].
      destruct (foldChildren_max_form _ _ _ _ _ HT) as [R ->].
      rewrite (clamp_emax a0 b0 (emax accF t) R), <- E. rewrite clamp_max_cut; [reflexivity|].
      rewrite <- emax_assoc, <- Ha. exact Hbr.
    + apply IH; [exact Hrest| |right; exact Hbr|exact E].
      rewrite Ha. apply emax_assoc.
Qed.

(** The minimizing loop, dually, with [beta] the original bound [b0]
    lowered by the best score so far. *)
Lemma minLoop_clamp rec recF b a0 b0 moves :
  (forall pm, In pm moves -> exists nb t,
     Move.execute (clone b) (fromRow pm) (fromCol pm) (move pm) = Ret nb /\
     recF nb = Ret t /\
     forall a' b', exists v, rec nb a' b' = Ret v /\ clamp a' b' v = clamp a' b' t) ->
  forall beta acc accF,
  beta = emin b0 acc ->
  ext_le b0 a0 = true \/ ext_le beta a0 = false ->
  clamp a0 b0 acc = clamp a0 b0 accF ->
  exists v T, minLoop rec b moves a0 beta acc = Ret v /\
    foldChildren emin recF b moves accF = Ret T /\ clamp a0 b0 v = clamp a0 b0 T.
Proof.
  induction moves as [|pm ms IH]; intros Hch beta acc accF Hb Hd Hc.
  - exists acc, accF. auto.
  - assert (Hrest : forall pm', In pm' ms -> exists nb t,
              Move.execute (clone b) (fromRow pm') (fromCol pm') (move pm') = Ret nb /\
              recF nb = Ret t /\
              forall a' b', exists v, rec nb a' b' = Ret v /\ clamp a' b' v = clamp a' b' t)
      by (intros pm' Hin; apply Hch; right; exact Hin).
    destruct (Hch pm (or_introl eq_refl)) as (nb & t & Hex & Ht & Hv).
    destruct (Hv a0 beta) as (s & Hs & Hcs).
    cbn [minLoop foldChildren]. unfold mbind, outcome_mbind.
    rewrite Hex. cbn [obind]. rewrite Hs, Ht. cbn [obind].
    assert (E : clamp a0 b0 (emin acc s) = clamp a0 b0 (emin accF t)).
    { destruct Hd as [Hd|Hd].
      - rewrite !(clamp_const a0 b0) by exact Hd. reflexivity.
      - subst beta. rewrite !clamp_emin, <- Hc.
        rewrite (clamp_min_step a0 b0 acc s) by exact Hd.
        rewrite (clamp_min_step a0 b0 acc t) by exact Hd.
        rewrite Hcs. reflexivity. }
    destruct (ext_le (emin beta s) a0) eqn:Hbr.
    + destruct (foldChildren_total emin recF b ms) with (acc := emin accF t) as [T HT].
      { intros pm' Hin. destruct (Hrest pm' Hin) as (nb' & t' & H1 & H2 & _). eauto. }
      exists (emin acc s), T. split; [reflexivity|]. split; [exact HT|].
      destruct (foldChildren_min_form _ _ _ _ _ HT) as [R ->].
      rewrite (clamp_emin a0 b0 (emin accF t) R), <- E. rewrite clamp_min_cut; [reflexivity|].
      rewrite <- emin_assoc, <- Hb. exact Hbr.
    + apply IH; [exact Hrest| |right; exact Hbr|exact E].
      rewrite Hb. apply emin_assoc.
Qed.

(** Fail-soft alpha-beta: with enough stack, [minimax] at depth [n]
    returns, for any window, a score with the clamp of the exact value. *)
Lemma minimax_clamp pl :
  forall n fuel b isMax a0 b0, (n < fuel)%nat ->
  exists v t, minimax fuel b (Z.of_nat n) a0 b0 isMax pl = Ret v /\
    minimaxFull b n isMax pl = Ret t /\ clamp a0 b0 v = clamp a0 b0 t.
Proof.
  induction n as [|n IH]; intros fuel b isMax a0 b0 Hf;
    (destruct fuel as [|f]; [lia|]).
  - exists (Fin (evaluate b pl)), (Fin (evaluate b pl)). auto.
  - cbn [minimax minimaxFull].
    rewrite (proj2 (Z.eqb_neq (Z.of_nat (S n)) 0)) by lia.
    replace (Z.of_nat (S n) - 1) with (Z.of_nat n) by lia.
    destruct (getAllValidMoves b (if isMax then pl else opponentOf pl)) as [|pm ms] eqn:Hm.
    + eexists _, _. auto.
    + assert (Hkids : forall m', forall pm', In pm' (pm :: ms) -> exists nb t,
                Move.execute (clone b) (fromRow pm') (fromCol pm') (move pm') = Ret nb /\
                minimaxFull nb n m' pl = Ret t /\
                forall a' b', exists v, minimax f nb (Z.of_nat n) a' b' m' pl = Ret v /\
                  clamp a' b' v = clamp a' b' t).
      { intros m' pm' Hin. rewrite <- Hm in Hin.
        destruct (execute_generated _ _ _ Hin) as [nb Hnb].
        destruct (IH f nb m' NegInf NegInf ltac:(lia)) as (_ & t & _ & Ht & _).
        exists nb, t. split; [exact Hnb|]. split; [exact Ht|].
        intros a' b'. destruct (IH f nb m' a' b' ltac:(lia)) as (v & t' & Hv & Ht' & Hc).
        rewrite Ht in Ht'. injection Ht' as <-. eauto. }
      destruct isMax.
      * destruct (maxLoop_clamp (fun nb a bt => minimax f nb (Z.of_nat n) a bt false pl)
                    (fun nb => minimaxFull nb n false pl) b a0 b0 (pm :: ms) (Hkids false)
                    a0 NegInf NegInf) as (v & T & H1 & H2 & H3).
        { symmetry. apply emax_NegInf_r. }
        { destruct (ext_le b0 a0); auto. }
        { reflexivity. }
        eauto.
      * destruct (minLoop_clamp (fun nb a bt => minimax f nb (Z.of_nat n) a bt true pl)
                    (fun nb => minimaxFull nb n true pl) b a0 b0 (pm :: ms) (Hkids true)
                    b0 PosInf PosInf) as (v & T & H1 & H2 & H3).
        { symmetry. apply emin_PosInf_r. }
        { destruct (ext_le b0 a0) eqn:E; [left; reflexivity|right].
          destruct b0, a0; cbn in *; auto; lia. }
        { reflexivity. }
        eauto.
Qed.

(** The root's children: the move executes, and the search one ply down
    agrees with the full search on any window [alpha, +Infinity]. *)
Lemma root_children fuel b pl depth :
  1 <= depth -> (Z.to_nat depth <= fuel)%nat ->
  forall pm, In pm (getAllValidMoves b pl) -> exists nb t,
    Move.execute (clone b) (fromRow pm) (fromCol pm) (move pm) = Ret nb /\
    minimaxFull nb (Nat.pred (Z.to_nat depth)) false pl = Ret t /\
    forall a', exists v, minimax fuel nb (depth - 1) a' PosInf false pl = Ret v /\
      clamp a' PosInf v = clamp a' PosInf t.
Proof.
  intros Hd Hf pm Hin. destruct (execute_generated _ _ _ Hin) as [nb Hnb].
  replace (depth - 1) with (Z.of_nat (Nat.pred (Z.to_nat depth))) by lia.
  destruct (minimax_clamp pl (Nat.pred (Z.to_nat depth)) fuel nb false NegInf NegInf
              ltac:(lia)) as (_ & t & _ & Ht & _).
  exists nb, t. split; [exact Hnb|]. split; [exact Ht|]. intros a'.
  destruct (minimax_clamp pl (Nat.pred (Z.to_nat depth)) fuel nb false a' PosInf
              ltac:(lia)) as (v & t' & Hv & Ht' & Hc).
  rewrite Ht in Ht'. injection Ht' as <-. eauto.
Qed.

(** The candidate loop once a best result exists: its score is the
    running alpha, and it ends as the maximum over all root children. *)
Lemma bestLoop_some fuel b pl depth n moves :
  (forall pm, In pm moves -> exists nb t,
     Move.execute (clone b) (fromRow pm) (fromCol pm) (move pm) = Ret nb /\
     minimaxFull nb n false pl = Ret t /\
     forall a', exists v, minimax fuel nb (depth - 1) a' PosInf false pl = Ret v /\
       clamp a' PosInf v = clamp a' PosInf t) ->
  forall br alpha, score br = alpha ->
  exists br' T, bestLoop fuel b pl depth moves alpha (Some br) = Ret (Some br') /\
    foldChildren emax (fun nb => minimaxFull nb n false pl) b moves alpha = Ret T /\
    score br' = T.
Proof.
  induction moves as [|pm ms IH]; intros Hch br alpha Hsc.
  - exists br, alpha. auto.
  - destruct (Hch pm (or_introl eq_refl)) as (nb & t & Hex & Ht & Hv).
    destruct (Hv alpha) as (s & Hs & Hcs). rewrite !clamp_PosInf in Hcs.
    cbn [bestLoop foldChildren]. unfold mbind, outcome_mbind.
    rewrite Hex. cbn [obind]. rewrite Hs, Ht. cbn [obind].
    rewrite <- Hcs, Hsc.
    assert (Hrest : forall pm', In pm' ms -> exists nb t,
              Move.execute (clone b) (fromRow pm') (fromCol pm') (move pm') = Ret nb /\
              minimaxFull nb n false pl = Ret t /\
              forall a', exists v, minimax fuel nb (depth - 1) a' PosInf false pl = Ret v /\
                clamp a' PosInf v = clamp a' PosInf t)
      by (intros pm' Hin; apply Hch; right; exact Hin).
    destruct (ext_lt alpha s) eqn:Hlt; apply IH; auto; cbn [score].
    + symmetry. apply emax_lt_true. exact Hlt.
    + rewrite Hsc. symmetry. apply emax_lt_false. exact Hlt.
Qed.

Lemma bestLoop_first fuel b pl depth n pm ms :
  (forall pm', In pm' (pm :: ms) -> exists nb t,
     Move.execute (clone b) (fromRow pm') (fromCol pm') (move pm') = Ret nb /\
     minimaxFull nb n false pl = Ret t /\
     forall a', exists v, minimax fuel nb (depth - 1) a' PosInf false pl = Ret v /\
       clamp a' PosInf v = clamp a' PosInf t) ->
  exists br T, bestLoop fuel b pl depth (pm :: ms) NegInf None = Ret (Some br) /\
    foldChildren emax (fun nb => minimaxFull nb n false pl) b (pm :: ms) NegInf = Ret T /\
    score br = T.
Proof.
  intros Hch.
  destruct (Hch pm (or_introl eq_refl)) as (nb & t & Hex & Ht & Hv).
  destruct (Hv NegInf) as (s & Hs & Hcs). rewrite !clamp_NegInf_PosInf in Hcs. subst t.
  cbn [bestLoop foldChildren]. unfold mbind, outcome_mbind.
  rewrite Hex. cbn [obind]. rewrite Hs, Ht. cbn [obind].
  rewrite emax_NegInf_l. apply bestLoop_some; [|reflexivity].
  intros pm' Hin. apply Hch. right. exact Hin.
Qed.

Lemma findBestMove_root fuel b pl depth :
  1 <= depth -> (Z.to_nat depth <= fuel)%nat ->
  getAllValidMoves b pl = [] /\ findBestMove fuel b pl depth = Ret None /\
    bestScoreFull b pl (Z.to_nat depth) = Ret None \/
  exists br T, getAllValidMoves b pl <> [] /\
    findBestMove fuel b pl depth = Ret (Some br) /\
    bestScoreFull b pl (Z.to_nat depth) = Ret (Some T) /\ score br = T.
Proof.
  intros Hd Hf. unfold findBestMove, bestScoreFull.
  destruct (getAllValidMoves b pl) as [|pm ms] eqn:Hm; [left; auto|right].
  destruct (bestLoop_first fuel b pl depth (Nat.pred (Z.to_nat depth)) pm ms)
    as (br & T & H1 & H2 & H3).
  { intros pm' Hin. rewrite <- Hm in Hin. exact (root_children fuel b pl depth Hd Hf pm' Hin). }
  exists br, T. split; [discriminate|]. split; [exact H1|]. split; [|exact H3].
  unfold mbind, outcome_mbind. rewrite H2. reflexivity.
Qed.

(** The leftmost branch from [cycleBoard] comes back to a position it
    has visited. *)
Lemma cycle_closed : closedUnder Player.Red cycleStates = true.
Proof. vm_compute. reflexivity. Qed.

Lemma closedUnder_spec pl S b m :
  closedUnder pl S = true -> In (b, m) S ->
  exists pm ms nb,
    getAllValidMoves b (if m then pl else opponentOf pl) = pm :: ms /\
    Move.execute (clone b) (fromRow pm) (fromCol pm) (move pm) = Ret nb /\
    In (nb, negb m) S.
Proof.
  unfold closedUnder. intros H Hin. rewrite forallb_forall in H.
  specialize (H _ Hin). cbv beta iota in H. unfold firstChild in H.
  destruct (getAllValidMoves b (if m then pl else opponentOf pl)) as [|pm ms]; [discriminate|].
  destruct (Move.execute (clone b) (fromRow pm) (fromCol pm) (move pm)) as [nb| |] eqn:E;
    try discriminate.
  apply existsb_exists in H as [[b' m'] [Hin' Heq]].
  apply andb_true_iff in Heq as [H1 H2].
  apply bool_decide_eq_true in H1. apply Bool.eqb_prop in H2. subst b' m'.
  exists pm, ms, nb. auto.
Qed.

(** Below depth 0 the test [depth === 0] never fires again: on the
    positions of the cycle the search never returns. *)
Lemma cycle_out_of_fuel :
  forall fuel b m d a bt, In (b, m) cycleStates -> d < 0 ->
  minimax fuel b d a bt m Player.Red = OutOfFuel.
Proof.
  induction fuel as [|f IH]; intros b m d a bt Hin Hd; [reflexivity|].
  destruct (closedUnder_spec Player.Red cycleStates b m cycle_closed Hin)
    as (pm & ms & nb & Hm & Hex & Hin').
  cbn [minimax]. rewrite (proj2 (Z.eqb_neq d 0)) by lia. rewrite Hm.
  destruct m; cbn [maxLoop minLoop negb] in *; unfold mbind, outcome_mbind;
    rewrite Hex; cbn [obind]; rewrite IH by (auto; lia); reflexivity.
Qed.

End SearchFacts.

(* ================================================================== *)
(** * Move generation *)

Import BoardFacts ValidatorFacts Spec.

(** C2: forced capture is global.  If some piece of [pl] has a capture,
    [getAllValidMoves] returns exactly the captures of all of [pl]'s pieces
    (in scan order) and every move it returns is a capture; if no piece has
    one, it returns exactly the quiet steps of every piece. *)
Theorem getAllValidMoves_forced_capture (b : Board) (pl : Player.t) :
  ((exists pc r c, In (pc, r, c) (getPieces b pl) /\
      MoveValidator.getCaptureMoves b r c (player pc) (type pc) <> []) ->
   MoveValidator.getAllValidMoves b pl = allCaptures b pl /\
   Forall (fun pm => Move.type (move pm) = MoveType.Capture)
          (MoveValidator.getAllValidMoves b pl)) /\
  ((forall pc r c, In (pc, r, c) (getPieces b pl) ->
      MoveValidator.getCaptureMoves b r c (player pc) (type pc) = []) ->
   MoveValidator.getAllValidMoves b pl = allRegular b pl /\
   Forall (fun pm => Move.type (move pm) = MoveType.Regular)
          (MoveValidator.getAllValidMoves b pl)).
Proof.
  split.
  - intros Hex. apply anyCapture_true in Hex.
    assert (Heq : MoveValidator.getAllValidMoves b pl = allCaptures b pl)
      by (rewrite getAllValidMoves_eq, Hex; reflexivity).
    split; [exact Heq|]. rewrite Heq. apply List.Forall_forall. intros pm Hpm.
    apply in_allCaptures in Hpm as [pc [_ Hm]]. eapply getCaptureMoves_type; exact Hm.
  - intros Hnone.
    assert (Hf : anyCapture b pl = false).
    { destruct (anyCapture b pl) eqn:E; [|reflexivity].
      apply anyCapture_true in E as (pc & r & c & Hin & Hne).
      exfalso. exact (Hne (Hnone _ _ _ Hin)). }
    assert (Heq : MoveValidator.getAllValidMoves b pl = allRegular b pl)
      by (rewrite getAllValidMoves_eq, Hf; reflexivity).
    split; [exact Heq|]. rewrite Heq. apply List.Forall_forall. intros pm Hpm.
    apply in_allRegular in Hpm as [pc [_ Hm]]. eapply getRegularMoves_type; exact Hm.
Qed.

(** C4: a regular piece only moves and captures forward (red toward larger
    rows, black toward smaller ones), whether its moves are asked for the
    square or for the whole side; a king's directions are the four
    diagonals, and each of them yields the step and the capture that the
    board allows. *)
Theorem directions_by_rank (b : Board) (r c : Z) (pc : Piece) :
  getPieceAt b r c = Some pc ->
  (type pc = PieceType.Regular ->
   forall m, (In m (MoveValidator.getValidMoves b r c) \/
              In (mkPieceMove r c m) (MoveValidator.getAllValidMoves b (player pc))) ->
   (player pc = Player.Red -> r < Move.toRow m) /\
   (player pc = Player.Black -> Move.toRow m < r)) /\
  (type pc = PieceType.King ->
   forall dr dc, (dr = 1 \/ dr = -1) -> (dc = 1 \/ dc = -1) ->
   In (dr, dc) (MoveValidator.getDirections (player pc) (type pc)) /\
   (isValidPosition (r + dr) (c + dc) = true -> getPieceAt b (r + dr) (c + dc) = None ->
    In (Move.mk (r + dr) (c + dc) MoveType.Regular None None)
       (MoveValidator.getRegularMoves b r c (player pc) (type pc))) /\
   (isValidPosition (r + 2 * dr) (c + 2 * dc) = true ->
    getPieceAt b (r + 2 * dr) (c + 2 * dc) = None ->
    (exists q, getPieceAt b (r + dr) (c + dc) = Some q /\ player q <> player pc) ->
    In (Move.mk (r + 2 * dr) (c + 2 * dc) MoveType.Capture (Some (r + dr)) (Some (c + dc)))
       (MoveValidator.getCaptureMoves b r c (player pc) (type pc)))).
Proof.
  intros Hpc. split.
  - intros Hreg m Hm.
    assert (Hgen : In m (MoveValidator.getCaptureMoves b r c (player pc) PieceType.Regular) \/
                   In m (MoveValidator.getRegularMoves b r c (player pc) PieceType.Regular)).
    { destruct Hm as [Hm|Hm].
      - apply in_getValidMoves in Hm as (pc' & Hpc' & Hm).
        rewrite Hpc in Hpc'. injection Hpc' as <-. rewrite Hreg in Hm. tauto.
      - apply in_getAllValidMoves in Hm as (pc' & Hin & Hp & Hm). simpl in Hin, Hm.
        apply getPieces_getPieceAt in Hin as [Hpc' _].
        rewrite Hpc in Hpc'. injection Hpc' as <-. rewrite Hreg in Hm. exact Hm. }
    destruct Hgen as [Hg|Hg].
    + apply in_getCaptureMoves in Hg as (dr & dc & Hd & -> & _).
      apply getDirections_forward in Hd as [HR HB]. simpl.
      split; intros Hp; [specialize (HR Hp)|specialize (HB Hp)]; lia.
    + apply in_getRegularMoves in Hg as (dr & dc & Hd & -> & _).
      apply getDirections_forward in Hd as [HR HB]. simpl.
      split; intros Hp; [specialize (HR Hp)|specialize (HB Hp)]; lia.
  - intros Hking dr dc Hdr Hdc. rewrite Hking.
    pose proof (getDirections_king (player pc) dr dc Hdr Hdc) as Hd.
    split; [exact Hd|]. split.
    + intros Hv Hl. apply in_getRegularMoves. exists dr, dc. auto.
    + intros Hv Hl Hq. apply in_getCaptureMoves. exists dr, dc. auto.
Qed.

(** A regular Red piece alone on (2, 3). *)
Lemma directions_by_rank_witness :
  getPieceAt (board_of [(2, 3, rR)]) 2 3 = Some rR /\
  (type rR = PieceType.Regular ->
   forall m, (In m (MoveValidator.getValidMoves (board_of [(2, 3, rR)]) 2 3) \/
              In (mkPieceMove 2 3 m)
                 (MoveValidator.getAllValidMoves (board_of [(2, 3, rR)]) (player rR))) ->
   (player rR = Player.Red -> 2 < Move.toRow m) /\
   (player rR = Player.Black -> Move.toRow m < 2)) /\
  (type rR = PieceType.King ->
   forall dr dc, (dr = 1 \/ dr = -1) -> (dc = 1 \/ dc = -1) ->
   In (dr, dc) (MoveValidator.getDirections (player rR) (type rR)) /\
   (isValidPosition (2 + dr) (3 + dc) = true ->
    getPieceAt (board_of [(2, 3, rR)]) (2 + dr) (3 + dc) = None ->
    In (Move.mk (2 + dr) (3 + dc) MoveType.Regular None None)
       (MoveValidator.getRegularMoves (board_of [(2, 3, rR)]) 2 3 (player rR) (type rR))) /\
   (isValidPosition (2 + 2 * dr) (3 + 2 * dc) = true ->
    getPieceAt (board_of [(2, 3, rR)]) (2 + 2 * dr) (3 + 2 * dc) = None ->
    (exists q, getPieceAt (board_of [(2, 3, rR)]) (2 + dr) (3 + dc) = Some q /\
               player q <> player rR) ->
    In (Move.mk (2 + 2 * dr) (3 + 2 * dc) MoveType.Capture (Some (2 + dr)) (Some (3 + dc)))
       (MoveValidator.getCaptureMoves (board_of [(2, 3, rR)]) 2 3 (player rR) (type rR)))).
Proof.
  split; [reflexivity|].
  apply (directions_by_rank (board_of [(2, 3, rR)]) 2 3 rR). reflexivity.
Defined.

(* ================================================================== *)
(** * Capture chains *)

Import ChainFacts.

(** Every chain returned for a square replays, from a copy of the board,
    as consecutive captures of the piece standing there, and ends where
    that piece has no further capture. *)
Lemma getCaptureChains_replays (b : Board) (r c : Z) chains ch :
  MoveValidator.getCaptureChains b r c = Ret chains -> In ch chains ->
  exists pc b' r' c' pc',
    getPieceAt b r c = Some pc /\ ch <> [] /\
    replays (clone b) r c (player pc) (type pc) ch b' r' c' (type pc') /\
    getPieceAt b' r' c' = Some pc' /\ player pc' = player pc /\
    MoveValidator.getCaptureMoves b' r' c' (player pc) (type pc') = [].
Proof.
  unfold MoveValidator.getCaptureChains. intros Hres Hch.
  destruct (getPieceAt b r c) as [pc|] eqn:Hpc.
  - assert (Hpc' : getPieceAt (clone b) r c = Some pc) by (rewrite getPieceAt_clone; exact Hpc).
    destruct (findCaptureChains_sound _ _ _ _ _ _ _ Hpc' Hres ch Hch)
      as (suffix & b' & r' & c' & pc' & Heq & Hne' & Hrep & Hl & Hp & Hcap).
    simpl in Heq. subst suffix.
    exists pc, b', r', c', pc'. auto 7.
  - injection Hres as <-. destruct Hch.
Qed.

(** C3: [getCaptureChains] always returns; every chain it returns is a
    non-empty sequence of consecutive captures of the piece on (r, c),
    replayed on copies of the board with the rank taken from the landing
    square after each jump, and from the final landing square that piece
    has no further capture.  The result is empty exactly when the square is
    empty or its piece has no capture. *)
Theorem getCaptureChains_maximal (b : Board) (r c : Z) :
  exists chains,
    MoveValidator.getCaptureChains b r c = Ret chains /\
    (forall ch, In ch chains ->
       exists pc b' r' c' pc',
         getPieceAt b r c = Some pc /\ ch <> [] /\
         replays (clone b) r c (player pc) (type pc) ch b' r' c' (type pc') /\
         getPieceAt b' r' c' = Some pc' /\ player pc' = player pc /\
         MoveValidator.getCaptureMoves b' r' c' (player pc) (type pc') = []) /\
    (chains = [] <->
       getPieceAt b r c = None \/
       exists pc, getPieceAt b r c = Some pc /\
         MoveValidator.getCaptureMoves b r c (player pc) (type pc) = []).
Proof.
  unfold MoveValidator.getCaptureChains. destruct (getPieceAt b r c) as [pc|] eqn:Hpc.
  - assert (Hpc' : getPieceAt (clone b) r c = Some pc) by (rewrite getPieceAt_clone; exact Hpc).
    destruct (findCaptureChains_total MoveValidator.chainFuel (clone b) r c pc [] Hpc')
      as (res & Hres & Hne).
    { pose proof (oppCount_le (clone b) (player pc)). unfold MoveValidator.chainFuel. lia. }
    exists res. split; [exact Hres|]. split.
    + intros ch Hch. rewrite <- Hpc. apply (getCaptureChains_replays b r c res ch); [|exact Hch].
      unfold MoveValidator.getCaptureChains. rewrite Hpc. exact Hres.
    + split.
      * intros ->. right. exists pc. split; [reflexivity|].
        destruct (MoveValidator.getCaptureMoves b r c (player pc) (type pc)) eqn:E;
          [reflexivity|].
        exfalso. apply Hne; [|reflexivity]. right.
        rewrite getCaptureMoves_clone, E. discriminate.
      * intros [H|(pc0 & H0 & H1)]; [discriminate|].
        injection H0 as <-.
        unfold MoveValidator.chainFuel in Hres. cbn [MoveValidator.findCaptureChains] in Hres.
        rewrite getCaptureMoves_clone, H1 in Hres. injection Hres as <-. reflexivity.
  - exists []. split; [reflexivity|]. split; [intros ch []|]. split; [intros _; left; reflexivity|].
    intros _. reflexivity.
Qed.

(** C10: every move of the validator is well formed: a capture (from
    [getValidMoves], [getAllValidMoves] or inside a capture chain, on the
    board it is played on) records the midpoint of its source and
    destination as the jumped square, that square holds an opponent piece
    and the in-range landing square is empty; a quiet step records no
    jumped square. *)
Theorem generated_moves_wellformed (b : Board) :
  (forall r c pc m, getPieceAt b r c = Some pc ->
     In m (MoveValidator.getValidMoves b r c) -> move_wellformed b r c (player pc) m) /\
  (forall pl pm, In pm (MoveValidator.getAllValidMoves b pl) ->
     move_wellformed b (fromRow pm) (fromCol pm) pl (move pm)) /\
  (forall r c chains ch, MoveValidator.getCaptureChains b r c = Ret chains -> In ch chains ->
     exists pc, getPieceAt b r c = Some pc /\ chain_wf (clone b) r c (player pc) ch).
Proof.
  split; [|split].
  - intros r c pc m Hpc Hm. apply in_getValidMoves in Hm as (pc' & Hpc' & Hm).
    rewrite Hpc in Hpc'. injection Hpc' as <-.
    destruct Hm as [Hm|[_ Hm]]; [eapply getCaptureMoves_wf|eapply getRegularMoves_wf]; exact Hm.
  - intros pl pm Hpm. apply in_getAllValidMoves in Hpm as (pc & _ & _ & [Hm|Hm]);
      [eapply getCaptureMoves_wf|eapply getRegularMoves_wf]; exact Hm.
  - intros r c chains ch Hch Hin.
    destruct (getCaptureChains_replays b r c chains ch Hch Hin) as (pc & b' & r' & c' & pc' & Hpc & _ & Hrep & _).
    exists pc. split; [exact Hpc|]. eapply replays_chain_wf. exact Hrep.
Qed.

(* ================================================================== *)
(** * Board writes and promotion *)

(** C6: executing a move of a piece standing on an in-range square to an
    in-range destination (the jumped square, if any, being another square)
    leaves that piece on the destination: a regular Red piece reaching row
    7, or a regular Black piece reaching row 0, is now a king; otherwise its
    rank is unchanged, so a king stays a king.  No other piece of the board
    changes: every piece found elsewhere after the move stood there before. *)
Theorem execute_promotion (b : Board) (fr fc : Z) (m : Move.t) (pc : Piece) :
  getPieceAt b fr fc = Some pc ->
  isValidPosition (Move.toRow m) (Move.toCol m) = true ->
  (forall cr cc, Move.type m = MoveType.Capture -> Move.capturedRow m = Some cr ->
     Move.capturedCol m = Some cc -> (cr, cc) <> (fr, fc)) ->
  exists nb,
    Move.execute b fr fc m = Ret nb /\
    getPieceAt nb (Move.toRow m) (Move.toCol m) =
      Some (mkPiece (player pc)
              (if bool_decide (type pc = PieceType.Regular /\
                                 ((player pc = Player.Red /\ Move.toRow m = 7) \/
                                  (player pc = Player.Black /\ Move.toRow m = 0)))
               then PieceType.King else type pc)) /\
    (forall r c p, (r, c) <> (Move.toRow m, Move.toCol m) ->
       getPieceAt nb r c = Some p -> getPieceAt b r c = Some p).
Proof.
  intros Hpc Hto Hcap.
  apply getPieceAt_Some in Hpc as [Hfr Hb].
  apply isValidPosition_true in Hto.
  unfold Move.execute.
  set (b1 := match Move.type m, Move.capturedRow m, Move.capturedCol m with
             | MoveType.Capture, Some cr, Some cc => removePiece b cr cc
             | _, _, _ => b
             end).
  assert (Hb1 : b1 !! (fr, fc) = Some pc).
  { subst b1. destruct m as [tr tc [|] [cr|] [cc|]]; cbn in *; try exact Hb.
    unfold removePiece. destruct (isValidPosition cr cc); [|exact Hb].
    rewrite lookup_delete_ne; [exact Hb|]. exact (Hcap cr cc eq_refl eq_refl eq_refl). }
  assert (Hb1o : forall k p, b1 !! k = Some p -> b !! k = Some p).
  { intros k p. subst b1. destruct m as [tr tc [|] [cr|] [cc|]]; cbn; auto.
    unfold removePiece. destruct (isValidPosition cr cc); [|auto].
    destruct (decide ((cr, cc) = k)) as [<-|Hn].
    - rewrite lookup_delete_eq. discriminate.
    - rewrite lookup_delete_ne by exact Hn. auto. }
  clearbody b1.
  unfold movePiece.
  rewrite (proj2 (rowExists_true fr)) by lia. cbn [negb]. rewrite Hb1.
  rewrite (proj2 (rowExists_true (Move.toRow m))) by lia. cbn [negb].
  eexists. split; [reflexivity|]. split.
  - unfold getPieceAt. rewrite (proj2 (isValidPosition_true _ _)) by lia.
    rewrite lookup_insert_eq. f_equal.
    destruct pc as [pp pt]. cbn [player type].
    case_bool_decide as Hd;
      destruct pp, pt; cbn;
      try destruct (Z.eqb_spec (Move.toRow m) 7);
      try destruct (Z.eqb_spec (Move.toRow m) 0);
      try reflexivity; exfalso; intuition congruence.
  - intros r c p Hne Hp. apply getPieceAt_Some in Hp as [Hrc Hl].
    unfold getPieceAt. rewrite (proj2 (isValidPosition_true r c)) by exact Hrc.
    rewrite lookup_insert_ne in Hl by congruence.
    destruct (decide ((fr, fc) = (r, c))) as [Heq|Hn].
    + injection Heq as <- <-. rewrite lookup_delete_eq in Hl. discriminate.
    + rewrite lookup_delete_ne in Hl by exact Hn. apply Hb1o. exact Hl.
Qed.

(** A regular Red piece stepping from (6, 1) to (7, 2) is crowned. *)
Lemma execute_promotion_witness :
  exists nb,
    Move.execute (board_of [(6, 1, rR)]) 6 1 (Move.mk 7 2 MoveType.Regular None None) = Ret nb /\
    getPieceAt nb 7 2 =
      Some (mkPiece Player.Red
              (if bool_decide (PieceType.Regular = PieceType.Regular /\
                                 ((Player.Red = Player.Red /\ 7 = 7) \/
                                  (Player.Red = Player.Black /\ 7 = 0)))
               then PieceType.King else PieceType.Regular)) /\
    (forall r c p, (r, c) <> (7, 2) ->
       getPieceAt nb r c = Some p -> getPieceAt (board_of [(6, 1, rR)]) r c = Some p).
Proof.
  apply (execute_promotion (board_of [(6, 1, rR)]) 6 1
           (Move.mk 7 2 MoveType.Regular None None) rR).
  - reflexivity.
  - reflexivity.
  - intros cr cc Ht. discriminate Ht.
Defined.

(** C5 (the code): [movePiece] has no range check of its own, unlike
    [setPiece] and [removePiece].  Called with the out-of-range row -1 on
    the starting board it throws ([this.grid[-1]] is undefined); moving the
    piece at (0, 1) to the out-of-range column 8 does not leave the board
    unchanged: the piece disappears from every in-range square. *)
Theorem movePiece_out_of_range :
  movePiece createInitialBoard (-1) 0 0 1 = Thrown /\
  getPieceAt createInitialBoard 0 1 = Some rR /\
  exists nb, movePiece createInitialBoard 0 1 0 8 = Ret nb /\
    getPieceAt nb 0 1 = None /\
    length (getPieces nb Player.Red) = 11%nat /\
    length (getPieces createInitialBoard Player.Red) = 12%nat.
Proof.
  split; [reflexivity|]. split; [vm_compute; reflexivity|].
  eexists. split; [reflexivity|]. vm_compute. auto.
Qed.

(* ================================================================== *)
(** * Evaluation *)

(** On a board with no piece at all, both length checks hold, and the
    first one wins: the player with no pieces is scored [+WIN_SCORE]. *)
Lemma evaluate_empty_board :
  getPieces empty Player.Red = [] /\ getPieces empty Player.Black = [] /\
  Evaluator.evaluate empty Player.Red = Evaluator.WIN_SCORE /\
  Evaluator.evaluate empty Player.Red <> - Evaluator.WIN_SCORE.
Proof. vm_compute. split; [reflexivity|]. split; [reflexivity|]. split; [reflexivity|]. discriminate. Qed.

(** C7 (as amended): [evaluate b pl] is [+WIN_SCORE] when the opponent has
    no piece, and [-WIN_SCORE] when [pl] has no piece while the opponent has
    one; both checks come before the positional sums, whose value plays no
    part in these two cases. *)
Theorem evaluate_terminal (b : Board) (pl : Player.t) :
  (getPieces b (Evaluator.opponentOf pl) = [] ->
     Evaluator.evaluate b pl = Evaluator.WIN_SCORE) /\
  (getPieces b pl = [] -> getPieces b (Evaluator.opponentOf pl) <> [] ->
     Evaluator.evaluate b pl = - Evaluator.WIN_SCORE).
Proof.
  unfold Evaluator.evaluate. split.
  - intros H. rewrite H. reflexivity.
  - intros H Hn. rewrite H.
    destruct (getPieces b (Evaluator.opponentOf pl)); [congruence|reflexivity].
Qed.

(** C9: on the starting board the evaluation is 0 for either player. *)
Theorem evaluate_initial_zero :
  Evaluator.evaluate createInitialBoard Player.Red = 0 /\
  Evaluator.evaluate createInitialBoard Player.Black = 0.
Proof. vm_compute. split; reflexivity. Qed.

(* ================================================================== *)
(** * The search *)

Import SearchFacts.

(** C1: for a depth of at least 1 (and a call stack deep enough for the
    search, [fuel] frames), [findBestMove] returns, and the score of the
    result it returns is the value of the unpruned minimax search of the
    same tree: the maximum over the root moves of the full minimax values
    one ply down ([None] on both sides when there is no move). *)
Theorem findBestMove_full_minimax (fuel : nat) (b : Board) (p : Player.t) (depth : Z) :
  1 <= depth -> (Z.to_nat depth <= fuel)%nat ->
  exists r t,
    Minimax.findBestMove fuel b p depth = Ret r /\
    FullSearch.bestScoreFull b p (Z.to_nat depth) = Ret t /\
    option_map score r = t.
Proof.
  intros Hd Hf.
  destruct (findBestMove_root fuel b p depth Hd Hf)
    as [(_ & H1 & H2)|(br & T & _ & H1 & H2 & H3)].
  - exists None, None. auto.
  - exists (Some br), (Some T). split; [exact H1|]. split; [exact H2|].
    cbn [option_map]. rewrite H3. reflexivity.
Qed.

(** The position of [ex_search]: a red man on (2, 1) facing a black man on
    (3, 2), searched four plies deep. *)
Lemma findBestMove_full_minimax_witness :
  exists r t,
    Minimax.findBestMove 5 (board_of [(2, 1, rR); (3, 2, bR)]) Player.Red 4 = Ret r /\
    FullSearch.bestScoreFull (board_of [(2, 1, rR); (3, 2, bR)]) Player.Red (Z.to_nat 4) = Ret t /\
    option_map score r = t.
Proof.
  apply (findBestMove_full_minimax 5 (board_of [(2, 1, rR); (3, 2, bR)]) Player.Red 4); lia.
Defined.

(** At depth 0 the search does not stop: Red has moves on [cycleBoard],
    yet [findBestMove] at depth 0 never returns, whatever the stack depth.
    The source's test [depth === 0] is only made after [depth - 1], so the
    recursion goes on below 0 and follows the kings' shuttling forever. *)
Lemma findBestMove_depth0_diverges :
  MoveValidator.getAllValidMoves cycleBoard Player.Red <> [] /\
  (forall fuel, Minimax.findBestMove fuel cycleBoard Player.Red 0 = OutOfFuel).
Proof.
  assert (Hroot : In (cycleBoard, true) cycleStates) by (left; reflexivity).
  destruct (closedUnder_spec Player.Red cycleStates cycleBoard true cycle_closed Hroot)
    as (pm & ms & nb & Hm & Hex & Hin).
  cbn [negb] in Hin. cbv iota in Hm.
  split; [rewrite Hm; discriminate|].
  intros fuel. unfold Minimax.findBestMove. rewrite Hm.
  cbn [Minimax.bestLoop]. unfold mbind, outcome_mbind. rewrite Hex. cbn [obind].
  rewrite cycle_out_of_fuel by (auto; lia). reflexivity.
Qed.

(** C8 (as amended, depth at least 1): [findBestMove] returns, without
    throwing, [None] exactly when the player has no legal move, and a
    candidate with its score otherwise. *)
Theorem findBestMove_none_iff (fuel : nat) (b : Board) (p : Player.t) (depth : Z) :
  1 <= depth -> (Z.to_nat depth <= fuel)%nat ->
  exists r, Minimax.findBestMove fuel b p depth = Ret r /\
    (r = None <-> MoveValidator.getAllValidMoves b p = []).
Proof.
  intros Hd Hf.
  destruct (findBestMove_root fuel b p depth Hd Hf)
    as [(Hm & H1 & _)|(br & T & Hm & H1 & _)].
  - exists None. split; [exact H1|]. tauto.
  - exists (Some br). split; [exact H1|]. split; [discriminate|]. intros H. contradiction.
Qed.

(** The starting position, searched two plies deep as the game does. *)
Lemma findBestMove_none_iff_witness :
  exists r, Minimax.findBestMove 2 createInitialBoard Player.Red 2 = Ret r /\
    (r = None <-> MoveValidator.getAllValidMoves createInitialBoard Player.Red = []).
Proof.
  apply (findBestMove_none_iff 2 createInitialBoard Player.Red 2); lia.
Defined.

(* ================================================================== *)
(** * Further properties: the search, Precog, the game state and the renderer *)

Module MoreFacts.
Import MoveValidator Evaluator Minimax.

Lemma pieceMove_eta pm : mkPieceMove (fromRow pm) (fromCol pm) (move pm) = pm.
Proof. destruct pm; reflexivity. Qed.

Lemma bestLoop_in fuel b pl depth moves alpha best br :
  bestLoop fuel b pl depth moves alpha best = Ret (Some br) ->
  best = Some br \/ In (mkPieceMove (sr_fromRow br) (sr_fromCol br) (sr_move br)) moves.
Proof.
  revert alpha best. induction moves as [|pm rest IH]; intros alpha best H.
  - cbn in H. injection H as ->. left; reflexivity.
  - cbn [bestLoop] in H. unfold mbind, outcome_mbind in H.
    destruct (Move.execute _ _ _ _) as [nb| |]; cbn [obind] in H; try discriminate.
    destruct (minimax _ _ _ _ _ _ _) as [sc| |]; cbn [obind] in H; try discriminate.
    apply IH in H. destruct H as [H|H]; [|right; right; exact H].
    destruct best as [b0|].
    + destruct (ext_lt (score b0) sc); [|left; exact H].
      injection H as <-. right; left. destruct pm; reflexivity.
    + injection H as <-. right; left. destruct pm; reflexivity.
Qed.

Lemma findBestMove_in fuel b pl depth br :
  findBestMove fuel b pl depth = Ret (Some br) ->
  In (mkPieceMove (sr_fromRow br) (sr_fromCol br) (sr_move br)) (getAllValidMoves b pl).
Proof.
  unfold findBestMove. destruct (getAllValidMoves b pl) as [|pm ms]; [discriminate|].
  intros H. apply bestLoop_in in H. destruct H; [discriminate|assumption].
Qed.

Lemma flat_map_ext_in {X Y} (f g : X -> list Y) (l : list X) :
  (forall x, In x l -> f x = g x) -> flat_map f l = flat_map g l.
Proof.
  induction l as [|x l IH]; intros H; cbn; [reflexivity|].
  rewrite (H x (or_introl eq_refl)), IH; [reflexivity|]. intros y Hy; apply H; right; exact Hy.
Qed.

Lemma getPieces_clone b pl : getPieces (clone b) pl = getPieces b pl.
Proof.
  unfold getPieces. apply flat_map_ext_in. intros [r c] Hin.
  apply in_coords in Hin. rewrite clone_lookup. cbn.
  assert (isValidPosition r c = true) as -> by (apply isValidPosition_true; lia).
  reflexivity.
Qed.

Lemma getRegularMoves_clone b r c pl ty :
  getRegularMoves (clone b) r c pl ty = getRegularMoves b r c pl ty.
Proof.
  unfold getRegularMoves. apply flat_map_ext_in. intros [dr dc] _.
  rewrite getPieceAt_clone. reflexivity.
Qed.

Lemma getValidMoves_clone b r c : getValidMoves (clone b) r c = getValidMoves b r c.
Proof.
  unfold getValidMoves. rewrite getPieceAt_clone.
  destruct (getPieceAt b r c); [|reflexivity].
  rewrite getCaptureMoves_clone, getRegularMoves_clone. reflexivity.
Qed.

Lemma removePiece_clone b r c : removePiece (clone b) r c = clone (removePiece b r c).
Proof.
  unfold removePiece, clone. destruct (isValidPosition r c); [|reflexivity].
  rewrite map_filter_delete. reflexivity.
Qed.

Lemma movePiece_clone b fr fc tr tc :
  isValidPosition fr fc = true -> isValidPosition tr tc = true ->
  movePiece (clone b) fr fc tr tc =
  match movePiece b fr fc tr tc with
  | Ret nb => Ret (clone nb) | Thrown => Thrown | OutOfFuel => OutOfFuel
  end.
Proof.
  intros Hf Ht. unfold movePiece.
  destruct (rowExists fr); cbn [negb]; [|reflexivity].
  rewrite clone_lookup. cbn. rewrite Hf.
  destruct (b !! (fr, fc)) as [piece|]; [|reflexivity].
  destruct (rowExists tr); cbn [negb]; [|reflexivity].
  f_equal. unfold clone. rewrite map_filter_insert_True by exact Ht.
  rewrite map_filter_delete. reflexivity.
Qed.

Lemma execute_clone b fr fc m :
  isValidPosition fr fc = true -> isValidPosition (Move.toRow m) (Move.toCol m) = true ->
  Move.execute (clone b) fr fc m =
  match Move.execute b fr fc m with
  | Ret nb => Ret (clone nb) | Thrown => Thrown | OutOfFuel => OutOfFuel
  end.
Proof.
  intros Hf Ht. unfold Move.execute.
  destruct (Move.type m), (Move.capturedRow m), (Move.capturedCol m);
    try rewrite removePiece_clone; apply movePiece_clone; assumption.
Qed.
End MoreFacts.

Module TieFacts.
Import MoveValidator Evaluator Minimax FullSearch Spec2 MoreFacts.

Lemma ext_le_trans x y z : ext_le x y = true -> ext_le y z = true -> ext_le x z = true.
Proof. ext_crush. Qed.
Lemma ext_lt_le x y : ext_lt x y = true -> ext_le x y = true.
Proof. ext_crush. Qed.
Lemma ext_lt_trans x y z : ext_lt x y = true -> ext_lt y z = true -> ext_lt x z = true.
Proof. ext_crush. Qed.
Lemma ext_le_lt_trans x y z : ext_le x y = true -> ext_lt y z = true -> ext_lt x z = true.
Proof. ext_crush. Qed.
Lemma ext_le_refl x : ext_le x x = true.
Proof. ext_crush. Qed.

Lemma emax_window a v t :
  emax a v = emax a t ->
  (ext_lt a v = true -> v = t /\ ext_lt a t = true) /\
  (ext_lt a v = false -> ext_le t a = true).
Proof.
  intros H; split; intros H'; revert H H'; ext_crush;
    try (match goal with H : Fin _ = Fin _ |- _ => injection H as H end);
    try split; try reflexivity; try (f_equal; lia); try lia; discriminate.
Qed.

Lemma childScore_eq b pl n pm nb t :
  Move.execute (clone b) (fromRow pm) (fromCol pm) (move pm) = Ret nb ->
  minimaxFull nb n false pl = Ret t -> childScore b pl n pm = Ret t.
Proof. intros H1 H2. unfold childScore, mbind, outcome_mbind. rewrite H1. exact H2. Qed.

Lemma bestLoop_argmax fuel b pl depth n moves :
  (forall pm, In pm moves -> exists nb t,
     Move.execute (clone b) (fromRow pm) (fromCol pm) (move pm) = Ret nb /\
     minimaxFull nb n false pl = Ret t /\
     forall a', exists v, minimax fuel nb (depth - 1) a' PosInf false pl = Ret v /\
       clamp a' PosInf v = clamp a' PosInf t) ->
  forall br br', bestLoop fuel b pl depth moves (score br) (Some br) = Ret (Some br') ->
  (forall q t, In q moves -> childScore b pl n q = Ret t -> ext_le t (score br') = true) /\
  (br' = br \/
   exists pre q post, moves = pre ++ q :: post /\
     br' = mkSearchResult (fromRow q) (fromCol q) (move q) (score br') /\
     childScore b pl n q = Ret (score br') /\ ext_lt (score br) (score br') = true /\
     forall q' t, In q' pre -> childScore b pl n q' = Ret t -> ext_lt t (score br') = true).
Proof.
  induction moves as [|q rest IH]; intros H br br' Hl.
  - cbn in Hl. injection Hl as <-. split; [intros q t []|left; reflexivity].
  - destruct (H q (or_introl eq_refl)) as (nb & t & Hex & Hfull & Hwin).
    destruct (Hwin (score br)) as (v & Hv & Hcl).
    rewrite !clamp_PosInf in Hcl. apply emax_window in Hcl as [Hup Hdown].
    assert (Hc : childScore b pl n q = Ret t) by (eapply childScore_eq; eassumption).
    assert (IH' := IH (fun pm Hin => H pm (or_intror Hin))).
    cbn [bestLoop] in Hl. unfold mbind, outcome_mbind in Hl. rewrite Hex in Hl.
    cbn [obind] in Hl. rewrite Hv in Hl. cbn [obind] in Hl.
    destruct (ext_lt (score br) v) eqn:Hlt.
    + destruct (Hup eq_refl) as [<- Hlt'].
      rewrite (emax_lt_true _ _ Hlt) in Hl.
      destruct (IH' (mkSearchResult (fromRow q) (fromCol q) (move q) v) br' Hl)
        as [Hall Hcase]. cbn [score] in Hcase.
      split.
      * intros q' t' [<-|Hin] Hc'.
        -- rewrite Hc in Hc'. injection Hc' as <-.
           destruct Hcase as [->|(_ & _ & _ & _ & _ & _ & Hlt2 & _)];
             [apply ext_le_refl|apply ext_lt_le; exact Hlt2].
        -- exact (Hall q' t' Hin Hc').
      * right. destruct Hcase as [->|(pre & q2 & post & -> & Hbr & Hc2 & Hlt2 & Hpre)].
        -- exists [], q, rest. cbn. split; [reflexivity|]. split; [reflexivity|].
           split; [exact Hc|]. split; [exact Hlt'|]. intros _ _ [].
        -- exists (q :: pre), q2, post. split; [reflexivity|]. split; [exact Hbr|].
           split; [exact Hc2|]. split; [eapply ext_lt_trans; eassumption|].
           intros q' t' [<-|Hin] Hc'.
           ++ rewrite Hc in Hc'. injection Hc' as <-. exact Hlt2.
           ++ exact (Hpre q' t' Hin Hc').
    + assert (Hle : ext_le t (score br) = true) by (apply Hdown; reflexivity).
      rewrite (emax_lt_false _ _ Hlt) in Hl.
      destruct (IH' br br' Hl) as [Hall Hcase].
      assert (Hbr : ext_le (score br) (score br') = true).
      { destruct Hcase as [->|(_ & _ & _ & _ & _ & _ & Hlt2 & _)];
          [apply ext_le_refl|apply ext_lt_le; exact Hlt2]. }
      split.
      * intros q' t' [<-|Hin] Hc'.
        -- rewrite Hc in Hc'. injection Hc' as <-. eapply ext_le_trans; eassumption.
        -- exact (Hall q' t' Hin Hc').
      * destruct Hcase as [->|(pre & q2 & post & -> & Hbr2 & Hc2 & Hlt2 & Hpre)];
          [left; reflexivity|right].
        exists (q :: pre), q2, post. split; [reflexivity|]. split; [exact Hbr2|].
        split; [exact Hc2|]. split; [exact Hlt2|].
        intros q' t' [<-|Hin] Hc'.
        -- rewrite Hc in Hc'. injection Hc' as <-. eapply ext_le_lt_trans; eassumption.
        -- exact (Hpre q' t' Hin Hc').
Qed.
End TieFacts.

Module SimFacts.
Import MoveValidator Evaluator Precog Spec2 MoreFacts.

Lemma legal_in_range b pl pm :
  In pm (getAllValidMoves b pl) ->
  isValidPosition (fromRow pm) (fromCol pm) = true /\
  isValidPosition (Move.toRow (move pm)) (Move.toCol (move pm)) = true.
Proof.
  intros Hin. apply in_getAllValidMoves in Hin as (pc & Hp & _ & Hm).
  apply in_getPieces in Hp as (Hr & _ & _). split; [apply isValidPosition_true; exact Hr|].
  destruct Hm as [Hm|Hm].
  - apply in_getCaptureMoves in Hm as (dr & dc & _ & -> & Hv & _). exact Hv.
  - apply in_getRegularMoves in Hm as (dr & dc & _ & -> & Hv & _). exact Hv.
Qed.

Lemma execute_legal b pl pm :
  In pm (getAllValidMoves b pl) ->
  exists nb, Move.execute b (fromRow pm) (fromCol pm) (move pm) = Ret nb.
Proof.
  intros Hin. destruct (legal_in_range b pl pm Hin) as [H1 H2].
  apply isValidPosition_true in H1, H2. apply execute_in_range; lia.
Qed.

Lemma findBestMove_2 fuel b p :
  (2 <= fuel)%nat ->
  (getAllValidMoves b p = [] /\ Minimax.findBestMove fuel b p 2 = Ret None) \/
  exists br, Minimax.findBestMove fuel b p 2 = Ret (Some br) /\
    In (mkPieceMove (sr_fromRow br) (sr_fromCol br) (sr_move br)) (getAllValidMoves b p).
Proof.
  intros Hf.
  destruct (findBestMove_root fuel b p 2 ltac:(lia) ltac:(cbn; lia))
    as [(Hm & H1 & _)|(br & _ & _ & H1 & _)].
  - left; split; assumption.
  - right. exists br. split; [exact H1|]. eapply findBestMove_in; exact H1.
Qed.

Lemma simLoop_spec fuel depth : (2 <= fuel)%nat ->
  forall n b p ms i, (7 <= length ms + n)%nat -> (length ms <= 6)%nat ->
  exists b' ext p',
    simLoop fuel n depth i b p ms = Ret (b', ms ++ ext) /\
    playout b p ext b' p' /\
    (length (ms ++ ext) <= 6)%nat /\
    Z.of_nat (length ext) <= Z.max 0 (depth - i) /\
    ((length (ms ++ ext) < 6)%nat -> Z.of_nat (length ext) < depth - i ->
     getAllValidMoves b' p' = []).
Proof.
  intros Hf. induction n as [|n IH]; intros b p ms i Hn Hl; [lia|].
  cbn [simLoop].
  destruct ((i <? depth) && (Z.of_nat (length ms) <? 6)) eqn:Hc.
  - apply andb_true_iff in Hc as [Hc1 Hc2]. apply Z.ltb_lt in Hc1, Hc2.
    destruct (findBestMove_2 fuel b p Hf) as [(Hm & H1)|(br & H1 & Hin)];
      unfold mbind, outcome_mbind; rewrite H1; cbn [obind].
    + exists b, [], p. rewrite app_nil_r. split; [reflexivity|]. split; [constructor|].
      split; [exact Hl|]. split; [cbn; lia|]. intros _ _. exact Hm.
    + destruct (execute_legal _ _ _ Hin) as [nb Hnb]. cbn in Hnb. rewrite Hnb. cbn [obind].
      destruct (IH nb (Evaluator.opponentOf p)
                  (ms ++ [mkPieceMove (sr_fromRow br) (sr_fromCol br) (sr_move br)]) (i + 1))
        as (b' & ext & p' & Hr & Hp & Hl' & Hlen & Hstop);
        [rewrite length_app; cbn; lia|rewrite length_app; cbn; lia|].
      exists b', (mkPieceMove (sr_fromRow br) (sr_fromCol br) (sr_move br) :: ext), p'.
      rewrite <- app_assoc in Hr, Hl', Hstop. cbn [app] in Hr, Hl', Hstop.
      split; [exact Hr|]. split; [econstructor; [exact Hin|exact Hnb|exact Hp]|].
      split; [exact Hl'|]. cbn [length]. split; [lia|].
      intros H6 Hlt. apply Hstop; [exact H6|lia].
  - exists b, [], p. rewrite app_nil_r. split; [reflexivity|]. split; [constructor|].
    split; [exact Hl|]. split; [cbn; lia|]. intros H6 Hlt.
    apply andb_false_iff in Hc as [Hc|Hc]; apply Z.ltb_ge in Hc; cbn in Hlt; lia.
Qed.

Lemma simulateFuture_spec (fuel : nat) (b : Board) (pl : Player.t) (pm : PieceMove) (depth : Z) :
  (2 <= fuel)%nat -> In pm (getAllValidMoves b pl) ->
  exists fv b1 rest p',
    simulateFuture fuel b pl pm depth = Ret fv /\
    moves fv = pm :: rest /\
    Move.execute (clone b) (fromRow pm) (fromCol pm) (move pm) = Ret b1 /\
    playout b1 (opponentOf pl) rest (finalBoard fv) p' /\
    (length (moves fv) <= 6)%nat /\
    Z.of_nat (length rest) <= Z.max 0 depth /\
    ((length (moves fv) < 6)%nat -> Z.of_nat (length rest) < depth ->
     getAllValidMoves (finalBoard fv) p' = []) /\
    evaluation fv = Fin (evaluate (finalBoard fv) pl) /\
    description fv = describeVision (evaluation fv) pl.
Proof.
  intros Hf Hin.
  destruct (execute_generated b pl pm Hin) as [b1 Hb1].
  destruct (simLoop_spec fuel depth Hf simBound b1 (opponentOf pl) [pm] 0)
    as (b' & ext & p' & Hr & Hp & Hl & Hlen & Hstop); [unfold simBound; cbn; lia|cbn; lia|].
  unfold simulateFuture, mbind, outcome_mbind. rewrite Hb1. cbn [obind]. rewrite Hr.
  cbn [obind].
  eexists _, b1, ext, p'. split; [reflexivity|]. cbn [moves finalBoard evaluation description].
  split; [reflexivity|]. split; [reflexivity|]. split; [exact Hp|].
  split; [exact Hl|]. split; [rewrite Z.sub_0_r in Hlen; exact Hlen|].
  split; [|split; reflexivity].
  intros H6 Hlt. apply Hstop; [exact H6|lia].
Qed.
End SimFacts.

Module FutureFacts.
Import MoveValidator Evaluator Precog Spec2 MoreFacts SimFacts TieFacts.

Lemma insertDesc_perm v l : Permutation (insertDesc v l) (v :: l).
Proof.
  induction l as [|y l IH]; cbn; [reflexivity|].
  destruct (ext_lt (evaluation y) (evaluation v)); [reflexivity|].
  rewrite IH. apply perm_swap.
Qed.

Lemma fold_insert_perm l acc :
  Permutation (fold_left (fun acc v => insertDesc v acc) l acc) (l ++ acc).
Proof.
  revert acc. induction l as [|v l IH]; intros acc; cbn; [reflexivity|].
  rewrite IH, insertDesc_perm. symmetry. apply Permutation_middle.
Qed.

Lemma sortDesc_perm l : Permutation (sortDesc l) l.
Proof. unfold sortDesc. rewrite fold_insert_perm, app_nil_r. reflexivity. Qed.

Lemma sortedDesc_cons x l :
  sortedDesc (x :: l) = true <->
  sortedDesc l = true /\ match l with [] => True | y :: _ => ext_le (evaluation y) (evaluation x) = true end.
Proof.
  destruct l as [|y l]; cbn; [tauto|]. rewrite andb_true_iff. tauto.
Qed.

Lemma sortedDesc_head x l :
  sortedDesc (x :: l) = true -> forall y, In y l -> ext_le (evaluation y) (evaluation x) = true.
Proof.
  revert x. induction l as [|z l IH]; intros x Hs y Hy; [destruct Hy|].
  apply sortedDesc_cons in Hs as [Hs Hzx]. destruct Hy as [<-|Hy]; [exact Hzx|].
  eapply ext_le_trans; [exact (IH z Hs y Hy)|exact Hzx].
Qed.

Lemma insertDesc_sorted v l : sortedDesc l = true -> sortedDesc (insertDesc v l) = true.
Proof.
  induction l as [|y l IH]; intros Hs; [reflexivity|].
  cbn [insertDesc]. destruct (ext_lt (evaluation y) (evaluation v)) eqn:Hlt.
  - apply sortedDesc_cons. split; [exact Hs|]. apply ext_lt_le. exact Hlt.
  - apply sortedDesc_cons in Hs as [Hs Hy]. apply sortedDesc_cons. split; [exact (IH Hs)|].
    destruct l as [|z l]; cbn [insertDesc].
    + revert Hlt. unfold ext_lt. destruct (ext_le (evaluation v) (evaluation y)); auto.
    + destruct (ext_lt (evaluation z) (evaluation v));
        [revert Hlt; unfold ext_lt; destruct (ext_le (evaluation v) (evaluation y)); auto|exact Hy].
Qed.

Lemma sortDesc_sorted l : sortedDesc (sortDesc l) = true.
Proof.
  unfold sortDesc. assert (H : sortedDesc [] = true) by reflexivity. revert H.
  generalize (@nil FutureVision). induction l as [|v l IH]; intros acc Hacc; cbn; [exact Hacc|].
  apply IH. apply insertDesc_sorted. exact Hacc.
Qed.

Lemma sortedDesc_firstn k l : sortedDesc l = true -> sortedDesc (firstn k l) = true.
Proof.
  revert l. induction k as [|k IH]; intros l Hs; [reflexivity|].
  destruct l as [|x l]; [reflexivity|]. cbn [firstn].
  apply sortedDesc_cons in Hs as [Hs Hx]. apply sortedDesc_cons. split; [exact (IH l Hs)|].
  destruct k, l; cbn; auto.
Qed.

Lemma sortedDesc_split k l :
  sortedDesc l = true ->
  forall v w, In v (firstn k l) -> In w (skipn k l) -> ext_le (evaluation w) (evaluation v) = true.
Proof.
  revert l. induction k as [|k IH]; intros l Hs v w Hv Hw; [destruct Hv|].
  destruct l as [|x l]; [destruct Hv|]. cbn [firstn skipn] in Hv, Hw.
  destruct Hv as [<-|Hv].
  - apply (sortedDesc_head x l Hs). rewrite <- (firstn_skipn k l). apply in_or_app. right. exact Hw.
  - apply sortedDesc_cons in Hs as [Hs _]. exact (IH l Hs v w Hv Hw).
Qed.

Lemma mapOutcome_ok {A B} (f : A -> outcome B) (l : list A) :
  (forall x, In x l -> exists y, f x = Ret y) ->
  exists ys, mapOutcome f l = Ret ys /\ Forall2 (fun x y => f x = Ret y) l ys.
Proof.
  induction l as [|x l IH]; intros H; [exists []; split; [reflexivity|constructor]|].
  destruct (H x (or_introl eq_refl)) as [y Hy].
  destruct IH as (ys & Hys & HF); [intros z Hz; apply H; right; exact Hz|].
  exists (y :: ys). cbn [mapOutcome]. unfold mbind, outcome_mbind. rewrite Hy. cbn [obind].
  rewrite Hys. split; [reflexivity|constructor; assumption].
Qed.
End FutureFacts.

Module RendererFacts.
Import MoveValidator Game Renderer MoreFacts.

Lemma landing_guard lr lc :
  (lr <? 0) || (8 <=? lr) || (lc <? 0) || (8 <=? lc) = negb (isValidPosition lr lc).
Proof.
  unfold isValidPosition.
  destruct (Z.ltb_spec lr 0), (Z.leb_spec 8 lr), (Z.ltb_spec lc 0), (Z.leb_spec 8 lc),
    (Z.leb_spec 0 lr), (Z.ltb_spec lr 8), (Z.leb_spec 0 lc), (Z.ltb_spec lc 8);
    reflexivity || lia.
Qed.

Lemma getCaptureMoves_king b r c pl :
  Renderer.getCaptureMoves b r c pl =
  match getPieceAt b r c with
  | Some pc => if bool_decide (player pc = pl)
               then MoveValidator.getCaptureMoves b r c pl PieceType.King else []
  | None => []
  end.
Proof.
  unfold Renderer.getCaptureMoves, MoveValidator.getCaptureMoves.
  destruct (getPieceAt b r c) as [pc|]; [|reflexivity].
  destruct (bool_decide (player pc = pl)); [|reflexivity].
  cbn [getDirections]. apply flat_map_ext_in. intros [dr dc] _.
  rewrite landing_guard. reflexivity.
Qed.

Lemma validator_captures_incl b r c pl ty :
  incl (MoveValidator.getCaptureMoves b r c pl ty) (MoveValidator.getCaptureMoves b r c pl PieceType.King).
Proof.
  intros m Hm. apply in_getCaptureMoves in Hm as (dr & dc & Hd & Hrest).
  apply in_getCaptureMoves. exists dr, dc. split; [|exact Hrest].
  destruct (getDirections_unit _ _ _ _ Hd) as [H1 H2]. apply getDirections_king; assumption.
Qed.

Lemma in_getAllCaptureMoves b pl m :
  In m (getAllCaptureMoves b pl) <->
  exists pc r c, In (pc, r, c) (getPieces b pl) /\ In m (Renderer.getCaptureMoves b r c pl).
Proof.
  unfold getAllCaptureMoves. rewrite in_flat_map. split.
  - intros ([[pc r] c] & Hin & Hm). exists pc, r, c. split; assumption.
  - intros (pc & r & c & Hin & Hm). exists (pc, r, c). split; assumption.
Qed.

Lemma getSquareName_range r c :
  0 <= r < 8 -> 0 <= c < 8 -> getSquareName r c = [97 + c; 56 - r].
Proof.
  intros Hr Hc. unfold getSquareName, fromCharCode.
  rewrite Z.mod_small by lia.
  assert (r = 0 \/ r = 1 \/ r = 2 \/ r = 3 \/ r = 4 \/ r = 5 \/ r = 6 \/ r = 7) as Hr' by lia.
  destruct Hr' as [->|[->|[->|[->|[->|[->|[->| ->]]]]]]]; reflexivity.
Qed.
End RendererFacts.

Module GameFacts.
Import MoveValidator Evaluator Precog Game Renderer MoreFacts SimFacts.

Lemma updateVisions_frame fuel st st' :
  updateVisions fuel st = Ret st' -> st' = set_currentVisions st (currentVisions st').
Proof.
  unfold updateVisions, mbind, outcome_mbind.
  destruct (selectedPiece st); [|intros H; injection H as <-; reflexivity].
  destruct (visionsEnabled st); [|intros H; injection H as <-; reflexivity].
  destruct (getFutures _ _ _ _ _); cbn [obind]; intros H; try discriminate.
  injection H as <-. reflexivity.
Qed.

Lemma checkGameOver_frame st : checkGameOver st = set_status st (status (checkGameOver st)).
Proof.
  unfold checkGameOver.
  destruct (getPieces (board st) Player.Red); [reflexivity|].
  destruct (getPieces (board st) Player.Black); [reflexivity|].
  destruct (getAllValidMoves (board st) (currentPlayer st)); [reflexivity|].
  destruct st; reflexivity.
Qed.

Lemma checkGameOver_status st :
  status (checkGameOver st) = status st \/ status (checkGameOver st) = RedWins \/
  status (checkGameOver st) = BlackWins.
Proof.
  unfold checkGameOver.
  destruct (getPieces (board st) Player.Red); [cbn; tauto|].
  destruct (getPieces (board st) Player.Black); [cbn; tauto|].
  destruct (getAllValidMoves (board st) (currentPlayer st)); [|tauto].
  destruct (currentPlayer st); cbn; tauto.
Qed.

Definition noDraw (st : GameState) : Prop := status st <> Draw.

Lemma checkGameOver_noDraw st : noDraw st -> noDraw (checkGameOver st).
Proof.
  unfold noDraw. intros H. destruct (checkGameOver_status st) as [->|[->| ->]]; congruence.
Qed.

Lemma switchTurn_noDraw st : noDraw st -> noDraw (switchTurn st).
Proof.
  intros H. unfold switchTurn.
  assert (H2 : noDraw (checkGameOver (set_currentPlayer st
             (match currentPlayer st with Player.Red => Player.Black | Player.Black => Player.Red end))))
    by (apply checkGameOver_noDraw; exact H).
  destruct (_ && _); [exact H2|exact H2].
Qed.

Lemma endTurn_noDraw st : noDraw st -> noDraw (endTurn st).
Proof. intros H. apply switchTurn_noDraw. exact H. Qed.

Lemma selectPiece_frame fuel st r c ok st' :
  selectPiece fuel st r c = Ret (ok, st') ->
  board st' = board st /\ currentPlayer st' = currentPlayer st /\ status st' = status st /\
  moveHistory st' = moveHistory st /\ aiPending st' = aiPending st.
Proof.
  unfold selectPiece.
  destruct (negb (bool_decide (status st = Active))); [intros H; injection H as _ <-; tauto|].
  destruct (negb (bool_decide (currentPlayer st = humanPlayer st)));
    [intros H; injection H as _ <-; tauto|].
  destruct (getPieceAt (board st) r c) as [piece|]; [|intros H; injection H as _ <-; cbn; tauto].
  destruct (bool_decide (player piece = currentPlayer st)); [|intros H; injection H as _ <-; cbn; tauto].
  destruct (List.filter _ _) as [|pm0 pms]; [intros H; injection H as _ <-; cbn; tauto|].
  unfold mbind, outcome_mbind.
  destruct (visionsEnabled _) eqn:Hv.
  - destruct (updateVisions _ _) as [st2| |] eqn:Hu; cbn [obind]; intros H; try discriminate.
    injection H as _ <-. apply updateVisions_frame in Hu. rewrite Hu. cbn. tauto.
  - cbn [obind]. intros H; injection H as _ <-. cbn. tauto.
Qed.

Ltac bind_in H :=
  unfold mbind, outcome_mbind in H;
  match type of H with
  | context [obind ?m _] =>
      let E := fresh "E" in let x := fresh "x" in
      destruct m as [x| |] eqn:E; cbn [obind] in H; try discriminate H
  end.

Lemma Ret_inj {A} (a b : A) : Ret a = Ret b -> a = b.
Proof. intros H. injection H. auto. Qed.

Lemma executeMove_noDraw fuel st fr fc m st' :
  noDraw st -> executeMove fuel st fr fc m = Ret st' -> noDraw st'.
Proof.
  intros Hn H. unfold executeMove in H.
  destruct (getPieceAt (board st) fr fc) as [piece|]; [|injection H as <-; exact Hn].
  bind_in H.
  destruct (isCapture m).
  - bind_in H.
    destruct (existsb _ _); apply Ret_inj in H; subst st'.
    + exact Hn.
    + apply endTurn_noDraw. exact Hn.
  - apply Ret_inj in H; subst st'. apply endTurn_noDraw. exact Hn.
Qed.

Lemma makeMove_noDraw fuel st r c ok st' :
  noDraw st -> makeMove fuel st r c = Ret (ok, st') -> noDraw st'.
Proof.
  intros Hn H. unfold makeMove in H.
  destruct (selectedPiece st) as [[sr sc]|]; [|injection H as _ <-; exact Hn].
  destruct (negb _); [injection H as _ <-; exact Hn|].
  destruct (negb _); [injection H as _ <-; exact Hn|].
  destruct (List.find _ _) as [m|]; [|injection H as _ <-; exact Hn].
  bind_in H. injection H as _ <-.
  eapply executeMove_noDraw; [|eassumption]. exact Hn.
Qed.

Lemma makeAIMoveResume_noDraw fuel st st' :
  noDraw st -> makeAIMoveResume fuel st = Ret st' -> noDraw st'.
Proof.
  intros Hn H. unfold makeAIMoveResume in H.
  bind_in H. destruct x as [r|].
  - bind_in H. bind_in H. destruct x0 as [[b2 hist2] finalPos].
    injection H as <-. apply switchTurn_noDraw. exact Hn.
  - injection H as <-. apply checkGameOver_noDraw. exact Hn.
Qed.

Lemma toggleVisions_noDraw fuel st st' :
  noDraw st -> toggleVisions fuel st = Ret st' -> noDraw st'.
Proof.
  intros Hn H. unfold toggleVisions in H.
  destruct (negb _); [injection H as <-; exact Hn|].
  destruct (selectedPiece _); [|injection H as <-; exact Hn].
  apply updateVisions_frame in H. rewrite H. exact Hn.
Qed.

Lemma startWithPlayer_status st h : status (startWithPlayer st h) = Active.
Proof. unfold startWithPlayer. destruct (bool_decide _); reflexivity. Qed.

Lemma step_noDraw fuel st ev st' :
  noDraw st -> Renderer.step fuel st ev = Ret st' -> noDraw st'.
Proof.
  intros Hn H. destruct ev as [r c|h| | |]; cbn [Renderer.step] in H.
  - unfold handleSquareClick in H. destruct (existsb _ _).
    + bind_in H. destruct x as [ok s]. injection H as <-.
      eapply makeMove_noDraw; eassumption.
    + bind_in H. destruct x as [ok s]. injection H as <-.
      apply selectPiece_frame in E as (_ & _ & Hs & _). unfold noDraw. rewrite Hs. exact Hn.
  - injection H as <-. unfold noDraw. rewrite startWithPlayer_status. discriminate.
  - injection H as <-. unfold noDraw. cbn. discriminate.
  - eapply toggleVisions_noDraw; eassumption.
  - destruct (aiPending st); [injection H as <-; exact Hn|].
    eapply makeAIMoveResume_noDraw; [|eassumption]. exact Hn.
Qed.

Lemma run_noDraw fuel evs : forall st st',
  noDraw st -> Renderer.run fuel st evs = Ret st' -> noDraw st'.
Proof.
  induction evs as [|ev evs IH]; intros st st' Hn H; cbn [Renderer.run] in H.
  - injection H as <-. exact Hn.
  - bind_in H. eapply IH; [|exact H]. eapply step_noDraw; eassumption.
Qed.

Lemma in_map_move_filter (all : list PieceMove) r c m :
  In m (map move (List.filter (fun pm => Z.eqb (fromRow pm) r && Z.eqb (fromCol pm) c) all)) <->
  In (mkPieceMove r c m) all.
Proof.
  rewrite in_map_iff. split.
  - intros [pm [<- Hin]]. apply filter_In in Hin as [Hin Hf].
    apply andb_true_iff in Hf as [H1 H2]. apply Z.eqb_eq in H1, H2. subst.
    rewrite pieceMove_eta. exact Hin.
  - intros Hin. exists (mkPieceMove r c m). split; [reflexivity|].
    apply filter_In. split; [exact Hin|]. cbn. rewrite !Z.eqb_refl. reflexivity.
Qed.

Lemma all_captures_if_any b pl :
  (exists pm, In pm (getAllValidMoves b pl) /\ Move.type (move pm) = MoveType.Capture) ->
  forall pm, In pm (getAllValidMoves b pl) -> Move.type (move pm) = MoveType.Capture.
Proof.
  rewrite getAllValidMoves_eq. destruct (anyCapture b pl).
  - intros _ pm Hpm. apply in_allCaptures in Hpm as [pc [_ Hm]].
    eapply getCaptureMoves_type; exact Hm.
  - intros [pm [Hpm Ht]]. apply in_allRegular in Hpm as [pc [_ Hm]].
    apply getRegularMoves_type in Hm. congruence.
Qed.

(** The promotion rule of [movePiece], as the [wasPromotion] flag reads it. *)
Definition promotes (pc : Piece) (toRow : Z) : bool :=
  bool_decide (type pc = PieceType.Regular) &&
  match player pc with Player.Red => Z.eqb toRow 7 | Player.Black => Z.eqb toRow 0 end.

Lemma execute_lands b pl fr fc m :
  In (mkPieceMove fr fc m) (getAllValidMoves b pl) ->
  exists pc nb pc',
    getPieceAt b fr fc = Some pc /\ player pc = pl /\
    Move.execute b fr fc m = Ret nb /\
    getPieceAt nb (Move.toRow m) (Move.toCol m) = Some pc' /\ player pc' = pl /\
    promoted (bool_decide (type pc = PieceType.King)) (Some pc') = promotes pc (Move.toRow m).
Proof.
  intros Hin. pose proof (legal_in_range _ _ _ Hin) as [Hvf Hvt]. cbn in Hvf, Hvt.
  apply in_getAllValidMoves in Hin as (pc & Hp & Hpl & Hm). cbn in Hp, Hm.
  apply getPieces_getPieceAt in Hp as [Hpc _].
  pose proof Hpc as Hb. apply getPieceAt_Some in Hb as [Hrc Hb].
  (* the square removed by a capture is not the source square *)
  assert (Hb1 : exists b1, Move.execute b fr fc m = movePiece b1 fr fc (Move.toRow m) (Move.toCol m)
                /\ b1 !! (fr, fc) = Some pc).
  { destruct Hm as [Hm|Hm].
    - pose proof Hm as Hm'. apply in_getCaptureMoves in Hm' as (dr & dc & Hd & -> & _).
      apply getDirections_unit in Hd.
      eexists. split; [reflexivity|]. cbn. unfold removePiece.
      destruct (isValidPosition (fr + dr) (fc + dc)); [|exact Hb].
      rewrite lookup_delete_ne by (intros Heq; injection Heq; lia). exact Hb.
    - apply in_getRegularMoves in Hm as (dr & dc & _ & -> & _).
      eexists. split; [reflexivity|exact Hb]. }
  destruct Hb1 as (b1 & -> & Hb1).
  apply isValidPosition_true in Hvt.
  unfold movePiece. rewrite (proj2 (rowExists_true fr)) by lia. cbn [negb].
  rewrite Hb1. rewrite (proj2 (rowExists_true _)) by lia. cbn [negb].
  eexists pc, _, _. split; [exact Hpc|]. split; [exact Hpl|]. split; [reflexivity|].
  split.
  { unfold getPieceAt. rewrite (proj2 (isValidPosition_true _ _)) by lia.
    rewrite lookup_insert_eq. reflexivity. }
  destruct pc as [pp pt]. cbn in Hpl |- *. subst pl.
  unfold promotes. destruct pt, pp; cbn;
    repeat match goal with |- context [Z.eqb ?x ?y] => destruct (Z.eqb x y) end;
    cbn; auto.
Qed.

Lemma getCaptureChains_continues b r c pc :
  getPieceAt b r c = Some pc ->
  exists chains, getCaptureChains b r c = Ret chains /\
    existsb (fun ch => negb (Nat.eqb (length ch) 0)) chains =
    negb (bool_decide (MoveValidator.getCaptureMoves b r c (player pc) (type pc) = [])).
Proof.
  intros Hpc.
  assert (Hpc' : getPieceAt (clone b) r c = Some pc) by (rewrite getPieceAt_clone; exact Hpc).
  destruct (findCaptureChains_total chainFuel (clone b) r c pc [] Hpc') as (res & Hres & Hne).
  { pose proof (oppCount_le (clone b) (player pc)). unfold chainFuel. lia. }
  assert (Hg : getCaptureChains b r c = Ret res) by (unfold getCaptureChains; rewrite Hpc; exact Hres).
  exists res. split; [exact Hg|].
  destruct (MoveValidator.getCaptureMoves b r c (player pc) (type pc)) eqn:E.
  - unfold chainFuel in Hres. cbn [findCaptureChains] in Hres.
    rewrite getCaptureMoves_clone, E in Hres. injection Hres as <-. reflexivity.
  - rewrite bool_decide_false by discriminate. cbn [negb].
    destruct res as [|ch res]; [exfalso; apply Hne; [right; rewrite getCaptureMoves_clone, E; discriminate|reflexivity]|].
    destruct (getCaptureChains_replays b r c _ ch Hg (or_introl eq_refl))
      as (pc0 & b' & r' & c' & pc' & _ & Hch & _).
    cbn [existsb]. destruct ch; [congruence|reflexivity].
Qed.

Lemma switchTurn_fields st :
  currentPlayer (switchTurn st) = opponentOf (currentPlayer st) /\
  board (switchTurn st) = board st /\ moveHistory (switchTurn st) = moveHistory st /\
  selectedPiece (switchTurn st) = selectedPiece st /\ validMoves (switchTurn st) = validMoves st /\
  aiPlayer (switchTurn st) = aiPlayer st /\ humanPlayer (switchTurn st) = humanPlayer st /\
  aiDepth (switchTurn st) = aiDepth st /\ lastAIMove (switchTurn st) = lastAIMove st.
Proof.
  unfold switchTurn. rewrite checkGameOver_frame.
  destruct (_ && _); cbn; destruct (currentPlayer st); repeat split.
Qed.

Lemma capturedOf_legal b pl fr fc m :
  In (mkPieceMove fr fc m) (getAllValidMoves b pl) ->
  capturedOf m = if isCapture m then Some (Move.capturedRow m, Move.capturedCol m) else None.
Proof.
  intros Hin. apply in_getAllValidMoves in Hin as (pc & _ & _ & [Hm|Hm]); cbn in Hm.
  - apply in_getCaptureMoves in Hm as (dr & dc & _ & -> & _). reflexivity.
  - apply in_getRegularMoves in Hm as (dr & dc & _ & -> & _). reflexivity.
Qed.

Lemma filter_isCapture_all (l : list Move.t) :
  (forall y, In y l -> Move.type y = MoveType.Capture) -> List.filter isCapture l = l.
Proof.
  induction l as [|y l IHl]; intros Hy; [reflexivity|]. cbn [List.filter].
  unfold isCapture at 1. rewrite bool_decide_true by (apply Hy; left; reflexivity).
  f_equal. apply IHl. intros z Hz. apply Hy. right. exact Hz.
Qed.

Lemma filter_isCapture_none (l : list Move.t) :
  (forall y, In y l -> Move.type y = MoveType.Regular) -> List.filter isCapture l = [].
Proof.
  induction l as [|y l IHl]; intros Hy; [reflexivity|]. cbn [List.filter].
  unfold isCapture at 1. rewrite bool_decide_false by (rewrite Hy by (left; reflexivity); discriminate).
  apply IHl. intros z Hz. apply Hy. right. exact Hz.
Qed.

(** The captures the game state offers from a square. *)
Lemma filter_isCapture_getValidMoves b r c pc :
  getPieceAt b r c = Some pc ->
  List.filter isCapture (getValidMoves b r c) =
  MoveValidator.getCaptureMoves b r c (player pc) (type pc).
Proof.
  intros Hpc. unfold getValidMoves. rewrite Hpc.
  destruct (MoveValidator.getCaptureMoves b r c (player pc) (type pc)) as [|x xs] eqn:E.
  - apply filter_isCapture_none. intros y Hy. eapply getRegularMoves_type. exact Hy.
  - rewrite <- E. apply filter_isCapture_all. intros y Hy. eapply getCaptureMoves_type. exact Hy.
Qed.

(** A capture played on the board itself, seen through [execute_clone]. *)
Lemma execute_capture_inplace b r c pc m :
  getPieceAt b r c = Some pc ->
  In m (MoveValidator.getCaptureMoves b r c (player pc) (type pc)) ->
  exists nb pc',
    Move.execute b r c m = Ret nb /\
    getPieceAt nb (Move.toRow m) (Move.toCol m) = Some pc' /\
    player pc' = player pc /\
    (oppCount nb (player pc) < oppCount b (player pc))%nat.
Proof.
  intros Hpc Hm.
  destruct (oppCount_capture b r c pc m Hpc Hm) as (nb & pc' & Hex & Hl & Hp & Hlt).
  pose proof Hpc as Hrc. apply getPieceAt_Some in Hrc as [Hrc _].
  pose proof Hm as Hm'. apply in_getCaptureMoves in Hm' as (dr & dc & _ & Hmeq & Hv & _).
  rewrite execute_clone in Hex.
  2: { apply isValidPosition_true. exact Hrc. }
  2: { rewrite Hmeq. exact Hv. }
  destruct (Move.execute b r c m) as [nb0| |]; try discriminate.
  injection Hex as <-. exists nb0, pc'. split; [reflexivity|].
  rewrite getPieceAt_clone in Hl. split; [exact Hl|]. split; [exact Hp|].
  unfold oppCount in *. rewrite getPieces_clone in Hlt. exact Hlt.
Qed.

Lemma aiJumpLoop_total n : forall ai b pos hist pc,
  getPieceAt b pos.1 pos.2 = Some pc -> player pc = ai -> (oppCount b ai < n)%nat ->
  exists b' recs pos' pc',
    aiJumpLoop n ai b pos hist = Ret (b', hist ++ recs, pos') /\
    Forall (fun r => mr_player r = ai /\ wasPromotion r = false /\
                     exists cr cc, captured r = Some (Some cr, Some cc)) recs /\
    getPieceAt b' pos'.1 pos'.2 = Some pc' /\ player pc' = ai /\
    MoveValidator.getCaptureMoves b' pos'.1 pos'.2 ai (type pc') = [].
Proof.
  induction n as [|n IH]; intros ai b pos hist pc Hpc Hpl Hn; [lia|].
  cbn [aiJumpLoop]. rewrite (filter_isCapture_getValidMoves _ _ _ _ Hpc).
  destruct (MoveValidator.getCaptureMoves b pos.1 pos.2 (player pc) (type pc)) as [|x xs] eqn:E.
  - exists b, [], pos, pc. rewrite app_nil_r. rewrite <- Hpl. auto.
  - assert (Hx : In x (MoveValidator.getCaptureMoves b pos.1 pos.2 (player pc) (type pc)))
      by (rewrite E; left; reflexivity).
    destruct (execute_capture_inplace _ _ _ _ _ Hpc Hx) as (nb & pc' & Hex & Hl & Hp & Hlt).
    unfold mbind, outcome_mbind. rewrite Hex. cbn [obind].
    destruct (IH ai nb (Move.toRow x, Move.toCol x)
                (hist ++ [mkMoveRecord ai pos (Move.toRow x, Move.toCol x)
                            (Some (Move.capturedRow x, Move.capturedCol x)) false]) pc')
      as (b' & recs & pos' & pc'' & Hloop & Hrecs & Hl' & Hp' & Hc'); cbn [fst snd]; try congruence.
    { rewrite Hpl in Hlt. lia. }
    exists b', (mkMoveRecord ai pos (Move.toRow x, Move.toCol x)
                  (Some (Move.capturedRow x, Move.capturedCol x)) false :: recs), pos', pc''.
    rewrite <- app_assoc in Hloop. split; [exact Hloop|].
    split; [|auto]. constructor; [|exact Hrecs]. cbn. split; [reflexivity|]. split; [reflexivity|].
    apply in_getCaptureMoves in Hx as (dr & dc & _ & -> & _). cbn. eauto.
Qed.
Lemma makeAIMoveResume_spec (fuel : nat) (st : GameState) :
  1 <= aiDepth st -> (Z.to_nat (aiDepth st) <= fuel)%nat ->
  (getAllValidMoves (board st) (aiPlayer st) = [] /\
   makeAIMoveResume fuel st = Ret (checkGameOver st)) \/
  exists br pc st' recs pos pc',
    Minimax.findBestMove fuel (board st) (aiPlayer st) (aiDepth st) = Ret (Some br) /\
    In (mkPieceMove (sr_fromRow br) (sr_fromCol br) (sr_move br))
       (getAllValidMoves (board st) (aiPlayer st)) /\
    getPieceAt (board st) (sr_fromRow br) (sr_fromCol br) = Some pc /\
    makeAIMoveResume fuel st = Ret st' /\
    moveHistory st' =
      moveHistory st ++
      mkMoveRecord (aiPlayer st) (sr_fromRow br, sr_fromCol br)
        (Move.toRow (sr_move br), Move.toCol (sr_move br))
        (if isCapture (sr_move br)
         then Some (Move.capturedRow (sr_move br), Move.capturedCol (sr_move br)) else None)
        (promotes pc (Move.toRow (sr_move br))) :: recs /\
    Forall (fun r => mr_player r = aiPlayer st /\ wasPromotion r = false /\
                     exists cr cc, captured r = Some (Some cr, Some cc)) recs /\
    (isCapture (sr_move br) = false ->
       recs = [] /\ pos = (Move.toRow (sr_move br), Move.toCol (sr_move br)) /\
       Move.execute (board st) (sr_fromRow br) (sr_fromCol br) (sr_move br) = Ret (board st')) /\
    lastAIMove st' = Some pos /\
    getPieceAt (board st') pos.1 pos.2 = Some pc' /\ player pc' = aiPlayer st /\
    (isCapture (sr_move br) = true ->
       MoveValidator.getCaptureMoves (board st') pos.1 pos.2 (aiPlayer st) (type pc') = []) /\
    currentPlayer st' = Evaluator.opponentOf (currentPlayer st) /\
    selectedPiece st' = selectedPiece st /\ validMoves st' = validMoves st /\
    st' = switchTurn (set_lastAIMove (set_moveHistory (set_board st (board st'))
                        (moveHistory st')) (Some pos)).
Proof.
  intros Hd Hf.
  destruct (findBestMove_root fuel (board st) (aiPlayer st) (aiDepth st) Hd Hf)
    as [(Hnone & Hfb & _)|(br & T & _ & Hfb & _)].
  - left. split; [exact Hnone|]. unfold makeAIMoveResume, mbind, outcome_mbind.
    rewrite Hfb. reflexivity.
  - right. pose proof (findBestMove_in _ _ _ _ _ Hfb) as Hin.
    destruct (execute_lands _ _ _ _ _ Hin) as (pc & nb & pc1 & Hpc & Hpl & Hex & Hl & Hpl1 & Hpr).
    set (m := sr_move br) in *.
    set (record := mkMoveRecord (aiPlayer st) (sr_fromRow br, sr_fromCol br)
                     (Move.toRow m, Move.toCol m) (capturedOf m) (promotes pc (Move.toRow m))).
    assert (Hres : exists b2 recs pos pc',
      (if isCapture m
       then aiJumpLoop jumpFuel (aiPlayer st) nb (Move.toRow m, Move.toCol m)
              (moveHistory st ++ [record])
       else Ret (nb, moveHistory st ++ [record], (Move.toRow m, Move.toCol m)))
      = Ret (b2, moveHistory st ++ [record] ++ recs, pos) /\
      Forall (fun r => mr_player r = aiPlayer st /\ wasPromotion r = false /\
                       exists cr cc, captured r = Some (Some cr, Some cc)) recs /\
      (isCapture m = false -> recs = [] /\ pos = (Move.toRow m, Move.toCol m) /\
         Move.execute (board st) (sr_fromRow br) (sr_fromCol br) m = Ret b2) /\
      getPieceAt b2 pos.1 pos.2 = Some pc' /\ player pc' = aiPlayer st /\
      (isCapture m = true ->
         MoveValidator.getCaptureMoves b2 pos.1 pos.2 (aiPlayer st) (type pc') = [])).
    { destruct (isCapture m).
      - destruct (aiJumpLoop_total jumpFuel (aiPlayer st) nb (Move.toRow m, Move.toCol m)
                    (moveHistory st ++ [record]) pc1 Hl Hpl1)
          as (b2 & recs & pos & pc' & Hloop & Hrecs & Hl2 & Hp2 & Hc2).
        { pose proof (oppCount_le nb (aiPlayer st)). unfold jumpFuel. lia. }
        exists b2, recs, pos, pc'. rewrite <- app_assoc in Hloop.
        split; [exact Hloop|]. split; [exact Hrecs|]. split; [discriminate|]. auto.
      - exists nb, [], (Move.toRow m, Move.toCol m), pc1. rewrite app_nil_r.
        split; [reflexivity|]. split; [constructor|]. split; [auto|].
        split; [exact Hl|]. split; [exact Hpl1|]. discriminate. }
    destruct Hres as (b2 & recs & pos & pc' & Hjump & Hrecs & Hq & Hl2 & Hp2 & Hc2).
    set (st' := switchTurn (set_lastAIMove (set_moveHistory (set_board st b2)
                  (moveHistory st ++ [record] ++ recs)) (Some pos))).
    assert (Hrun : makeAIMoveResume fuel st = Ret st').
    { unfold makeAIMoveResume, mbind, outcome_mbind. rewrite Hfb. cbn [obind].
      fold m. rewrite Hpc, Hex. cbn [obind].
      match goal with |- context [promoted ?w (getPieceAt nb ?r ?c)] =>
        replace (promoted w (getPieceAt nb r c)) with (promotes pc (Move.toRow m))
          by (rewrite Hl; symmetry; exact Hpr) end.
      fold record. rewrite Hjump. reflexivity. }
    pose proof (switchTurn_fields (set_lastAIMove (set_moveHistory (set_board st b2)
                  (moveHistory st ++ [record] ++ recs)) (Some pos)))
      as (H1 & H2 & H3 & H4 & H5 & _ & _ & _ & H9).
    fold st' in H1, H2, H3, H4, H5, H9. cbn in H1, H2, H3, H4, H5, H9.
    exists br, pc, st', recs, pos, pc'. fold m.
    rewrite <- (capturedOf_legal _ _ _ _ _ Hin).
    split; [exact Hfb|]. split; [exact Hin|]. split; [exact Hpc|]. split; [exact Hrun|].
    rewrite H2.
    split; [rewrite H3; reflexivity|]. split; [exact Hrecs|]. split; [exact Hq|].
    split; [exact H9|]. split; [exact Hl2|]. split; [exact Hp2|].
    split; [exact Hc2|]. split; [exact H1|]. split; [exact H4|]. split; [exact H5|].
    rewrite H3. reflexivity.
Qed.

(** Black's seven opening steps from the initial position. *)
Lemma black_openings pm :
  In pm (getAllValidMoves createInitialBoard Player.Black) ->
  isCapture (move pm) = false /\
  exists nb, Move.execute createInitialBoard (fromRow pm) (fromCol pm) (move pm) = Ret nb /\
    getPieces nb Player.Red <> [] /\ getPieces nb Player.Black <> [] /\
    getAllValidMoves nb Player.Black <> [].
Proof.
  intros Hin.
  assert (Hall : forallb (fun pm =>
             negb (isCapture (move pm)) &&
             match Move.execute createInitialBoard (fromRow pm) (fromCol pm) (move pm) with
             | Ret nb => negb (Nat.eqb (length (getPieces nb Player.Red)) 0) &&
                         negb (Nat.eqb (length (getPieces nb Player.Black)) 0) &&
                         negb (Nat.eqb (length (getAllValidMoves nb Player.Black)) 0)
             | _ => false
             end) (getAllValidMoves createInitialBoard Player.Black) = true)
    by (vm_compute; reflexivity).
  rewrite forallb_forall in Hall. specialize (Hall pm Hin).
  apply andb_true_iff in Hall as [Hc Hx]. apply negb_true_iff in Hc. split; [exact Hc|].
  destruct (Move.execute _ _ _ _) as [nb| |]; [|discriminate|discriminate].
  exists nb. split; [reflexivity|].
  apply andb_true_iff in Hx as [Hx H3]. apply andb_true_iff in Hx as [H1 H2].
  split; [|split]; intros E;
    [rewrite E in H1; discriminate|rewrite E in H2; discriminate|rewrite E in H3; discriminate].
Qed.
End GameFacts.

Module EvalFacts.
Import Evaluator.

Definition pieceSum (l : list (Piece * Z * Z)) (pl : Player.t) : Z :=
  fold_left (fun score '(piece, row, col) => score + evaluatePiece piece row col pl) l 0.

Lemma fold_plus l pl a :
  fold_left (fun score '(piece, row, col) => score + evaluatePiece piece row col pl) l a =
  a + pieceSum l pl.
Proof.
  unfold pieceSum. revert a. induction l as [|[[p r] c] l IH]; intros a; cbn; [lia|].
  rewrite (IH (a + _)), (IH (0 + _)). lia.
Qed.

Lemma fold_minus l pl a :
  fold_left (fun score '(piece, row, col) => score - evaluatePiece piece row col pl) l a =
  a - pieceSum l pl.
Proof.
  unfold pieceSum. revert a. induction l as [|[[p r] c] l IH]; intros a; cbn; [lia|].
  rewrite (IH (a - _)), (fold_plus l pl (0 + _)). unfold pieceSum. lia.
Qed.
End EvalFacts.

(* ------------------------------------------------------------------ *)
(** ** The properties *)

Import MoveValidator Spec2 MoreFacts TieFacts Demo.

(** X1: for depth >= 1, the move [findBestMove] returns is the first move
    of [getAllValidMoves] with the best full-minimax value: the reported
    score is its value, every earlier move has a strictly lower value and
    every later move a lower or equal one. *)
Theorem findBestMove_first_best (fuel : nat) (b : Board) (p : Player.t) (depth : Z)
    (br : SearchResult) :
  1 <= depth -> (Z.to_nat depth <= fuel)%nat ->
  Minimax.findBestMove fuel b p depth = Ret (Some br) ->
  exists pre post,
    getAllValidMoves b p =
      pre ++ mkPieceMove (sr_fromRow br) (sr_fromCol br) (sr_move br) :: post /\
    childScore b p (Nat.pred (Z.to_nat depth))
      (mkPieceMove (sr_fromRow br) (sr_fromCol br) (sr_move br)) = Ret (score br) /\
    (forall q t, In q pre -> childScore b p (Nat.pred (Z.to_nat depth)) q = Ret t ->
       ext_lt t (score br) = true) /\
    (forall q t, In q post -> childScore b p (Nat.pred (Z.to_nat depth)) q = Ret t ->
       ext_le t (score br) = true).
Proof.
  intros Hd Hf Hfb.
  assert (H := root_children fuel b p depth Hd Hf).
  unfold Minimax.findBestMove in Hfb.
  destruct (getAllValidMoves b p) as [|pm ms] eqn:Hm; [discriminate|].
  destruct (H pm (or_introl eq_refl)) as (nb & t & Hex & Hfull & Hwin).
  destruct (Hwin NegInf) as (v & Hv & Hcl). rewrite !clamp_NegInf_PosInf in Hcl. subst v.
  assert (Hc : childScore b p (Nat.pred (Z.to_nat depth)) pm = Ret t)
    by (eapply childScore_eq; eassumption).
  cbn [Minimax.bestLoop] in Hfb. unfold mbind, outcome_mbind in Hfb. rewrite Hex in Hfb.
  cbn [obind] in Hfb. rewrite Hv in Hfb. cbn [obind] in Hfb. rewrite emax_NegInf_l in Hfb.
  destruct (bestLoop_argmax fuel b p depth _ ms (fun q Hin => H q (or_intror Hin))
              (mkSearchResult (fromRow pm) (fromCol pm) (move pm) t) br Hfb) as [Hall Hcase].
  cbn [score] in Hcase.
  destruct Hcase as [->|(pre & q & post & -> & Hbr & Hcq & Hlt & Hpre)].
  - exists [], ms. cbn. rewrite pieceMove_eta. split; [reflexivity|]. split; [exact Hc|].
    split; [intros _ _ []|]. exact Hall.
  - exists (pm :: pre), post. rewrite Hbr. cbn [sr_fromRow sr_fromCol sr_move score].
    rewrite pieceMove_eta. split; [reflexivity|]. split; [exact Hcq|]. split.
    + intros q' t' [<-|Hin] Hc'.
      * rewrite Hc in Hc'. injection Hc' as <-. exact Hlt.
      * exact (Hpre q' t' Hin Hc').
    + intros q' t' Hin Hc'. apply (Hall q' t'); [|exact Hc'].
      apply in_or_app; right; right; exact Hin.
Qed.

Lemma findBestMove_first_best_witness :
  1 <= 1 /\ (Z.to_nat 1 <= 1)%nat /\
  Minimax.findBestMove 1 demoBoard Player.Red 1 = Ret (Some demoResult) /\
  exists pre post,
    getAllValidMoves demoBoard Player.Red =
      pre ++ mkPieceMove (sr_fromRow demoResult) (sr_fromCol demoResult) (sr_move demoResult) :: post /\
    childScore demoBoard Player.Red (Nat.pred (Z.to_nat 1))
      (mkPieceMove (sr_fromRow demoResult) (sr_fromCol demoResult) (sr_move demoResult))
      = Ret (score demoResult) /\
    (forall q t, In q pre -> childScore demoBoard Player.Red (Nat.pred (Z.to_nat 1)) q = Ret t ->
       ext_lt t (score demoResult) = true) /\
    (forall q t, In q post -> childScore demoBoard Player.Red (Nat.pred (Z.to_nat 1)) q = Ret t ->
       ext_le t (score demoResult) = true).
Proof.
  assert (H : Minimax.findBestMove 1 demoBoard Player.Red 1 = Ret (Some demoResult))
    by (vm_compute; reflexivity).
  split; [lia|]. split; [cbn; lia|]. split; [exact H|].
  apply (findBestMove_first_best 1 demoBoard Player.Red 1 demoResult); [lia|cbn; lia|exact H].
Defined.

Import Precog.

(** X2: [describeVision] always returns one of its seven outlooks, and a
    higher score never gets a worse outlook than a lower one (for either
    player argument). *)
Theorem describeVision_monotone (x y : ext) (pl pl' : Player.t) :
  ext_le x y = true ->
  In (describeVision x pl) outlookScale /\
  (indexOf (describeVision x pl) outlookScale <= indexOf (describeVision y pl') outlookScale)%nat.
Proof.
  unfold describeVision, Evaluator.WIN_SCORE, ext_lt.
  destruct x as [|x|], y as [|y|]; cbn [ext_le negb]; intros Hxy;
    try discriminate;
    repeat match goal with
           | |- context [Z.leb ?a ?b] => destruct (Z.leb_spec a b); cbn [negb ext_le]
           | H : context [Z.leb ?a ?b] |- _ => destruct (Z.leb_spec a b); cbn [negb ext_le] in *
           end;
    try discriminate; try lia;
    (split; [cbn [In outlookScale]; repeat (first [left; reflexivity | right]) | vm_compute; lia]).
Qed.

Lemma describeVision_monotone_witness :
  ext_le (Fin 0) (Fin 300) = true /\
  In (describeVision (Fin 0) Player.Red) outlookScale /\
  (indexOf (describeVision (Fin 0) Player.Red) outlookScale <=
   indexOf (describeVision (Fin 300) Player.Black) outlookScale)%nat.
Proof.
  split; [reflexivity|].
  apply (describeVision_monotone (Fin 0) (Fin 300) Player.Red Player.Black). reflexivity.
Defined.

Import FutureFacts SimFacts.

(** X3: [getFutures] computes one vision per legal move and returns the
    best [numVisions] of them (slice semantics: all but the last
    [|numVisions|] ones for a negative count), sorted by decreasing
    evaluation, each scoring at least as high as every vision left out;
    with no legal move it returns the empty list. *)
Theorem getFutures_best (fuel : nat) (b : Board) (pl : Player.t) (numVisions depth : Z) :
  (2 <= fuel)%nat ->
  exists visions res,
    Forall2 (fun pm v => Precog.simulateFuture fuel b pl pm depth = Ret v)
            (getAllValidMoves b pl) visions /\
    Precog.getFutures fuel b pl numVisions depth = Ret res /\
    (getAllValidMoves b pl = [] -> res = []) /\
    sortedDesc res = true /\
    (0 <= numVisions -> length res = Nat.min (Z.to_nat numVisions) (length visions)) /\
    (numVisions < 0 -> length res = (length visions - Z.to_nat (- numVisions))%nat) /\
    exists rest, Permutation (res ++ rest) visions /\
      forall v w, In v res -> In w rest -> ext_le (evaluation w) (evaluation v) = true.
Proof.
  intros Hf.
  destruct (mapOutcome_ok (fun pm => simulateFuture fuel b pl pm depth) (getAllValidMoves b pl))
    as (visions & Hmap & HF).
  { intros pm Hin. destruct (simulateFuture_spec fuel b pl pm depth Hf Hin) as (fv & _ & _ & _ & H & _).
    exists fv. exact H. }
  set (k := Z.to_nat (relIndex (Z.of_nat (length (sortDesc visions))) numVisions)).
  exists visions.
  assert (Hlen : length (sortDesc visions) = length visions)
    by (apply Permutation_length, sortDesc_perm).
  destruct (getAllValidMoves b pl) as [|pm ms] eqn:Hm.
  - inversion HF; subst. exists []. unfold getFutures. rewrite Hm.
    split; [constructor|]. split; [reflexivity|]. split; [reflexivity|]. split; [reflexivity|].
    split; [intros; cbn; lia|]. split; [intros; cbn; lia|].
    exists []. split; [reflexivity|]. intros v w [].
  - exists (firstn k (sortDesc visions)). unfold getFutures. rewrite Hm.
    unfold mbind, outcome_mbind. rewrite Hmap. cbn [obind].
    split; [exact HF|]. split; [reflexivity|]. split; [discriminate|].
    split; [apply sortedDesc_firstn, sortDesc_sorted|].
    split; [unfold k, relIndex; rewrite length_firstn, Hlen;
            intros Hn; destruct (Z.ltb_spec numVisions 0); lia|].
    split; [unfold k, relIndex; rewrite length_firstn, Hlen;
            intros Hn; destruct (Z.ltb_spec numVisions 0); lia|].
    exists (skipn k (sortDesc visions)). split.
    + rewrite firstn_skipn. apply sortDesc_perm.
    + apply sortedDesc_split, sortDesc_sorted.
Qed.

Lemma getFutures_best_witness :
  (2 <= 2)%nat /\
  exists visions res,
    Forall2 (fun pm v => Precog.simulateFuture 2 demoBoard Player.Red pm 3 = Ret v)
            (getAllValidMoves demoBoard Player.Red) visions /\
    Precog.getFutures 2 demoBoard Player.Red 3 3 = Ret res /\
    (getAllValidMoves demoBoard Player.Red = [] -> res = []) /\
    sortedDesc res = true /\
    (0 <= 3 -> length res = Nat.min (Z.to_nat 3) (length visions)) /\
    (3 < 0 -> length res = (length visions - Z.to_nat (- 3))%nat) /\
    exists rest, Permutation (res ++ rest) visions /\
      forall v w, In v res -> In w rest -> ext_le (evaluation w) (evaluation v) = true.
Proof.
  split; [lia|]. apply (getFutures_best 2 demoBoard Player.Red 3 3). lia.
Defined.

(** X4: a move returned by [findBestMove] is one of the moves
    [getAllValidMoves] gives the searching player on that board. *)
Theorem findBestMove_legal (fuel : nat) (b : Board) (p : Player.t) (depth : Z) (br : SearchResult) :
  Minimax.findBestMove fuel b p depth = Ret (Some br) ->
  In (mkPieceMove (sr_fromRow br) (sr_fromCol br) (sr_move br)) (getAllValidMoves b p).
Proof. apply findBestMove_in. Qed.

Lemma findBestMove_legal_witness :
  Minimax.findBestMove 1 demoBoard Player.Red 1 = Ret (Some demoResult) /\
  In (mkPieceMove (sr_fromRow demoResult) (sr_fromCol demoResult) (sr_move demoResult))
     (getAllValidMoves demoBoard Player.Red).
Proof.
  assert (H : Minimax.findBestMove 1 demoBoard Player.Red 1 = Ret (Some demoResult))
    by (vm_compute; reflexivity).
  split; [exact H|]. exact (findBestMove_legal 1 demoBoard Player.Red 1 demoResult H).
Defined.

(** X5: for a legal first move, [simulateFuture] plays it on a copy of
    the board and then alternately plays legal moves of the two sides on
    that copy; it records at most 6 moves and at most [depth] after the
    first; when it stops with room left, the side to move has no move; the
    evaluation is [evaluate] of the final board for the player and the
    description is [describeVision] of it. *)
Theorem simulateFuture_playout (fuel : nat) (b : Board) (pl : Player.t) (pm : PieceMove) (depth : Z) :
  (2 <= fuel)%nat -> In pm (getAllValidMoves b pl) ->
  exists fv b1 rest p',
    Precog.simulateFuture fuel b pl pm depth = Ret fv /\
    moves fv = pm :: rest /\
    Move.execute (clone b) (fromRow pm) (fromCol pm) (move pm) = Ret b1 /\
    playout b1 (Evaluator.opponentOf pl) rest (finalBoard fv) p' /\
    (length (moves fv) <= 6)%nat /\
    Z.of_nat (length rest) <= Z.max 0 depth /\
    ((length (moves fv) < 6)%nat -> Z.of_nat (length rest) < depth ->
     getAllValidMoves (finalBoard fv) p' = []) /\
    evaluation fv = Fin (Evaluator.evaluate (finalBoard fv) pl) /\
    description fv = describeVision (evaluation fv) pl.
Proof. apply simulateFuture_spec. Qed.

Lemma simulateFuture_playout_witness :
  (2 <= 2)%nat /\ In demoMove (getAllValidMoves demoBoard Player.Red) /\
  exists fv b1 rest p',
    Precog.simulateFuture 2 demoBoard Player.Red demoMove 3 = Ret fv /\
    moves fv = demoMove :: rest /\
    Move.execute (clone demoBoard) (fromRow demoMove) (fromCol demoMove) (move demoMove) = Ret b1 /\
    playout b1 (Evaluator.opponentOf Player.Red) rest (finalBoard fv) p' /\
    (length (moves fv) <= 6)%nat /\
    Z.of_nat (length rest) <= Z.max 0 3 /\
    ((length (moves fv) < 6)%nat -> Z.of_nat (length rest) < 3 ->
     getAllValidMoves (finalBoard fv) p' = []) /\
    evaluation fv = Fin (Evaluator.evaluate (finalBoard fv) Player.Red) /\
    description fv = describeVision (evaluation fv) Player.Red.
Proof.
  assert (H : In demoMove (getAllValidMoves demoBoard Player.Red))
    by (vm_compute; left; reflexivity).
  split; [lia|]. split; [exact H|].
  apply (simulateFuture_playout 2 demoBoard Player.Red demoMove 3); [lia|exact H].
Defined.

(** X6: for a legal player move and depth >= 1, [getPredictedResponse]
    plays the move on a copy and returns [None] exactly when the AI then
    has no move; otherwise it returns the two-move vision of the player's
    move and a legal AI reply, the board after both moves, and the
    full-minimax value of the position for the AI. *)
Theorem getPredictedResponse_search (fuel : nat) (b : Board) (pl ai : Player.t) (pm : PieceMove)
    (depth : Z) :
  1 <= depth -> (Z.to_nat depth <= fuel)%nat -> In pm (getAllValidMoves b pl) ->
  exists nb r,
    Move.execute (clone b) (fromRow pm) (fromCol pm) (move pm) = Ret nb /\
    Precog.getPredictedResponse fuel b pm ai depth = Ret r /\
    (r = None <-> getAllValidMoves nb ai = []) /\
    forall fv, r = Some fv ->
      exists am, moves fv = [pm; am] /\ In am (getAllValidMoves nb ai) /\
        Move.execute (clone nb) (fromRow am) (fromCol am) (move am) = Ret (finalBoard fv) /\
        FullSearch.bestScoreFull nb ai (Z.to_nat depth) = Ret (Some (evaluation fv)) /\
        description fv = describeVision (evaluation fv) ai.
Proof.
  intros Hd Hf Hin.
  destruct (execute_generated b pl pm Hin) as [nb Hnb].
  exists nb. unfold getPredictedResponse, mbind, outcome_mbind. rewrite Hnb. cbn [obind].
  destruct (findBestMove_root fuel nb ai depth Hd Hf)
    as [(Hm & H1 & _)|(br & T & Hm & H1 & H2 & H3)]; rewrite H1; cbn [obind].
  - exists None. split; [reflexivity|]. split; [reflexivity|]. split; [tauto|].
    intros fv Hfv; discriminate.
  - assert (Hl := findBestMove_in _ _ _ _ _ H1).
    destruct (execute_generated nb ai _ Hl) as [ab Hab]. cbn in Hab. rewrite Hab. cbn [obind].
    eexists. split; [reflexivity|]. split; [reflexivity|]. split; [split; [discriminate|contradiction]|].
    intros fv Hfv. injection Hfv as <-.
    exists (mkPieceMove (sr_fromRow br) (sr_fromCol br) (sr_move br)).
    split; [reflexivity|]. split; [exact Hl|]. split; [exact Hab|].
    cbn [evaluation description]. rewrite H3. split; [exact H2|reflexivity].
Qed.

Lemma getPredictedResponse_search_witness :
  1 <= 1 /\ (Z.to_nat 1 <= 1)%nat /\ In demoMove (getAllValidMoves demoBoard Player.Red) /\
  exists nb r,
    Move.execute (clone demoBoard) (fromRow demoMove) (fromCol demoMove) (move demoMove) = Ret nb /\
    Precog.getPredictedResponse 1 demoBoard demoMove Player.Black 1 = Ret r /\
    (r = None <-> getAllValidMoves nb Player.Black = []) /\
    forall fv, r = Some fv ->
      exists am, moves fv = [demoMove; am] /\ In am (getAllValidMoves nb Player.Black) /\
        Move.execute (clone nb) (fromRow am) (fromCol am) (move am) = Ret (finalBoard fv) /\
        FullSearch.bestScoreFull nb Player.Black (Z.to_nat 1) = Ret (Some (evaluation fv)) /\
        description fv = describeVision (evaluation fv) Player.Black.
Proof.
  assert (H : In demoMove (getAllValidMoves demoBoard Player.Red))
    by (vm_compute; left; reflexivity).
  split; [lia|]. split; [cbn; lia|]. split; [exact H|].
  apply (getPredictedResponse_search 1 demoBoard Player.Red Player.Black demoMove 1);
    [lia|cbn; lia|exact H].
Defined.

Import RendererFacts.

(** X7: the renderer's [getCaptureMoves], used by the threat display,
    tries the four diagonal jumps for every piece: it returns the captures
    the piece would have as a king, which include its real captures; a red
    man with a black piece behind it gets a backward jump the rules do not
    allow. *)
Theorem renderer_captures_as_king (b : Board) (r c : Z) (pl : Player.t) :
  Renderer.getCaptureMoves b r c pl =
    match getPieceAt b r c with
    | Some pc => if bool_decide (player pc = pl)
                 then MoveValidator.getCaptureMoves b r c pl PieceType.King else []
    | None => []
    end /\
  (forall pc, getPieceAt b r c = Some pc -> player pc = pl ->
     incl (MoveValidator.getCaptureMoves b r c pl (type pc)) (Renderer.getCaptureMoves b r c pl)) /\
  Renderer.getCaptureMoves (board_of [(2, 3, rR); (1, 2, bR)]) 2 3 Player.Red
    = [Move.mk 0 1 MoveType.Capture (Some 1) (Some 2)] /\
  MoveValidator.getValidMoves (board_of [(2, 3, rR); (1, 2, bR)]) 2 3
    = [Move.mk 3 2 MoveType.Regular None None; Move.mk 3 4 MoveType.Regular None None].
Proof.
  split; [apply getCaptureMoves_king|]. split; [|split; vm_compute; reflexivity].
  intros pc Hpc Hpl. rewrite getCaptureMoves_king, Hpc. rewrite bool_decide_eq_true_2 by exact Hpl.
  apply validator_captures_incl.
Qed.

Import Game.

(** X8: a human piece that some legal AI move captures is listed among
    the threatened pieces of [renderThreats], and while the game is active
    on the human's turn the panel shows the "piece(s) in danger!"
    message with their count. *)
Theorem threats_complete (st : GameState) (pc : Piece) (r c : Z) :
  In (pc, r, c) (getPieces (board st) (humanPlayer st)) ->
  (exists pm, In pm (getAllValidMoves (board st) (aiPlayer st)) /\
     Move.capturedRow (move pm) = Some r /\ Move.capturedCol (move pm) = Some c) ->
  In (pc, r, c) (Renderer.threatenedPieces st) /\
  (status st = Active -> currentPlayer st <> aiPlayer st ->
   In (lit "danger", numToString (Z.of_nat (length (Renderer.threatenedPieces st)))
                     ++ lit " piece(s) in danger!")
      (Renderer.threats st)).
Proof.
  intros Hp (pm & Hin & Hcr & Hcc).
  assert (Hm : In (move pm) (Renderer.getAllCaptureMoves (board st) (aiPlayer st))).
  { apply in_getAllValidMoves in Hin as (pc' & Hp' & Hpl & Hm).
    destruct Hm as [Hm|Hm].
    - apply in_getAllCaptureMoves. exists pc', (fromRow pm), (fromCol pm). split; [exact Hp'|].
      apply getPieces_getPieceAt in Hp' as [Hat _].
      rewrite getCaptureMoves_king, Hat, bool_decide_eq_true_2 by exact Hpl.
      exact (validator_captures_incl _ _ _ _ _ _ Hm).
    - apply in_getRegularMoves in Hm as (dr & dc & _ & Heq & _). rewrite Heq in Hcr. discriminate. }
  assert (Ht : In (pc, r, c) (Renderer.threatenedPieces st)).
  { unfold Renderer.threatenedPieces. apply filter_In. split; [exact Hp|].
    apply existsb_exists. exists (move pm). split; [exact Hm|].
    rewrite Hcr, Hcc. rewrite !bool_decide_eq_true_2 by reflexivity. reflexivity. }
  split; [exact Ht|]. intros Ha Hc.
  unfold Renderer.threats. rewrite bool_decide_eq_true_2 by exact Ha.
  rewrite bool_decide_eq_false_2 by exact Hc. cbn [negb].
  destruct (Renderer.threatenedPieces st) as [|t0 ts] eqn:Htp; [destruct Ht|].
  cbn [length]. replace (0 <? Z.of_nat (S (length ts))) with true by (symmetry; apply Z.ltb_lt; lia).
  cbn [app]. left. reflexivity.
Qed.

Lemma threats_complete_witness :
  In (rR, 2, 1) (getPieces (board demoGame) (humanPlayer demoGame)) /\
  (exists pm, In pm (getAllValidMoves (board demoGame) (aiPlayer demoGame)) /\
     Move.capturedRow (move pm) = Some 2 /\ Move.capturedCol (move pm) = Some 1) /\
  In (rR, 2, 1) (Renderer.threatenedPieces demoGame) /\
  (status demoGame = Active -> currentPlayer demoGame <> aiPlayer demoGame ->
   In (lit "danger", numToString (Z.of_nat (length (Renderer.threatenedPieces demoGame)))
                     ++ lit " piece(s) in danger!")
      (Renderer.threats demoGame)).
Proof.
  assert (H1 : In (rR, 2, 1) (getPieces (board demoGame) (humanPlayer demoGame)))
    by (vm_compute; left; reflexivity).
  assert (H2 : exists pm, In pm (getAllValidMoves (board demoGame) (aiPlayer demoGame)) /\
     Move.capturedRow (move pm) = Some 2 /\ Move.capturedCol (move pm) = Some 1).
  { exists (mkPieceMove 3 2 (Move.mk 1 0 MoveType.Capture (Some 2) (Some 1))).
    split; [vm_compute; left; reflexivity|]. split; reflexivity. }
  split; [exact H1|]. split; [exact H2|].
  exact (threats_complete demoGame rR 2 1 H1 H2).
Defined.

(** X9: on in-range squares, [getMoveNotation] writes the source square,
    [x] for a capture or [-] otherwise, the target square (column letter,
    then rank 8 - row) and " (K)" after a promotion; the notation
    determines the squares, whether the move captured and whether it
    promoted. *)
Theorem getMoveNotation_format (m : MoveRecord) :
  0 <= (from m).1 < 8 -> 0 <= (from m).2 < 8 -> 0 <= (to m).1 < 8 -> 0 <= (to m).2 < 8 ->
  Renderer.getMoveNotation m =
    [97 + (from m).2; 56 - (from m).1;
     match captured m with Some _ => 120 | None => 45 end;
     97 + (to m).2; 56 - (to m).1] ++ (if wasPromotion m then lit " (K)" else []) /\
  forall m' : MoveRecord,
    0 <= (from m').1 < 8 -> 0 <= (from m').2 < 8 -> 0 <= (to m').1 < 8 -> 0 <= (to m').2 < 8 ->
    Renderer.getMoveNotation m' = Renderer.getMoveNotation m ->
    from m' = from m /\ to m' = to m /\ (captured m' = None <-> captured m = None) /\
    wasPromotion m' = wasPromotion m.
Proof.
  assert (Hfmt : forall m : MoveRecord,
    0 <= (from m).1 < 8 -> 0 <= (from m).2 < 8 -> 0 <= (to m).1 < 8 -> 0 <= (to m).2 < 8 ->
    Renderer.getMoveNotation m =
      [97 + (from m).2; 56 - (from m).1;
       match captured m with Some _ => 120 | None => 45 end;
       97 + (to m).2; 56 - (to m).1] ++ (if wasPromotion m then lit " (K)" else [])).
  { intros [pl [fr fc] [tr tc] cap promo]; cbn [from to captured wasPromotion fst snd].
    intros H1 H2 H3 H4. unfold Renderer.getMoveNotation. cbn [from to captured wasPromotion fst snd].
    rewrite !getSquareName_range by assumption.
    destruct cap, promo; reflexivity. }
  intros H1 H2 H3 H4. split; [exact (Hfmt m H1 H2 H3 H4)|].
  intros m' H1' H2' H3' H4' Heq. rewrite (Hfmt m H1 H2 H3 H4), (Hfmt m' H1' H2' H3' H4') in Heq.
  destruct m as [pl [fr fc] [tr tc] cap promo], m' as [pl' [fr' fc'] [tr' tc'] cap' promo'].
  cbn [from to captured wasPromotion fst snd] in *.
  cbn [app] in Heq. injection Heq as Hfc Hfr Hsep Htc Htr Hsuf.
  split; [f_equal; lia|]. split; [f_equal; lia|]. split.
  - destruct cap, cap'; cbn in Hsep; split; intros; congruence || lia.
  - destruct promo, promo'; cbn in Hsuf; congruence.
Qed.

Lemma getMoveNotation_format_witness :
  let m := mkMoveRecord Player.Red (2, 1) (4, 3) (Some (Some 3, Some 2)) false in
  0 <= (from m).1 < 8 /\ 0 <= (from m).2 < 8 /\ 0 <= (to m).1 < 8 /\ 0 <= (to m).2 < 8 /\
  Renderer.getMoveNotation m =
    [97 + (from m).2; 56 - (from m).1;
     match captured m with Some _ => 120 | None => 45 end;
     97 + (to m).2; 56 - (to m).1] ++ (if wasPromotion m then lit " (K)" else []) /\
  forall m' : MoveRecord,
    0 <= (from m').1 < 8 -> 0 <= (from m').2 < 8 -> 0 <= (to m').1 < 8 -> 0 <= (to m').2 < 8 ->
    Renderer.getMoveNotation m' = Renderer.getMoveNotation m ->
    from m' = from m /\ to m' = to m /\ (captured m' = None <-> captured m = None) /\
    wasPromotion m' = wasPromotion m.
Proof.
  intros m. cbn [from to fst snd m].
  split; [lia|]. split; [lia|]. split; [lia|]. split; [lia|].
  apply (getMoveNotation_format m); cbn; lia.
Defined.

(** X10: [renderHistory] shows its placeholder exactly when the history
    is empty; otherwise it lists the last min(10, length) moves newest
    first, the item at position [i] numbered [length - i] (at least 1) and
    showing the player name and notation of history entry [number - 1]. *)
Theorem historyItems_numbering (h : list MoveRecord) :
  (Renderer.historyItems h = None <-> h = []) /\
  forall items, Renderer.historyItems h = Some items ->
    length items = Nat.min 10 (length h) /\
    forall i n name nt, items !! i = Some (n, name, nt) ->
      n = Z.of_nat (length h) - Z.of_nat i /\ 1 <= n /\
      exists m, h !! Z.to_nat (n - 1) = Some m /\ nt = Renderer.getMoveNotation m /\
        name = match mr_player m with Player.Red => lit "Red" | Player.Black => lit "Black" end.
Proof.
  unfold Renderer.historyItems.
  split; [destruct h; split; congruence|].
  intros items Hit. destruct h as [|m0 h0] eqn:Eh; [discriminate|]. rewrite <- Eh in Hit |- *.
  injection Hit as <-. unfold sliceFrom, relIndex.
  assert (Hpos : (0 < length h)%nat) by (subst h; cbn; lia).
  set (s := Z.to_nat (if -10 <? 0 then Z.max (Z.of_nat (length h) + -10) 0
                      else Z.min (-10) (Z.of_nat (length h)))).
  assert (Hs : s = (length h - 10)%nat) by (unfold s; cbn; lia).
  rewrite Hs. split.
  - rewrite length_imap, length_rev, length_skipn. lia.
  - intros i n name nt Hi. rewrite list_lookup_imap in Hi.
    destruct (rev (skipn (length h - 10) h) !! i) as [m|] eqn:Hm; [|discriminate].
    cbn in Hi. injection Hi as <- <- <-.
    rewrite rev_alt in Hm. change (rev_append ?l []) with (reverse l) in Hm.
    apply reverse_lookup_Some in Hm as [Hm Hlt]. rewrite lookup_drop, length_skipn in Hm.
    rewrite length_skipn in Hlt.
    split; [reflexivity|]. split; [lia|].
    exists m. split; [|split; reflexivity].
    rewrite <- Hm. f_equal. lia.
Qed.

Import GameFacts.

(** X11: [selectPiece] never changes the board, the turn, the status or
    the history.  When it returns true, the game is active on the human's
    turn, the square is selected and [validMoves] are exactly the piece's
    moves among [getAllValidMoves] (not empty, and all captures when the
    player has a capture anywhere); when it returns false, the state is
    unchanged or only the selection is cleared. *)
Theorem selectPiece_offers_legal_moves (fuel : nat) (st st' : GameState) (r c : Z) (ok : bool) :
  selectPiece fuel st r c = Ret (ok, st') ->
  board st' = board st /\ currentPlayer st' = currentPlayer st /\ status st' = status st /\
  moveHistory st' = moveHistory st /\
  (ok = true ->
     status st = Active /\ currentPlayer st = humanPlayer st /\
     selectedPiece st' = Some (r, c) /\ validMoves st' <> [] /\
     (forall m, In m (validMoves st') <->
                In (mkPieceMove r c m) (getAllValidMoves (board st) (currentPlayer st))) /\
     ((exists pm, In pm (getAllValidMoves (board st) (currentPlayer st)) /\
                  Move.type (move pm) = MoveType.Capture) ->
      Forall (fun m => Move.type m = MoveType.Capture) (validMoves st'))) /\
  (ok = false -> st' = st \/ st' = clearSelection st).
Proof.
  intros H. pose proof (selectPiece_frame _ _ _ _ _ _ H) as (Hb & Hp & Hs & Hh & _).
  do 4 (split; [assumption|]).
  unfold selectPiece in H.
  destruct (negb (bool_decide (status st = Active))) eqn:Ea;
    [injection H as <- <-; split; [discriminate|auto]|].
  destruct (negb (bool_decide (currentPlayer st = humanPlayer st))) eqn:Eh;
    [injection H as <- <-; split; [discriminate|auto]|].
  apply negb_false_iff, bool_decide_eq_true in Ea, Eh.
  destruct (getPieceAt (board st) r c) as [piece|];
    [|injection H as <- <-; split; [discriminate|auto]].
  destruct (bool_decide (player piece = currentPlayer st));
    [|injection H as <- <-; split; [discriminate|auto]].
  destruct (List.filter _ _) as [|pm0 pms] eqn:Ef;
    [injection H as <- <-; split; [discriminate|auto]|].
  set (st1 := set_validMoves (set_selectedPiece st (Some (r, c))) (map move (pm0 :: pms))) in H.
  assert (Hst' : st' = set_currentVisions st1 (currentVisions st')).
  { unfold mbind, outcome_mbind in H.
    destruct (visionsEnabled st1).
    - destruct (updateVisions fuel st1) as [st2| |] eqn:Hu; cbn [obind] in H; try discriminate.
      injection H as _ <-. exact (updateVisions_frame _ _ _ Hu).
    - cbn [obind] in H. injection H as _ <-. destruct st1; reflexivity. }
  assert (Hok : ok = true).
  { unfold mbind, outcome_mbind in H. destruct (if visionsEnabled st1 then _ else _);
      cbn [obind] in H; try discriminate. injection H as <- _. reflexivity. }
  split; [|intros; congruence]. intros _.
  rewrite Hst'. cbn [validMoves selectedPiece set_currentVisions st1 set_validMoves set_selectedPiece].
  assert (Hiff : forall m, In m (map move (pm0 :: pms)) <->
           In (mkPieceMove r c m) (getAllValidMoves (board st) (currentPlayer st))).
  { intros m. rewrite <- Ef. apply in_map_move_filter. }
  repeat split; try assumption; try discriminate.
  - apply Hiff.
  - apply Hiff.
  - intros Hex. apply List.Forall_forall. intros m Hm. apply Hiff in Hm.
    exact (all_captures_if_any _ _ Hex _ Hm).
Qed.

Lemma selectPiece_offers_legal_moves_witness :
  selectPiece 3 demoGame 2 1 = Ret (true, demoSelected) /\
  board demoSelected = board demoGame /\ currentPlayer demoSelected = currentPlayer demoGame /\
  status demoSelected = status demoGame /\ moveHistory demoSelected = moveHistory demoGame /\
  (true = true ->
     status demoGame = Active /\ currentPlayer demoGame = humanPlayer demoGame /\
     selectedPiece demoSelected = Some (2, 1) /\ validMoves demoSelected <> [] /\
     (forall m, In m (validMoves demoSelected) <->
                In (mkPieceMove 2 1 m) (getAllValidMoves (board demoGame) (currentPlayer demoGame))) /\
     ((exists pm, In pm (getAllValidMoves (board demoGame) (currentPlayer demoGame)) /\
                  Move.type (move pm) = MoveType.Capture) ->
      Forall (fun m => Move.type m = MoveType.Capture) (validMoves demoSelected))) /\
  (true = false -> demoSelected = demoGame \/ demoSelected = clearSelection demoGame).
Proof.
  assert (H : selectPiece 3 demoGame 2 1 = Ret (true, demoSelected)) by (vm_compute; reflexivity).
  split; [exact H|]. exact (selectPiece_offers_legal_moves 3 demoGame demoSelected 2 1 true H).
Defined.

(** X12: for a legal move of the current player, [executeMove] plays it
    on the game board and appends one record (captured square for a
    capture, promotion flag for a man reaching the far row).  After a
    capture from which the piece can capture again, the same player keeps
    the turn with the piece selected and its captures offered; otherwise
    the selection is cleared and the turn passes to the opponent. *)
Theorem executeMove_jump_or_pass (fuel : nat) (st : GameState) (fr fc : Z) (m : Move.t) :
  In (mkPieceMove fr fc m) (getAllValidMoves (board st) (currentPlayer st)) ->
  exists pc nb pc' st',
    getPieceAt (board st) fr fc = Some pc /\
    Move.execute (board st) fr fc m = Ret nb /\
    getPieceAt nb (Move.toRow m) (Move.toCol m) = Some pc' /\
    player pc' = currentPlayer st /\
    executeMove fuel st fr fc m = Ret st' /\
    board st' = nb /\
    moveHistory st' =
      moveHistory st ++
      [mkMoveRecord (currentPlayer st) (fr, fc) (Move.toRow m, Move.toCol m)
         (if isCapture m then Some (Move.capturedRow m, Move.capturedCol m) else None)
         (promotes pc (Move.toRow m))] /\
    (if isCapture m &&
        negb (bool_decide (MoveValidator.getCaptureMoves nb (Move.toRow m) (Move.toCol m)
                             (player pc') (type pc') = []))
     then currentPlayer st' = currentPlayer st /\ status st' = status st /\
          selectedPiece st' = Some (Move.toRow m, Move.toCol m) /\
          validMoves st' =
            MoveValidator.getCaptureMoves nb (Move.toRow m) (Move.toCol m) (player pc') (type pc')
     else currentPlayer st' = Evaluator.opponentOf (currentPlayer st) /\
          selectedPiece st' = None /\ validMoves st' = []).
Proof.
  intros Hin.
  destruct (execute_lands _ _ _ _ _ Hin) as (pc & nb & pc' & Hpc & Hpl & Hex & Hl & Hpl' & Hpr).
  rewrite <- (capturedOf_legal _ _ _ _ _ Hin).
  destruct (getCaptureChains_continues nb _ _ pc' Hl) as (chains & Hch & Hexb).
  set (record := mkMoveRecord (currentPlayer st) (fr, fc) (Move.toRow m, Move.toCol m)
                   (capturedOf m) (promotes pc (Move.toRow m))).
  set (st1 := set_moveHistory (set_board st nb) (moveHistory st ++ [record])).
  set (caps := MoveValidator.getCaptureMoves nb (Move.toRow m) (Move.toCol m) (player pc') (type pc')).
  set (cond := isCapture m && negb (bool_decide (caps = []))).
  set (stJ := set_validMoves (set_selectedPiece st1 (Some (Move.toRow m, Move.toCol m))) caps).
  assert (Hem : executeMove fuel st fr fc m = Ret (if cond then stJ else endTurn st1)).
  { unfold executeMove. rewrite Hpc. unfold mbind, outcome_mbind. rewrite Hex. cbn [obind].
    match goal with |- context [promoted ?w (getPieceAt nb ?r ?c)] =>
      replace (promoted w (getPieceAt nb r c)) with (promotes pc (Move.toRow m))
        by (rewrite Hl; symmetry; exact Hpr) end.
    fold record. fold st1. unfold cond.
    destruct (isCapture m); cbn [andb]; [|reflexivity].
    rewrite Hch. cbn [obind]. rewrite Hexb. fold caps.
    destruct (negb (bool_decide (caps = []))) eqn:Hne; [|reflexivity].
    unfold stJ. do 2 f_equal.
    unfold getValidMoves. rewrite Hl. fold caps.
    apply negb_true_iff, bool_decide_eq_false in Hne.
    assert (Hf : List.filter isCapture caps = caps).
    { assert (Hall : forall l, (forall y, In y l -> isCapture y = true) ->
                List.filter isCapture l = l).
      { induction l as [|y l IHl]; intros Hy; [reflexivity|]. cbn [List.filter].
        rewrite (Hy y (or_introl eq_refl)). f_equal. apply IHl. intros z Hz. apply Hy. right. exact Hz. }
      apply Hall. intros y Hy.
      unfold isCapture. apply bool_decide_eq_true. eapply getCaptureMoves_type. exact Hy. }
    destruct caps; [congruence|exact Hf]. }
  exists pc, nb, pc', (if cond then stJ else endTurn st1).
  do 3 (split; [assumption|]). split; [congruence|].
  split; [exact Hem|].
  fold caps. fold cond. destruct cond.
  - cbn. split; [reflexivity|]. split; [reflexivity|]. auto.
  - unfold endTurn. pose proof (switchTurn_fields
      (set_currentVisions (clearSelection st1) [])) as (H1 & H2 & H3 & H4 & H5 & _).
    rewrite H1, H2, H3, H4, H5. cbn. auto.
Qed.

Lemma executeMove_jump_or_pass_witness :
  In (mkPieceMove 2 1 demoJump) (getAllValidMoves (board demoGame) (currentPlayer demoGame)) /\
  exists pc nb pc' st',
    getPieceAt (board demoGame) 2 1 = Some pc /\
    Move.execute (board demoGame) 2 1 demoJump = Ret nb /\
    getPieceAt nb (Move.toRow demoJump) (Move.toCol demoJump) = Some pc' /\
    player pc' = currentPlayer demoGame /\
    executeMove 3 demoGame 2 1 demoJump = Ret st' /\
    board st' = nb /\
    moveHistory st' =
      moveHistory demoGame ++
      [mkMoveRecord (currentPlayer demoGame) (2, 1) (Move.toRow demoJump, Move.toCol demoJump)
         (if isCapture demoJump
          then Some (Move.capturedRow demoJump, Move.capturedCol demoJump) else None)
         (promotes pc (Move.toRow demoJump))] /\
    (if isCapture demoJump &&
        negb (bool_decide (MoveValidator.getCaptureMoves nb (Move.toRow demoJump)
                             (Move.toCol demoJump) (player pc') (type pc') = []))
     then currentPlayer st' = currentPlayer demoGame /\ status st' = status demoGame /\
          selectedPiece st' = Some (Move.toRow demoJump, Move.toCol demoJump) /\
          validMoves st' =
            MoveValidator.getCaptureMoves nb (Move.toRow demoJump) (Move.toCol demoJump)
              (player pc') (type pc')
     else currentPlayer st' = Evaluator.opponentOf (currentPlayer demoGame) /\
          selectedPiece st' = None /\ validMoves st' = []).
Proof.
  assert (H : In (mkPieceMove 2 1 demoJump) (getAllValidMoves (board demoGame) (currentPlayer demoGame)))
    by (vm_compute; left; reflexivity).
  split; [exact H|]. exact (executeMove_jump_or_pass 3 demoGame 2 1 demoJump H).
Defined.

(** X13: when the AI's timer fires (depth >= 1), either the AI has no
    legal move and the game is only checked for its end, or the AI plays
    the legal move [findBestMove] chose and records it; after a capture it
    records further jumps of the AI (each with a captured square and
    [wasPromotion] false) until the AI piece on the last square has no
    capture, while a quiet move is the only move played; [lastAIMove] is
    that last square, the turn passes to the opponent of the current
    player and the selection and valid moves are left as they were. *)
Theorem makeAIMoveResume_plays (fuel : nat) (st : GameState) :
  1 <= aiDepth st -> (Z.to_nat (aiDepth st) <= fuel)%nat ->
  (getAllValidMoves (board st) (aiPlayer st) = [] /\
   makeAIMoveResume fuel st = Ret (checkGameOver st)) \/
  exists br pc st' recs pos pc',
    Minimax.findBestMove fuel (board st) (aiPlayer st) (aiDepth st) = Ret (Some br) /\
    In (mkPieceMove (sr_fromRow br) (sr_fromCol br) (sr_move br))
       (getAllValidMoves (board st) (aiPlayer st)) /\
    getPieceAt (board st) (sr_fromRow br) (sr_fromCol br) = Some pc /\
    makeAIMoveResume fuel st = Ret st' /\
    moveHistory st' =
      moveHistory st ++
      mkMoveRecord (aiPlayer st) (sr_fromRow br, sr_fromCol br)
        (Move.toRow (sr_move br), Move.toCol (sr_move br))
        (if isCapture (sr_move br)
         then Some (Move.capturedRow (sr_move br), Move.capturedCol (sr_move br)) else None)
        (promotes pc (Move.toRow (sr_move br))) :: recs /\
    Forall (fun r => mr_player r = aiPlayer st /\ wasPromotion r = false /\
                     exists cr cc, captured r = Some (Some cr, Some cc)) recs /\
    (isCapture (sr_move br) = false ->
       recs = [] /\ pos = (Move.toRow (sr_move br), Move.toCol (sr_move br)) /\
       Move.execute (board st) (sr_fromRow br) (sr_fromCol br) (sr_move br) = Ret (board st')) /\
    lastAIMove st' = Some pos /\
    getPieceAt (board st') pos.1 pos.2 = Some pc' /\ player pc' = aiPlayer st /\
    (isCapture (sr_move br) = true ->
       MoveValidator.getCaptureMoves (board st') pos.1 pos.2 (aiPlayer st) (type pc') = []) /\
    currentPlayer st' = Evaluator.opponentOf (currentPlayer st) /\
    selectedPiece st' = selectedPiece st /\ validMoves st' = validMoves st.
Proof.
  intros Hd Hf.
  destruct (makeAIMoveResume_spec fuel st Hd Hf) as [H|H]; [left; exact H|right].
  destruct H as (br & pc & st' & recs & pos & pc' & H1 & H2 & H3 & H4 & H5 & H6 & H7 & H8 & H9 &
                 H10 & H11 & H12 & H13 & H14 & _).
  exists br, pc, st', recs, pos, pc'. tauto.
Qed.

Lemma makeAIMoveResume_plays_witness :
  1 <= aiDepth demoGame /\ (Z.to_nat (aiDepth demoGame) <= 1)%nat /\
  ((getAllValidMoves (board demoGame) (aiPlayer demoGame) = [] /\
    makeAIMoveResume 1 demoGame = Ret (checkGameOver demoGame)) \/
   exists br pc st' recs pos pc',
     Minimax.findBestMove 1 (board demoGame) (aiPlayer demoGame) (aiDepth demoGame) = Ret (Some br) /\
     In (mkPieceMove (sr_fromRow br) (sr_fromCol br) (sr_move br))
        (getAllValidMoves (board demoGame) (aiPlayer demoGame)) /\
     getPieceAt (board demoGame) (sr_fromRow br) (sr_fromCol br) = Some pc /\
     makeAIMoveResume 1 demoGame = Ret st' /\
     moveHistory st' =
       moveHistory demoGame ++
       mkMoveRecord (aiPlayer demoGame) (sr_fromRow br, sr_fromCol br)
         (Move.toRow (sr_move br), Move.toCol (sr_move br))
         (if isCapture (sr_move br)
          then Some (Move.capturedRow (sr_move br), Move.capturedCol (sr_move br)) else None)
         (promotes pc (Move.toRow (sr_move br))) :: recs /\
     Forall (fun r => mr_player r = aiPlayer demoGame /\ wasPromotion r = false /\
                      exists cr cc, captured r = Some (Some cr, Some cc)) recs /\
     (isCapture (sr_move br) = false ->
        recs = [] /\ pos = (Move.toRow (sr_move br), Move.toCol (sr_move br)) /\
        Move.execute (board demoGame) (sr_fromRow br) (sr_fromCol br) (sr_move br) = Ret (board st')) /\
     lastAIMove st' = Some pos /\
     getPieceAt (board st') pos.1 pos.2 = Some pc' /\ player pc' = aiPlayer demoGame /\
     (isCapture (sr_move br) = true ->
        MoveValidator.getCaptureMoves (board st') pos.1 pos.2 (aiPlayer demoGame) (type pc') = []) /\
     currentPlayer st' = Evaluator.opponentOf (currentPlayer demoGame) /\
     selectedPiece st' = selectedPiece demoGame /\ validMoves st' = validMoves demoGame).
Proof.
  assert (H1 : 1 <= aiDepth demoGame) by (cbn; lia).
  assert (H2 : (Z.to_nat (aiDepth demoGame) <= 1)%nat) by (cbn; lia).
  split; [exact H1|]. split; [exact H2|]. exact (makeAIMoveResume_plays 1 demoGame H1 H2).
Defined.

(** X14: an AI move still pending when a new game is started with the
    human first is played in the new game: after [StartGame true] and the
    timer, the history holds one Black move, the human plays Red, it is
    Black's turn, and as many AI moves are pending as before. *)
Theorem startGame_replays_pending_ai_move (fuel : nat) (st : GameState) :
  aiPending st <> 0%nat -> 1 <= aiDepth st -> (Z.to_nat (aiDepth st) <= fuel)%nat ->
  exists st' rec,
    Renderer.run fuel st [Renderer.StartGame true; Renderer.AITimer] = Ret st' /\
    humanPlayer st' = Player.Red /\ aiPlayer st' = Player.Black /\
    moveHistory st' = [rec] /\ mr_player rec = Player.Black /\
    currentPlayer st' = Player.Black /\ status st' = Active /\ aiPending st' = aiPending st.
Proof.
  intros Hp Hd Hf.
  destruct (aiPending st) as [|k] eqn:Hk; [congruence|].
  set (st2 := set_aiPending (startWithPlayer st true) k).
  assert (Hrun : Renderer.run fuel st [Renderer.StartGame true; Renderer.AITimer] =
                 makeAIMoveResume fuel st2).
  { cbn [Renderer.run Renderer.step]. unfold mbind, outcome_mbind. cbn [obind].
    change (aiPending (startWithPlayer st true)) with (aiPending st). rewrite Hk.
    fold st2. destruct (makeAIMoveResume fuel st2); reflexivity. }
  destruct (makeAIMoveResume_spec fuel st2 Hd Hf) as [(Hnone & _)|H].
  { exfalso. revert Hnone. vm_compute. discriminate. }
  destruct H as (br & pc & st' & recs & pos & pc' & _ & Hin & _ & Hres & Hh & _ & Hq & _ & _ & _ &
                 _ & _ & _ & _ & Heq).
  change (board st2) with createInitialBoard in Hin.
  change (aiPlayer st2) with Player.Black in Hin.
  destruct (black_openings _ Hin) as (Hc & nb & Hex & Hr & Hb & Hm).
  cbn [fromRow fromCol move] in Hc, Hex.
  destruct (Hq Hc) as (-> & _ & Hex').
  change (board st2) with createInitialBoard in Hex'.
  rewrite Hex in Hex'. injection Hex' as Hnb.
  exists st'. eexists. split; [rewrite Hrun; exact Hres|].
  rewrite Heq. rewrite <- Hnb. unfold st2, startWithPlayer.
  rewrite bool_decide_false by discriminate.
  unfold switchTurn. cbn [set_lastAIMove set_moveHistory set_board set_aiPending newGame set_players
    currentPlayer set_currentPlayer].
  unfold checkGameOver. cbn [board set_currentPlayer set_lastAIMove set_moveHistory set_board
    set_aiPending newGame set_players currentPlayer].
  destruct (getPieces nb Player.Red); [congruence|].
  destruct (getPieces nb Player.Black); [congruence|].
  destruct (getAllValidMoves nb Player.Black); [congruence|].
  cbn. rewrite Hh. cbn. repeat split.
Qed.

Lemma startGame_replays_pending_ai_move_witness :
  aiPending aiToOpen <> 0%nat /\ 1 <= aiDepth aiToOpen /\ (Z.to_nat (aiDepth aiToOpen) <= 1)%nat /\
  exists st' rec,
    Renderer.run 1 aiToOpen [Renderer.StartGame true; Renderer.AITimer] = Ret st' /\
    humanPlayer st' = Player.Red /\ aiPlayer st' = Player.Black /\
    moveHistory st' = [rec] /\ mr_player rec = Player.Black /\
    currentPlayer st' = Player.Black /\ status st' = Active /\ aiPending st' = aiPending aiToOpen.
Proof.
  assert (H1 : aiPending aiToOpen <> 0%nat) by (vm_compute; discriminate).
  assert (Hd : aiDepth aiToOpen = 1) by (vm_compute; reflexivity).
  assert (H2 : 1 <= aiDepth aiToOpen) by (rewrite Hd; lia).
  assert (H3 : (Z.to_nat (aiDepth aiToOpen) <= 1)%nat) by (rewrite Hd; cbn; lia).
  split; [exact H1|]. split; [exact H2|]. split; [exact H3|].
  exact (startGame_replays_pending_ai_move 1 aiToOpen H1 H2 H3).
Defined.

Import EvalFacts.

(** X15: [evaluate] is zero-sum (Black's score is minus Red's) exactly
    when the board holds at least one piece. *)
Theorem evaluate_zero_sum (b : Board) :
  Evaluator.evaluate b Player.Black = - Evaluator.evaluate b Player.Red <->
  getPieces b Player.Red <> [] \/ getPieces b Player.Black <> [].
Proof.
  unfold Evaluator.evaluate. cbn [Evaluator.opponentOf].
  destruct (getPieces b Player.Red) as [|r rs] eqn:Er;
    destruct (getPieces b Player.Black) as [|k ks] eqn:Eb; cbn [length Nat.eqb].
  - split; [discriminate|]. intros [H|H]; congruence.
  - split; [intros _; right; discriminate|reflexivity].
  - split; [intros _; left; discriminate|reflexivity].
  - rewrite !fold_minus, !fold_plus. split; [intros _; left; discriminate|lia].
Qed.

(** X16: from a new [GameState], no sequence of user actions and AI timer
    ticks leads to the status [Draw]. *)
Theorem game_never_drawn (fuel : nat) (humanPlayer : Player.t) (aiDepth : Z)
    (evs : list Renderer.event) (st' : GameState) :
  Renderer.run fuel (init humanPlayer aiDepth) evs = Ret st' -> status st' <> Draw.
Proof.
  intros H. apply (run_noDraw fuel evs (init humanPlayer aiDepth) st'); [|exact H].
  unfold noDraw. cbn. discriminate.
Qed.

Lemma game_never_drawn_witness :
  Renderer.run 2 (init Player.Black 1) raceEvents = Ret raceResult /\ status raceResult <> Draw.
Proof.
  assert (H : Renderer.run 2 (init Player.Black 1) raceEvents = Ret raceResult)
    by (vm_compute; reflexivity).
  split; [exact H|]. exact (game_never_drawn 2 Player.Black 1 raceEvents raceResult H).
Defined.
